(** * Zulip channel plugin: ingestion, policy and reply dispatch

    A shallow embedding of [src/zulip/monitor.ts] and [src/zulip/send.ts],
    with the parts of [src/zulip/client.ts], [src/zulip/accounts.ts] and
    [src/channel.ts] they rest on, together with the properties the
    specification states about them.

    Conventions of the embedding.
    - JavaScript strings are modelled by [string]; a character is a code
      unit in the ASCII range.  White space is the ASCII part of the
      ECMAScript [WhiteSpace] and [LineTerminator] classes, case mapping
      acts on the letters [A]-[Z] / [a]-[z].
    - JavaScript numbers that carry identifiers, time stamps and delays are
      integers and are modelled by [Z].
    - The host runtime ([core], from the plugin SDK) is a record of
      operations, see [Runtime]; the code under study only calls them.
    - An [async] function is modelled by the sequence of its effects; where
      the interleaving with the environment matters (the send queue) the
      model is a transition system driven by the events of the environment. *)

From Stdlib Require Import ZArith Ascii String Sorted.
From stdpp Require Import gmap strings list fin_maps pretty.

#[local] Set Warnings "-clear-no-such-hyp".

Local Open Scope string_scope.
Local Open Scope Z_scope.
Local Open Scope list_scope.

(** ** JavaScript string primitives *)

(** [\s] of a regular expression and the characters removed by
    [String.prototype.trim], within ASCII: TAB, LF, VT, FF, CR and SPACE. *)
Definition isWhiteSpace (c : ascii) : bool :=
  let n := nat_of_ascii c in
  (n =? 32)%nat || ((9 <=? n)%nat && (n <=? 13)%nat).

Definition isUpper (c : ascii) : bool :=
  let n := nat_of_ascii c in (65 <=? n)%nat && (n <=? 90)%nat.

Definition lowerChar (c : ascii) : ascii :=
  if isUpper c then ascii_of_nat (nat_of_ascii c + 32) else c.

(** [s.toLowerCase()] *)
Fixpoint toLowerCase (s : string) : string :=
  match s with
  | EmptyString => EmptyString
  | String c r => String (lowerChar c) (toLowerCase r)
  end.

Fixpoint trimStart (s : string) : string :=
  match s with
  | EmptyString => EmptyString
  | String c r => if isWhiteSpace c then trimStart r else s
  end.

Fixpoint trimEnd (s : string) : string :=
  match s with
  | EmptyString => EmptyString
  | String c r =>
      match trimEnd r with
      | EmptyString => if isWhiteSpace c then EmptyString else String c EmptyString
      | r' => String c r'
      end
  end.

(** [s.trim()] *)
Definition trim (s : string) : string := trimEnd (trimStart s).

(** A string in a boolean position: only the empty string is falsy. *)
Definition truthy (s : string) : bool :=
  match s with EmptyString => false | _ => true end.

(** Match of the literal [pat] at the start of [s], ignoring case (a
    regular expression made of escaped characters, with flag [i]); the
    result is what follows the match. *)
Fixpoint matchPrefixCI (pat s : string) : option string :=
  match pat with
  | EmptyString => Some s
  | String p pat' =>
      match s with
      | EmptyString => None
      | String c r =>
          if Ascii.eqb (lowerChar p) (lowerChar c) then matchPrefixCI pat' r else None
      end
  end.

(** [s.toLowerCase().startsWith(p)] for a lower-case literal [p]. *)
Definition startsWithLower (p s : string) : bool :=
  match matchPrefixCI p s with Some _ => true | None => false end.

(** [re.test(s)] for the unanchored literal [pat] with flag [i]. *)
Fixpoint testCI (pat s : string) : bool :=
  match matchPrefixCI pat s with
  | Some _ => true
  | None => match s with
            | EmptyString => false
            | String _ r => testCI pat r
            end
  end.

(** [s.replace(re, " ")] for the literal [pat] with flags [g] and [i]:
    the scan goes left to right, a match is replaced by one space and the
    scan resumes after it.  [skip] counts the characters of the current
    match that are still to be consumed. *)
Fixpoint replaceGo (pat : string) (skip : nat) (s : string) : string :=
  match s with
  | EmptyString => EmptyString
  | String c r =>
      match skip with
      | S k => replaceGo pat k r
      | O =>
          match matchPrefixCI pat s with
          | Some _ => String " " (replaceGo pat (String.length pat - 1) r)
          | None => String c (replaceGo pat O r)
          end
      end
  end.

Definition replaceAllCI (pat s : string) : string := replaceGo pat O s.

(** [s.replace(/\s+/g, " ")]; [inRun] tells that the previous character
    belonged to a run of white space already replaced. *)
Fixpoint collapseGo (inRun : bool) (s : string) : string :=
  match s with
  | EmptyString => EmptyString
  | String c r =>
      if isWhiteSpace c
      then if inRun then collapseGo true r else String " " (collapseGo true r)
      else String c (collapseGo false r)
  end.

Definition collapseWhiteSpace (s : string) : string := collapseGo false s.

(** [s.indexOf(":")], [None] for [-1]. *)
Fixpoint indexOfColon (s : string) : option nat :=
  match s with
  | EmptyString => None
  | String c r =>
      if Ascii.eqb c ":" then Some O else S <$> indexOfColon r
  end.

Fixpoint sliceFrom (n : nat) (s : string) : string :=
  match n, s with
  | O, _ => s
  | S k, String _ r => sliceFrom k r
  | S _, EmptyString => EmptyString
  end.

Fixpoint sliceTo (n : nat) (s : string) : string :=
  match n, s with
  | S k, String c r => String c (sliceTo k r)
  | _, _ => EmptyString
  end.

(** ** Allow-list normalisation and membership ([monitor.ts], lines 51-71) *)

(** [entry.trim().replace(/^(zulip|user):/i, "").toLowerCase()] *)
Definition normalizeAllowEntry (entry : string) : string :=
  let t := trim entry in
  let stripped :=
    match matchPrefixCI "zulip:" t with
    | Some r => r
    | None => match matchPrefixCI "user:" t with
              | Some r => r
              | None => t
              end
    end in
  toLowerCase stripped.

(** [Array.from(new Set(xs))]: first occurrences, in insertion order. *)
Fixpoint uniq (xs : list string) : list string :=
  match xs with
  | [] => []
  | x :: r => x :: filter (λ y, y ≠ x) (uniq r)
  end.

(** The entries are given after [String(e)]. *)
Definition normalizeAllowList (entries : list string) : list string :=
  uniq (filter (λ e, truthy e = true) (normalizeAllowEntry <$> entries)).

Record Sender := {
  senderId : string;
  senderEmail : string;
  senderName : string;
}.

Definition isSenderAllowed (p : Sender) (allowFrom : list string) : bool :=
  if bool_decide (length allowFrom = 0%nat) then false
  else if bool_decide ("*" ∈ allowFrom) then true
  else
    let idNorm := normalizeAllowEntry (senderId p) in
    let emailNorm :=
      if truthy (senderEmail p) then normalizeAllowEntry (senderEmail p) else "" in
    let nameNorm :=
      if truthy (senderName p) then normalizeAllowEntry (senderName p) else "" in
    existsb (λ e,
      bool_decide (e = idNorm)
      || (truthy emailNorm && bool_decide (e = emailNorm))
      || (truthy nameNorm && bool_decide (e = nameNorm))) allowFrom.

(** ** Mention handling ([monitor.ts], lines 73-86) *)

(** The source of the regular expression: [@\*\*<escaped name>\*\*]. *)
Definition mentionPattern (botName : string) : string := "@**" +:+ botName +:+ "**".

Definition stripMention (text botName : string) : string :=
  if truthy botName
  then trim (collapseWhiteSpace (replaceAllCI (mentionPattern botName) text))
  else trim text.

Definition wasBotMentioned (text botName : string) : bool :=
  if truthy botName then testCI (mentionPattern botName) text else false.

(** ** Deduplication of inbound messages ([monitor.ts], lines 34-49) *)

Definition RECENT_MESSAGE_TTL_MS : Z := 5 * 60000.
Definition RECENT_MAX : nat := 2000.

(** The clean-up loop: every entry of the map is visited once and deleted
    when its age exceeds the time to live. *)
Definition sweepExpired (now : Z) (recentIds : gmap string Z) : gmap string Z :=
  map_fold
    (λ k t acc, if bool_decide (now - t > RECENT_MESSAGE_TTL_MS) then delete k acc else acc)
    recentIds recentIds.

(** [dedupeCheck(key)] with [Date.now() = now]; the second component is the
    module-level map [recentIds] after the call. *)
Definition dedupeCheck (key : string) (now : Z) (recentIds : gmap string Z)
  : bool * gmap string Z :=
  let swept :=
    if bool_decide (RECENT_MAX < size recentIds)%nat
    then sweepExpired now recentIds else recentIds in
  match swept !! key with
  | Some _ => (true, swept)
  | None => (false, <[key := now]> swept)
  end.

(** ** Messages, accounts and the host runtime *)

Inductive MessageType := TypeStream | TypePrivate.

Global Instance MessageType_eq_dec : EqDecision MessageType.
Proof. solve_decision. Defined.

Inductive DisplayRecipient :=
  | RecipientName (name : string)
  | RecipientUsers (users : list (Z * string * string)).

(** [ZulipMessage] of [client.ts]. *)
Record ZulipMessage := {
  msg_id : Z;
  sender_id : Z;
  sender_email : string;
  sender_full_name : string;
  msg_type : MessageType;
  stream_id : option Z;
  display_recipient : DisplayRecipient;
  subject : option string;
  content : string;
  timestamp : Z;
}.

Record ZulipProfile := {
  user_id : Z;
  email : string;
  full_name : string;
}.

Inductive DmPolicy := DmOpen | DmPairing | DmDisabled.

Global Instance DmPolicy_eq_dec : EqDecision DmPolicy.
Proof. solve_decision. Defined.

(** The part of [ZulipAccountConfig] read by the monitor; an absent key is
    [None]. *)
Record ZulipAccountConfig := {
  cfg_dmPolicy : option DmPolicy;
  cfg_allowFrom : option (list string);
  cfg_autoReplyStreams : option (list string);
}.

Record ResolvedZulipAccount := {
  accountId : string;
  serverUrl : option string;
  botEmail : option string;
  apiKey : option string;
  config : ZulipAccountConfig;
  textChunkLimit : option Z;
}.

Inductive ChatType := ChatDirect | ChatChannel.

Record AgentRoute := {
  sessionKey : string;
  mainSessionKey : string;
  routeAccountId : string;
  agentId : string;
}.

Record PairingUpsert := {
  code : string;
  created : bool;
}.

(** The operations of the host runtime ([core]) called on the way from an
    inbound message to the reply dispatcher.  [Store] is the state of the
    host's pairing store. *)
Class Runtime (Store : Type) := {
  (** [core.channel.pairing.readAllowFromStore("zulip")]; [None] when the
      promise rejects. *)
  readAllowFromStore : Store → option (list string);
  (** [core.channel.pairing.upsertPairingRequest], by sender id, name and
      address. *)
  upsertPairingRequest : Store → string → string → string → PairingUpsert * Store;
  (** [core.channel.pairing.buildPairingReply], by id line and code. *)
  buildPairingReply : string → string → string;
  (** [matchesMentionPatterns(text, buildMentionRegexes(cfg))]. *)
  matchesMentionPatterns : string → bool;
  (** [core.channel.routing.resolveAgentRoute], by account, peer kind and
      peer id. *)
  resolveAgentRoute : string → ChatType → string → AgentRoute;
  (** [core.channel.reply.formatInboundEnvelope], by label, time stamp,
      body, chat type, sender name and sender id. *)
  formatInboundEnvelope : string → Z → string → ChatType → string → string → string;
}.

(** The argument of [finalizeInboundContext]. *)
Record InboundContext := {
  Body : string;
  BodyForAgent : string;
  RawBody : string;
  CommandBody : string;
  From : string;
  To : string;
  SessionKey : string;
  AccountId : string;
  ctxChatType : ChatType;
  ConversationLabel : string;
  GroupSubject : option string;
  SenderName : string;
  SenderId : string;
  MessageSid : string;
  Timestamp : Z;
  WasMentioned : option bool;
  CommandAuthorized : bool;
  OriginatingTo : string;
}.

(** Why [handleMessage] returned before building a context. *)
Inductive DropReason :=
  | OwnMessage
  | AlreadySeen
  | NotMentioned
  | StreamSenderNotAllowed
  | DmDisabledByPolicy
  | DmSenderNotAllowed
  | EmptyBody.

Inductive Outcome :=
  | Dropped (why : DropReason)
  | Dispatched (ctx : InboundContext).

(** Calls with an effect outside the function, in program order.  Logging
    and the status sink are left out. *)
Inductive Effect :=
  | CallUpsertPairingRequest (id name email : string)
  | CallSendZulipMessage (to text account : string)
  | CallActivityRecord (account : string)
  | CallEnqueueSystemEvent (text session context : string)
  | CallUpdateLastRoute (session to account : string).

Record StreamInfo := {
  streamName : string;
  topic : string;
}.

Definition resolveStreamInfo (msg : ZulipMessage) : option StreamInfo :=
  match msg_type msg with
  | TypePrivate => None
  | TypeStream =>
      let name := match display_recipient msg with
                  | RecipientName n => n
                  | RecipientUsers _ => ""
                  end in
      Some {| streamName := name; topic := default "(no topic)" (subject msg) |}
  end.

(** ** The message handler ([monitor.ts], lines 118-299) *)

Section Handler.
Context {Store : Type} `{!Runtime Store}.

(** What the handler reads and writes besides its argument: the
    module-level map of recent identifiers and the host's pairing store. *)
Record World := {
  recentIds : gmap string Z;
  store : Store;
}.

Record Handled := {
  world : World;
  effects : list Effect;
  outcome : Outcome;
}.

Definition getEffectiveAllowFrom (configAllowFrom : list string) (st : Store)
  : list string :=
  let storeAllowFrom := normalizeAllowList (default [] (readAllowFromStore st)) in
  uniq (configAllowFrom ++ storeAllowFrom).

Definition senderOf (msg : ZulipMessage) : Sender :=
  {| senderId := pretty (sender_id msg);
     senderEmail := sender_email msg;
     senderName := sender_full_name msg |}.

Definition dedupeKeyOf (account : ResolvedZulipAccount) (msg : ZulipMessage) : string :=
  accountId account +:+ ":" +:+ pretty (msg_id msg).

(** [autoReplyStreams.some(s => s.toLowerCase() === name.toLowerCase())] *)
Definition inAutoReplyStreams (autoReplyStreams : list string) (info : option StreamInfo)
  : bool :=
  match info with
  | None => false
  | Some si =>
      existsb (λ s, bool_decide (toLowerCase s = toLowerCase (streamName si)))
              autoReplyStreams
  end.

(** Lines 199-271: the reply target, the cleaned body and the context of
    an admitted message. *)
Definition replyTarget (isDm : bool) (sid : string) (info : option StreamInfo) : string :=
  if isDm then "dm:" +:+ sid
  else match info with
       | Some si => "stream:" +:+ streamName si +:+ ":" +:+ topic si
       | None => "dm:" +:+ sid
       end.

Definition buildContext (account : ResolvedZulipAccount) (msg : ZulipMessage)
    (bodyText : string) (effectiveAllowFrom : list string) : InboundContext * AgentRoute :=
  let p := senderOf msg in
  let isDm := bool_decide (msg_type msg = TypePrivate) in
  let info := resolveStreamInfo msg in
  let chatType := if isDm then ChatDirect else ChatChannel in
  let to := replyTarget isDm (senderId p) info in
  let nameOr := λ d, default d (streamName <$> info) in
  let fromLabel :=
    if isDm then senderName p +:+ " (" +:+ senderEmail p +:+ ")"
    else senderName p +:+ " in #" +:+ nameOr "unknown" +:+ " > "
           +:+ default "" (topic <$> info) in
  let route := resolveAgentRoute (accountId account) chatType
                 (if isDm then senderId p else nameOr (senderId p)) in
  let body := formatInboundEnvelope fromLabel (timestamp msg * 1000)
                (bodyText +:+ String "010"%char "[zulip message id: " +:+ pretty (msg_id msg) +:+ "]")
                chatType (senderName p) (senderId p) in
  ({| Body := body;
      BodyForAgent := bodyText;
      RawBody := bodyText;
      CommandBody := bodyText;
      From := if isDm then "zulip:" +:+ senderId p
              else "zulip:channel:" +:+ nameOr "unknown";
      To := to;
      SessionKey := sessionKey route;
      AccountId := routeAccountId route;
      ctxChatType := chatType;
      ConversationLabel := fromLabel;
      GroupSubject :=
        if isDm then None
        else Some ("#" +:+ nameOr "undefined" +:+ " > "
                     +:+ default "undefined" (topic <$> info));
      SenderName := senderName p;
      SenderId := senderId p;
      MessageSid := pretty (msg_id msg);
      Timestamp := timestamp msg * 1000;
      WasMentioned := if isDm then None else Some true;
      CommandAuthorized := isDm || isSenderAllowed p effectiveAllowFrom;
      OriginatingTo := to |}, route).

(** [handleMessage(msg)] at time [now], for the account and the profile
    captured when the monitor started. *)
Definition handleMessage (account : ResolvedZulipAccount) (profile : ZulipProfile)
    (now : Z) (msg : ZulipMessage) (w : World) : Handled :=
  let botUserId := user_id profile in
  let botName := full_name profile in
  let dmPolicy := default DmPairing (cfg_dmPolicy (config account)) in
  let configAllowFrom := normalizeAllowList (default [] (cfg_allowFrom (config account))) in
  let autoReplyStreams := default [] (cfg_autoReplyStreams (config account)) in
  if bool_decide (sender_id msg = botUserId)
  then {| world := w; effects := []; outcome := Dropped OwnMessage |}
  else
  let '(seen, ids) := dedupeCheck (dedupeKeyOf account msg) now (recentIds w) in
  let w1 := {| recentIds := ids; store := store w |} in
  let drop := λ why, {| world := w1; effects := []; outcome := Dropped why |} in
  if seen then drop AlreadySeen
  else
  let p := senderOf msg in
  let isDm := bool_decide (msg_type msg = TypePrivate) in
  let streamInfo := resolveStreamInfo msg in
  let rawText := trim (content msg) in
  let inAutoReplyStream := inAutoReplyStreams autoReplyStreams streamInfo in
  if negb isDm && negb inAutoReplyStream
     && negb (wasBotMentioned rawText botName)
     && negb (matchesMentionPatterns rawText)
  then drop NotMentioned
  else
  if negb isDm && inAutoReplyStream
     && (let streamAllowFrom := getEffectiveAllowFrom configAllowFrom (store w1) in
         bool_decide (0 < length streamAllowFrom)%nat
         && negb (isSenderAllowed p streamAllowFrom))
  then drop StreamSenderNotAllowed
  else
  let effectiveAllowFrom := getEffectiveAllowFrom configAllowFrom (store w1) in
  if isDm && bool_decide (dmPolicy = DmDisabled)
  then drop DmDisabledByPolicy
  else
  if isDm && negb (bool_decide (dmPolicy = DmOpen))
     && negb (isSenderAllowed p effectiveAllowFrom)
  then
    match dmPolicy with
    | DmPairing =>
        let '(req, st) :=
          upsertPairingRequest (store w1) (senderId p) (senderName p) (senderEmail p) in
        {| world := {| recentIds := ids; store := st |};
           effects :=
             CallUpsertPairingRequest (senderId p) (senderName p) (senderEmail p)
             :: (if created req
                 then [CallSendZulipMessage ("dm:" +:+ senderId p)
                         (buildPairingReply ("Your Zulip user id: " +:+ senderId p)
                                            (code req))
                         (accountId account)]
                 else []);
           outcome := Dropped DmSenderNotAllowed |}
    | _ => drop DmSenderNotAllowed
    end
  else
  let bodyText := stripMention rawText botName in
  if negb (truthy bodyText) then drop EmptyBody
  else
  let '(ctx, route) := buildContext account msg bodyText effectiveAllowFrom in
  let preview := sliceTo 160 (collapseWhiteSpace bodyText) in
  let inboundLabel :=
    if isDm then "Zulip DM from " +:+ senderName p
    else "Zulip message in #" +:+ default "undefined" (streamName <$> streamInfo)
           +:+ " from " +:+ senderName p in
  {| world := w1;
     effects :=
       [CallActivityRecord (accountId account);
        CallEnqueueSystemEvent (inboundLabel +:+ ": " +:+ preview) (sessionKey route)
          ("zulip:message:" +:+ pretty (msg_id msg))]
       ++ (if isDm
           then [CallUpdateLastRoute (mainSessionKey route) (To ctx) (routeAccountId route)]
           else []);
     outcome := Dispatched ctx |}.

End Handler.

Arguments World : clear implicits.
Arguments Handled : clear implicits.

(** ** The HTTP client ([client.ts], lines 43-88) *)

(** [s.replace(/\/+$/, "")]: the text without the slashes at its end. *)
Fixpoint stripTrailingSlashes (s : string) : string :=
  match s with
  | EmptyString => EmptyString
  | String c r =>
      match stripTrailingSlashes r with
      | EmptyString => if Ascii.eqb c "/" then EmptyString else String c EmptyString
      | r' => String c r'
      end
  end.

(** [normalizeServerUrl(raw)]; [None] is [undefined]. *)
Definition normalizeServerUrl (raw : option string) : option string :=
  match trim <$> raw with
  | Some trimmed => if truthy trimmed then Some (stripTrailingSlashes trimmed) else None
  | None => None
  end.

Inductive ClientError :=
  | ServerUrlRequired
  | BotCredentialsRequired.

Record ZulipClient := {
  client_serverUrl : string;
  client_botEmail : string;
  client_apiKey : string;
  client_authHeader : string;
}.

Fixpoint lastChar (s : string) : option ascii :=
  match s with
  | EmptyString => None
  | String c EmptyString => Some c
  | String _ r => lastChar r
  end.

(** [Buffer.from(s).toString("base64")] for a text in the ASCII range,
    where the bytes of the buffer are the characters of [s]. *)
Definition base64Alphabet : string :=
  "ABCDEFGHIJKLMNOPQRSTUVWXYZabcdefghijklmnopqrstuvwxyz0123456789+/".

Definition base64Digit (n : N) : ascii :=
  default "="%char (String.get (N.to_nat n) base64Alphabet).

Fixpoint base64 (s : string) : string :=
  match s with
  | EmptyString => EmptyString
  | String a EmptyString =>
      let x := N_of_ascii a in
      String (base64Digit (x / 4)) (String (base64Digit (x mod 4 * 16)) "==")
  | String a (String b EmptyString) =>
      let x := N_of_ascii a in
      let y := N_of_ascii b in
      String (base64Digit (x / 4))
        (String (base64Digit (x mod 4 * 16 + y / 16))
           (String (base64Digit (y mod 16 * 4)) "="))
  | String a (String b (String c r)) =>
      let x := N_of_ascii a in
      let y := N_of_ascii b in
      let z := N_of_ascii c in
      String (base64Digit (x / 4))
        (String (base64Digit (x mod 4 * 16 + y / 16))
           (String (base64Digit (y mod 16 * 4 + z / 64))
              (String (base64Digit (z mod 64)) (base64 r))))
  end%N.

(** [createZulipClient(params)] without the [request] closure, whose
    address is [requestUrl]. *)
Definition createZulipClient (serverUrl botEmail apiKey : string)
  : ClientError + ZulipClient :=
  match normalizeServerUrl (Some serverUrl) with
  | None => inl ServerUrlRequired
  | Some url =>
      if negb (truthy url) then inl ServerUrlRequired
      else
        let email := trim botEmail in
        let key := trim apiKey in
        if negb (truthy email) || negb (truthy key) then inl BotCredentialsRequired
        else inr {| client_serverUrl := url;
                    client_botEmail := email;
                    client_apiKey := key;
                    client_authHeader := "Basic " +:+ base64 (email +:+ ":" +:+ key) |}
  end.

(** The address a request for [path] goes to. *)
Definition requestUrl (client : ZulipClient) (path : string) : string :=
  client_serverUrl client +:+ "/api/v1" +:+ path.

(** The client [sendZulipMessage] and the monitor create for an account
    with all three credentials; [None] without them. *)
Definition clientOf (account : ResolvedZulipAccount) : option (ClientError + ZulipClient) :=
  match serverUrl account, botEmail account, apiKey account with
  | Some url, Some email, Some key => Some (createZulipClient url email key)
  | _, _, _ => None
  end.

Definition hasClient (account : ResolvedZulipAccount) : Prop :=
  ∃ client, clientOf account = Some (inr client).

(** ** Sending a message ([send.ts]) *)

Inductive TargetType := ToStream | ToDirect.

Record ZulipTarget := {
  target_type : TargetType;
  target_to : string;
  target_topic : option string;
}.

Inductive SendError :=
  | CredentialsMissing
  (** [createZulipClient] threw *)
  | ClientRejected (e : ClientError)
  | TargetRequired
  | MessageEmpty
  | RequestFailed.

(** [x || "(no topic)"] *)
Definition orNoTopic (s : string) : string :=
  if truthy s then s else "(no topic)".

Section Send.
(** [id ↦ JSON.stringify([Number(id) || id])], the recipient list of a
    direct message. *)
Variable recipientsJson : string → string.

Definition parseZulipTarget (raw : string) : SendError + ZulipTarget :=
  let trimmed := trim raw in
  if negb (truthy trimmed) then inl TargetRequired
  else
    match matchPrefixCI "stream:" trimmed with
    | Some rest =>
        match indexOfColon rest with
        | None =>
            inr {| target_type := ToStream; target_to := rest;
                   target_topic := Some "(no topic)" |}
        | Some colonIdx =>
            inr {| target_type := ToStream; target_to := sliceTo colonIdx rest;
                   target_topic := Some (orNoTopic (sliceFrom (S colonIdx) rest)) |}
        end
    | None =>
        if startsWithLower "dm:" trimmed || startsWithLower "user:" trimmed
        then
          let prefixLen := match indexOfColon trimmed with
                           | Some i => S i
                           | None => O
                           end in
          let id := trim (sliceFrom prefixLen trimmed) in
          inr {| target_type := ToDirect; target_to := recipientsJson id;
                 target_topic := None |}
        else
          inr {| target_type := ToStream; target_to := trimmed;
                 target_topic := Some "(no topic)" |}
    end.

Record WebMedia := {
  fileName : option string;
  contentType : option string;
}.

(** Requests that reach the Zulip server. *)
Inductive Request :=
  | UploadFile (name : string) (type : option string)
  | PostMessage (target : ZulipTarget) (content : string).

(** What the environment answers during one call: the media loader, the
    upload end point and the message end point; [None] is a rejected
    promise. *)
Record SendEnv := {
  loadWebMedia : string → option WebMedia;
  uploadResult : WebMedia → option string;
  postResult : ZulipTarget → string → option Z;
}.

Record SendOpts := {
  opt_accountId : option string;
  opt_mediaUrl : option string;
}.

Record Sent := {
  requests : list Request;
  result : SendError + string;
}.

Definition isHttpUrl (url : string) : bool :=
  startsWithLower "http://" url || startsWithLower "https://" url.

Definition appendLine (content line : string) : string :=
  if truthy content then content +:+ String "010"%char line else line.

(** Lines 78-97: the content after the media step, and the upload
    request when the media was loaded. *)
Definition attachMedia (env : SendEnv) (content : string) (mediaUrl : option string)
  : list Request * string :=
  match trim <$> mediaUrl with
  | None => ([], content)
  | Some url =>
      if negb (truthy url) then ([], content)
      else
        match loadWebMedia env url with
        | None => ([], if isHttpUrl url then appendLine content url else content)
        | Some media =>
            let req := UploadFile (default "upload" (fileName media)) (contentType media) in
            match uploadResult env media with
            | Some uri =>
                ([req], appendLine content
                          ("[" +:+ default "file" (fileName media) +:+ "](" +:+ uri +:+ ")"))
            | None =>
                ([req], if isHttpUrl url then appendLine content url else content)
            end
        end
  end.

(** [sendZulipMessage(to, text, opts)] for the resolved account. *)
Definition sendZulipMessage (account : ResolvedZulipAccount) (env : SendEnv)
    (to text : string) (opts : SendOpts) : Sent :=
  let missing := {| requests := []; result := inl CredentialsMissing |} in
  match serverUrl account, botEmail account, apiKey account with
  | Some url, Some email, Some key =>
      if negb (truthy url) || negb (truthy email) || negb (truthy key) then missing
      else
      match createZulipClient url email key with
      | inl e => {| requests := []; result := inl (ClientRejected e) |}
      | inr _ =>
          match parseZulipTarget to with
          | inl e => {| requests := []; result := inl e |}
          | inr target =>
              let '(uploads, content) :=
                attachMedia env (trim text) (opt_mediaUrl opts) in
              if negb (truthy content)
              then {| requests := uploads; result := inl MessageEmpty |}
              else
                let reqs := uploads ++ [PostMessage target content] in
                match postResult env target content with
                | None => {| requests := reqs; result := inl RequestFailed |}
                | Some id => {| requests := reqs; result := inr (pretty id) |}
                end
          end
      end
  | _, _, _ => missing
  end.

(** The message requests among [rs]. *)
Definition isPostMessage (r : Request) : bool :=
  match r with PostMessage _ _ => true | UploadFile _ _ => false end.

Definition postedMessages (rs : list Request) : list Request :=
  List.filter isPostMessage rs.

End Send.

(** ** The send queue of one dispatch ([monitor.ts], lines 333-359)

    [sendChain] is a chain of promises: [enqueueSend(fn)] appends [fn],
    which starts once everything before it has settled, fulfilled or
    rejected.  A callback walks through the chunks of its payload and
    awaits each [sendZulipMessage]; a rejected send rejects the callback.
    The environment drives the queue: the dispatcher calls [deliver], the
    server settles the request in flight.  Everything the code does between
    two such events is one step. *)

Section SendQueue.
Variable recipientsJson : string → string.
Variable account : ResolvedZulipAccount.
(** The reply target [to] of the message being answered. *)
Variable to : string.
(** [convertMarkdownTables(_, tableMode)] and
    [chunkMarkdownTextWithMode(_, textLimit, chunkMode)] of the runtime. *)
Variable convertMarkdownTables : string → string.
Variable chunkMarkdownTextWithMode : string → list string.

(** A chunk, labelled by the number of the [deliver] call it comes from
    and by its position in the list the callback iterates over. *)
Record Chunk := {
  payload : nat;
  ordinal : nat;
  chunkText : string;
}.

Global Instance Chunk_eq_dec : EqDecision Chunk.
Proof. solve_decision. Defined.

(** The non-empty chunks of the [n]-th payload, in iteration order. *)
Definition chunksOf (n : nat) (payloadText : string) : list Chunk :=
  let text := convertMarkdownTables payloadText in
  let chunks := chunkMarkdownTextWithMode text in
  let iterated := match chunks with [] => [text] | _ => chunks end in
  filter (λ c, truthy (chunkText c) = true)
    (imap (λ i t, {| payload := n; ordinal := i; chunkText := t |}) iterated).

(** Whether [sendZulipMessage(to, chunk, { accountId })] gets as far as
    the message request; the answers of the environment play no part in
    that. *)
Definition reachesTransport (c : Chunk) : bool :=
  let silent := {| loadWebMedia := λ _, None;
                   uploadResult := λ _, None;
                   postResult := λ _ _, None |} in
  let sent := sendZulipMessage recipientsJson account silent to (chunkText c)
                {| opt_accountId := Some (accountId account); opt_mediaUrl := None |} in
  match postedMessages (requests sent) with
  | [] => false
  | _ => true
  end.

Inductive QueueEvent :=
  (** the message request for the chunk was issued *)
  | Submitted (c : Chunk)
  (** that request settled *)
  | Completed (c : Chunk) (ok : bool)
  (** [sendZulipMessage] threw before any request *)
  | Refused (c : Chunk)
  (** the promise [deliver] returned for a payload settled; a rejection
      is what the dispatcher passes to [onError] *)
  | DeliverSettled (n : nat) (ok : bool).

Record SendQueue := {
  (** calls of [deliver] so far *)
  delivered : nat;
  (** the chunk in flight and the chunks its callback still has to send;
      [None] when [sendChain] is settled *)
  current : option (Chunk * list Chunk);
  (** the callbacks chained behind the running one *)
  waiting : list (nat * list Chunk);
  log : list QueueEvent;
}.

Definition emptyQueue : SendQueue :=
  {| delivered := 0; current := None; waiting := []; log := [] |}.

(** Run the chain until a request is in flight or nothing is left. *)
Fixpoint startNext (ws : list (nat * list Chunk)) (lg : list QueueEvent)
  : option (Chunk * list Chunk) * list (nat * list Chunk) * list QueueEvent :=
  match ws with
  | [] => (None, [], lg)
  | (n, []) :: ws' => startNext ws' (lg ++ [DeliverSettled n true])
  | (n, c :: rest) :: ws' =>
      if reachesTransport c
      then (Some (c, rest), ws', lg ++ [Submitted c])
      else startNext ws' (lg ++ [Refused c; DeliverSettled n false])
  end.

Inductive QueueInput :=
  | Deliver (payloadText : string)
  | Settle (ok : bool).

Definition queueStep (q : SendQueue) (i : QueueInput) : SendQueue :=
  match i with
  | Deliver text =>
      let entry := (delivered q, chunksOf (delivered q) text) in
      match current q with
      | Some _ =>
          {| delivered := S (delivered q); current := current q;
             waiting := waiting q ++ [entry]; log := log q |}
      | None =>
          let '(cur, ws, lg) := startNext (waiting q ++ [entry]) (log q) in
          {| delivered := S (delivered q); current := cur; waiting := ws; log := lg |}
      end
  | Settle ok =>
      match current q with
      | None => q
      | Some (c, rest) =>
          let '(cur, ws, lg) :=
            if ok
            then startNext ((payload c, rest) :: waiting q) (log q ++ [Completed c true])
            else startNext (waiting q)
                   (log q ++ [Completed c false; DeliverSettled (payload c) false]) in
          {| delivered := delivered q; current := cur; waiting := ws; log := lg |}
      end
  end.

Definition runFrom (q : SendQueue) (inputs : list QueueInput) : SendQueue :=
  foldl queueStep q inputs.

Definition runQueue (inputs : list QueueInput) : SendQueue :=
  runFrom emptyQueue inputs.

(** The [deliver] calls among the inputs, each with its number and its
    chunks; [n] numbers the next call. *)
Fixpoint payloadsFrom (n : nat) (inputs : list QueueInput) : list (nat * list Chunk) :=
  match inputs with
  | [] => []
  | Deliver text :: r => (n, chunksOf n text) :: payloadsFrom (S n) r
  | Settle _ :: r => payloadsFrom n r
  end.

Definition payloads (inputs : list QueueInput) : list (nat * list Chunk) :=
  payloadsFrom 0 inputs.

Definition chunksIn (ps : list (nat * list Chunk)) : list Chunk := concat ps.*2.

(** The chunks produced by the inputs, in the order of production. *)
Definition produced (inputs : list QueueInput) : list Chunk :=
  chunksIn (payloads inputs).

(** The chunks the queue still intends to send: the rest of the running
    callback, then the callbacks behind it. *)
Definition restOf (cur : option (Chunk * list Chunk)) : list Chunk :=
  match cur with Some (_, rest) => rest | None => [] end.

Definition pendingChunks (q : SendQueue) : list Chunk :=
  restOf (current q) ++ chunksIn (waiting q).

(** The chunks of the call of [deliver] an input stands for. *)
Definition newChunks (q : SendQueue) (i : QueueInput) : list Chunk :=
  match i with
  | Deliver text => chunksOf (delivered q) text
  | Settle _ => []
  end.

(** The chunks handed to [sendZulipMessage]. *)
Definition attempted (lg : list QueueEvent) : list Chunk :=
  omap (λ e, match e with Submitted c | Refused c => Some c | _ => None end) lg.

Definition submitted (lg : list QueueEvent) : list Chunk :=
  omap (λ e, match e with Submitted c => Some c | _ => None end) lg.

(** Reading a log from the left with the request in flight as state:
    a submission needs an idle transport, a completion ends the request
    in flight. *)
Fixpoint inFlightAfter (fl : option Chunk) (lg : list QueueEvent)
  : option (option Chunk) :=
  match lg with
  | [] => Some fl
  | Submitted c :: r =>
      match fl with None => inFlightAfter (Some c) r | Some _ => None end
  | Completed c _ :: r =>
      match fl with
      | Some c' => if bool_decide (c = c') then inFlightAfter None r else None
      | None => None
      end
  | _ :: r => inFlightAfter fl r
  end.

(** Nothing in flight and nothing chained. *)
Definition quiescent (q : SendQueue) : Prop :=
  current q = None ∧ waiting q = [].

End SendQueue.

(** ** Reporting a failed delivery ([monitor.ts], lines 355-357) *)

(** The line [onError(err, info)] hands to [logger.error], for
    [String(err) = err] and [info.kind = kind]; the callback returns
    without throwing. *)
Definition onError (err kind : string) : string :=
  "zulip " +:+ kind +:+ " reply failed: " +:+ err.

(** Modelled from the spec: the reply dispatcher of the host SDK
    ([createReplyDispatcherWithTyping], which is not part of the
    sources) calls the [onError] it was given when the promise [deliver]
    returned for a payload rejects, and goes on ("a delivery failure for
    one chunk is logged", "not escalated to the Event Loop").  [errorOf n]
    is the text of the error the promise of payload [n] rejected with,
    [kindOf n] the kind of that payload; the result is what the dispatch
    wrote to the error log, in order. *)
Definition errorLog (errorOf kindOf : nat → string) (lg : list QueueEvent)
  : list string :=
  omap (λ e, match e with
             | DeliverSettled n false => Some (onError (errorOf n) (kindOf n))
             | _ => None
             end) lg.

(** ** The long-polling loop ([monitor.ts], lines 375-411) *)

Record ZulipEvent := {
  ev_type : string;
  ev_id : Z;
  ev_message : option ZulipMessage;
}.

Record ZulipEventQueueRegistration := {
  queue_id : string;
  last_event_id : Z;
}.

Definition INITIAL_BACKOFF_MS : Z := 1000.
Definition MAX_BACKOFF_MS : Z := 30000.

Section Loop.
Context {W : Type}.
(** [await handleMessage(msg)] inside its [try]: the state it leaves and
    whether it threw. *)
Variable handle : ZulipMessage → W → W * bool.

Inductive LoopEvent :=
  | StatusConnected
  | StatusDisconnected
  | Polled (queue : string) (lastEventId : Z)
  | HandlerReturned (msg : ZulipMessage)
  | HandlerThrew (msg : ZulipMessage)
  | Slept (ms : Z).

Record LoopState := {
  backoffMs : Z;
  loopWorld : W;
  trace : list LoopEvent;
}.

Definition startLoop (w : W) : LoopState :=
  {| backoffMs := INITIAL_BACKOFF_MS; loopWorld := w; trace := [] |}.

(** The [for] loop over one batch of events. *)
Fixpoint handleEvents (events : list ZulipEvent) (lastEventId : Z) (st : LoopState)
  : Z * LoopState :=
  match events with
  | [] => (lastEventId, st)
  | ev :: r =>
      let lastEventId' := if bool_decide (ev_id ev > lastEventId) then ev_id ev
                          else lastEventId in
      let st' :=
        match ev_message ev with
        | Some msg =>
            if bool_decide (ev_type ev = "message")
            then
              let '(w, threw) := handle msg (loopWorld st) in
              {| backoffMs := backoffMs st; loopWorld := w;
                 trace := trace st ++ [if threw then HandlerThrew msg
                                       else HandlerReturned msg] |}
            else st
        | None => st
        end in
      handleEvents r lastEventId' st'
  end.

(** The polls that return, one batch each. *)
Fixpoint pollBatches (queue : string) (batches : list (list ZulipEvent))
    (lastEventId : Z) (st : LoopState) : Z * LoopState :=
  match batches with
  | [] => (lastEventId, st)
  | events :: r =>
      let st1 := {| backoffMs := backoffMs st; loopWorld := loopWorld st;
                    trace := trace st ++ [Polled queue lastEventId] |} in
      let '(lastEventId', st2) := handleEvents events lastEventId st1 in
      pollBatches queue r lastEventId' st2
  end.

(** The [catch] block when the signal is not aborted. *)
Definition backOff (st : LoopState) : LoopState :=
  {| backoffMs := Z.min (backoffMs st * 2) MAX_BACKOFF_MS;
     loopWorld := loopWorld st;
     trace := trace st ++ [StatusDisconnected; Slept (backoffMs st)] |}.

(** After a registration: status update, reset of the delay, polls. *)
Definition connected (reg : ZulipEventQueueRegistration)
    (batches : list (list ZulipEvent)) (st : LoopState) : Z * LoopState :=
  pollBatches (queue_id reg) batches (last_event_id reg)
    {| backoffMs := INITIAL_BACKOFF_MS; loopWorld := loopWorld st;
       trace := trace st ++ [StatusConnected] |}.

(** One iteration of the outer loop that ends in the [catch] block. *)
Inductive Attempt :=
  (** [registerZulipEventQueue] rejects *)
  | RegisterThrows
  (** the registration succeeds, the polls of [batches] return, the next
      poll rejects *)
  | Registered (reg : ZulipEventQueueRegistration) (batches : list (list ZulipEvent)).

Definition attempt (st : LoopState) (a : Attempt) : LoopState :=
  match a with
  | RegisterThrows => backOff st
  | Registered reg batches =>
      let '(lastEventId, st') := connected reg batches st in
      backOff {| backoffMs := backoffMs st'; loopWorld := loopWorld st';
                 trace := trace st' ++ [Polled (queue_id reg) lastEventId] |}
  end.

(** How the loop ends once the abort signal is set. *)
Inductive Ending :=
  (** seen by the [while] condition of the outer loop *)
  | AbortedAtLoopHead
  (** the registration rejects and the [catch] block returns *)
  | AbortedWhileRegistering
  (** after a registration and the polls of [batches] the condition of
      the inner loop fails *)
  | AbortedBetweenPolls (reg : ZulipEventQueueRegistration)
      (batches : list (list ZulipEvent))
  (** after a registration and the polls of [batches] the next poll
      rejects and the [catch] block returns *)
  | AbortedWhilePolling (reg : ZulipEventQueueRegistration)
      (batches : list (list ZulipEvent)).

Definition finish (st : LoopState) (e : Ending) : LoopState :=
  match e with
  | AbortedAtLoopHead | AbortedWhileRegistering => st
  | AbortedBetweenPolls reg batches => (connected reg batches st).2
  | AbortedWhilePolling reg batches =>
      let '(lastEventId, st') := connected reg batches st in
      {| backoffMs := backoffMs st'; loopWorld := loopWorld st';
         trace := trace st' ++ [Polled (queue_id reg) lastEventId] |}
  end.

(** The loop of [monitorZulipProvider] for a run in which the iterations
    of [attempts] fail one after the other. *)
Definition runAttempts (attempts : list Attempt) (st : LoopState) : LoopState :=
  foldl attempt st attempts.

Definition monitorLoop (attempts : list Attempt) (e : Ending) (w : W) : LoopState :=
  finish (runAttempts attempts (startLoop w)) e.

(** The messages of the events of a batch that reach the handler. *)
Definition messagesOf (events : list ZulipEvent) : list ZulipMessage :=
  omap (λ ev, if bool_decide (ev_type ev = "message") then ev_message ev else None)
       events.

Definition delays (tr : list LoopEvent) : list Z :=
  omap (λ e, match e with Slept ms => Some ms | _ => None end) tr.

Definition handled (tr : list LoopEvent) : list ZulipMessage :=
  omap (λ e, match e with
             | HandlerReturned m | HandlerThrew m => Some m
             | _ => None
             end) tr.

End Loop.

(** The delay before the retry that follows [i] failures in a row. *)
Definition backoffAfter (i : nat) : Z :=
  Z.min (INITIAL_BACKOFF_MS * 2 ^ Z.of_nat i) MAX_BACKOFF_MS.

(** ** Vocabulary of the statements *)

(** The message got past the policy checks of [handleMessage]: what is
    left is the check that the cleaned body is not empty. *)
Definition passedPolicy (o : Outcome) : bool :=
  match o with
  | Dispatched _ | Dropped EmptyBody => true
  | Dropped _ => false
  end.

(** The sender matches an allow-list: a wildcard entry, or an entry equal
    to the normalised id, address or display name. *)
Definition matchesAllowList (p : Sender) (allowFrom : list string) : Prop :=
  "*" ∈ allowFrom
  ∨ normalizeAllowEntry (senderId p) ∈ allowFrom
  ∨ normalizeAllowEntry (senderEmail p) ∈ allowFrom
  ∨ normalizeAllowEntry (senderName p) ∈ allowFrom.

(** Two senders that differ by the case of their letters only. *)
Definition sameUpToCase (p q : Sender) : Prop :=
  toLowerCase (senderId p) = toLowerCase (senderId q)
  ∧ toLowerCase (senderEmail p) = toLowerCase (senderEmail q)
  ∧ toLowerCase (senderName p) = toLowerCase (senderName q).

(** The allow-list the handler computes for an account and a store. *)
Definition effectiveAllowFromOf `{Runtime Store}
    (account : ResolvedZulipAccount) (st : Store) : list string :=
  getEffectiveAllowFrom
    (normalizeAllowList (default [] (cfg_allowFrom (config account)))) st.

Definition dmPolicyOf (account : ResolvedZulipAccount) : DmPolicy :=
  default DmPairing (cfg_dmPolicy (config account)).

(** The channel of a stream message is one of the auto-reply channels of
    the account, names compared without regard to case. *)
Definition inAutoReplySet (account : ResolvedZulipAccount) (msg : ZulipMessage) : Prop :=
  ∃ s si, s ∈ default [] (cfg_autoReplyStreams (config account))
          ∧ resolveStreamInfo msg = Some si
          ∧ toLowerCase s = toLowerCase (streamName si).

(** The message is neither the bot's own nor one already recorded. *)
Definition fresh `{Runtime Store} (account : ResolvedZulipAccount) (profile : ZulipProfile)
    (now : Z) (msg : ZulipMessage) (w : World Store) : Prop :=
  sender_id msg ≠ user_id profile
  ∧ (dedupeCheck (dedupeKeyOf account msg) now (recentIds w)).1 = false.

(** The calls of [sendZulipMessage] among the effects. *)
Definition sendCalls (es : list Effect) : list Effect :=
  List.filter (λ e, match e with CallSendZulipMessage _ _ _ => true | _ => false end) es.

(** The reply with the pairing instructions for the sender of [msg], with
    the code [c]. *)
Definition pairingReply `{Runtime Store} (account : ResolvedZulipAccount)
    (msg : ZulipMessage) (c : string) : Effect :=
  let sid := pretty (sender_id msg) in
  CallSendZulipMessage ("dm:" +:+ sid)
    (buildPairingReply ("Your Zulip user id: " +:+ sid) c) (accountId account).

(** The media of a call was loaded and uploaded. *)
Definition mediaResolved (env : SendEnv) (opts : SendOpts) : bool :=
  match trim <$> opt_mediaUrl opts with
  | Some url =>
      truthy url
      && match loadWebMedia env url with
         | Some media => bool_decide (is_Some (uploadResult env media))
         | None => false
         end
  | None => false
  end.

(** The media address of a call starts with [http://] or [https://]. *)
Definition mediaUrlIsHttp (opts : SendOpts) : bool :=
  match trim <$> opt_mediaUrl opts with
  | Some url => isHttpUrl url
  | None => false
  end.

Definition isRejected (s : Sent) : bool :=
  match result s with inl _ => true | inr _ => false end.

(** A series of dedup checks, each with its key and its time. *)
Definition runChecks (calls : list (string * Z)) (recentIds : gmap string Z)
  : gmap string Z :=
  foldl (λ m '(k, t), (dedupeCheck k t m).2) recentIds calls.

(** No white space but single blanks between other characters. *)
Fixpoint singleSpacedFrom (afterBlank : bool) (s : string) : bool :=
  match s with
  | EmptyString => negb afterBlank
  | String c r =>
      if isWhiteSpace c
      then Ascii.eqb c " " && negb afterBlank && singleSpacedFrom true r
      else singleSpacedFrom false r
  end.

Definition singleSpaced (s : string) : bool := singleSpacedFrom true s.

(** Modelled from the spec: [upsertPairingRequest] belongs to the host and
    is not part of the repository.  Sections 4.2 and 7 (d) ask that it
    registers a request idempotently, keyed by sender id: a request is
    reported as created exactly when none is pending for the id, and a
    repeated request adds no entry.  [pending st] lists the sender ids of
    the request records of the store. *)
Class IdempotentPairing `{Runtime Store} (pending : Store → list string) := {
  upsert_created st id name email :
    created (upsertPairingRequest st id name email).1 = bool_decide (id ∉ pending st);
  upsert_pending st id name email :
    pending (upsertPairingRequest st id name email).2
    = if bool_decide (id ∈ pending st) then pending st else pending st ++ [id];
}.

(** ** A host for closed examples *)

(** Modelled from the spec: the pairing store of the host
    ([readAllowFromStore], [upsertPairingRequest]) is not part of the
    repository.  Section 4.2 asks for a request that is registered
    idempotently, keyed by sender id, without duplicate pending entries;
    the store keeps the approved entries and the pending requests with
    their codes. *)
Record PairingStore := {
  approved : list string;
  pendingRequests : list (string * string);
}.

Definition samplePending (st : PairingStore) : list string := (pendingRequests st).*1.

Definition sampleUpsert (st : PairingStore) (id name email : string)
  : PairingUpsert * PairingStore :=
  match list_find (λ r, r.1 = id) (pendingRequests st) with
  | Some (_, r) => ({| code := r.2; created := false |}, st)
  | None =>
      let c := "ZP" +:+ pretty (length (pendingRequests st)) in
      ({| code := c; created := true |},
       {| approved := approved st; pendingRequests := pendingRequests st ++ [(id, c)] |})
  end.

Global Instance sampleRuntime : Runtime PairingStore := {|
  readAllowFromStore st := Some (approved st);
  upsertPairingRequest := sampleUpsert;
  buildPairingReply idLine c := idLine +:+ String "010"%char "Pairing code: " +:+ c;
  matchesMentionPatterns _ := false;
  resolveAgentRoute acct kind peer :=
    {| sessionKey := "agent:main:zulip:" +:+ peer;
       mainSessionKey := "agent:main:main";
       routeAccountId := acct;
       agentId := "main" |};
  formatInboundEnvelope label ts body kind name sid := "[" +:+ label +:+ "] " +:+ body;
|}.

Definition sampleAccount (policy : DmPolicy) (allow autoReply : list string)
  : ResolvedZulipAccount :=
  {| accountId := "default";
     serverUrl := Some "https://chat.example.org";
     botEmail := Some "bot@example.org";
     apiKey := Some "secret";
     config := {| cfg_dmPolicy := Some policy;
                  cfg_allowFrom := Some allow;
                  cfg_autoReplyStreams := Some autoReply |};
     textChunkLimit := None |}.

Definition sampleProfile : ZulipProfile :=
  {| user_id := 1; email := "bot@example.org"; full_name := "Bot" |}.

Definition sampleDm (mid sid : Z) (text : string) : ZulipMessage :=
  {| msg_id := mid; sender_id := sid; sender_email := "ann@example.org";
     sender_full_name := "Ann"; msg_type := TypePrivate; stream_id := None;
     display_recipient := RecipientUsers []; subject := None;
     content := text; timestamp := 1700000000 |}.

Definition sampleStreamMessage (mid sid : Z) (channel text : string) : ZulipMessage :=
  {| msg_id := mid; sender_id := sid; sender_email := "ann@example.org";
     sender_full_name := "Ann"; msg_type := TypeStream; stream_id := Some 7;
     display_recipient := RecipientName channel; subject := Some "chat";
     content := text; timestamp := 1700000000 |}.

Definition emptyWorld : World PairingStore :=
  {| recentIds := ∅; store := {| approved := []; pendingRequests := [] |} |}.

Definition sampleEnv (loads uploads posts : bool) : SendEnv :=
  {| loadWebMedia _ := if loads then Some {| fileName := Some "a.png"; contentType := None |}
                       else None;
     uploadResult _ := if uploads then Some "/user_uploads/1/a.png" else None;
     postResult _ _ := if posts then Some 99 else None |}.

Definition isDigitChar (c : ascii) : bool :=
  let n := nat_of_ascii c in (48 <=? n)%nat && (n <=? 57)%nat.

(** The number written by the decimal digits of [s], after [acc]. *)
Fixpoint digitsValue (acc : N) (s : string) : option N :=
  match s with
  | EmptyString => Some acc
  | String c r =>
      if isDigitChar c then digitsValue (acc * 10 + (N_of_ascii c - 48)) r else None
  end%N.

(** [JSON.stringify([Number(id) || id])] for an [id] made of decimal
    digits that write a number below 2^53 (zero and the empty text are
    falsy, so that the text itself is kept), and for an [id] that is no
    numeric literal and needs no escaping in JSON. *)
Definition sampleRecipientsJson (id : string) : string :=
  match digitsValue 0 id with
  | Some (N.pos n) => "[" +:+ pretty (N.pos n) +:+ "]"
  | _ => "[" +:+ String "034"%char id +:+ String "034"%char "]"
  end.

(** ** Further vocabulary *)

(** White space occurs only as single blanks; the text may start or end
    with one. *)
Fixpoint blankSeparatedFrom (afterBlank : bool) (s : string) : bool :=
  match s with
  | EmptyString => true
  | String c r =>
      if isWhiteSpace c
      then Ascii.eqb c " " && negb afterBlank && blankSeparatedFrom true r
      else blankSeparatedFrom false r
  end.

(** Every character of [s] satisfies [f]. *)
Fixpoint allChars (f : ascii → bool) (s : string) : bool :=
  match s with
  | EmptyString => true
  | String c r => f c && allChars f r
  end.

(** The text is in the ASCII range, where the string primitives of the
    embedding are those of JavaScript. *)
Definition isAsciiChar (c : ascii) : bool := (nat_of_ascii c <? 128)%nat.

Definition isAscii (s : string) : bool := allChars isAsciiChar s.

(** The characters of the decimal numeral of an integer. *)
Definition isNumeralChar (c : ascii) : bool :=
  let n := nat_of_ascii c in
  ((48 <=? n)%nat && (n <=? 57)%nat) || (n =? 45)%nat.

(** ** Accounts ([accounts.ts]) *)

Inductive GroupPolicy := GroupOpen | GroupAllowlist | GroupDisabled.

(** [ZulipAccountConfig] as written in the configuration, with the key
    [autoReplyStreams] the monitor reads besides; an absent key is [None]. *)
Record RawAccountConfig := {
  raw_enabled : option bool;
  raw_name : option string;
  raw_serverUrl : option string;
  raw_botEmail : option string;
  raw_apiKey : option string;
  raw_dmPolicy : option DmPolicy;
  raw_allowFrom : option (list string);
  raw_groupPolicy : option GroupPolicy;
  raw_groupAllowFrom : option (list string);
  raw_requireMention : option bool;
  raw_textChunkLimit : option Z;
  raw_blockStreaming : option bool;
  raw_blockStreamingCoalesce : option (option Z * option Z);
  raw_autoReplyStreams : option (list string);
}.

Definition emptyAccountConfig : RawAccountConfig :=
  {| raw_enabled := None; raw_name := None; raw_serverUrl := None;
     raw_botEmail := None; raw_apiKey := None; raw_dmPolicy := None;
     raw_allowFrom := None; raw_groupPolicy := None; raw_groupAllowFrom := None;
     raw_requireMention := None; raw_textChunkLimit := None;
     raw_blockStreaming := None; raw_blockStreamingCoalesce := None;
     raw_autoReplyStreams := None |}.

(** [cfg.channels.zulip]: the keys of the section itself and the accounts
    under [accounts], in the order of [Object.keys]. *)
Record ZulipSection := {
  section_base : RawAccountConfig;
  section_accounts : option (list (string * RawAccountConfig));
}.

(** A key of the later object of a spread wins when it is there. *)
Definition orElse {A} (later earlier : option A) : option A :=
  match later with Some _ => later | None => earlier end.

(** [{ ...base, ...account }] *)
Definition spread (base account : RawAccountConfig) : RawAccountConfig :=
  {| raw_enabled := orElse (raw_enabled account) (raw_enabled base);
     raw_name := orElse (raw_name account) (raw_name base);
     raw_serverUrl := orElse (raw_serverUrl account) (raw_serverUrl base);
     raw_botEmail := orElse (raw_botEmail account) (raw_botEmail base);
     raw_apiKey := orElse (raw_apiKey account) (raw_apiKey base);
     raw_dmPolicy := orElse (raw_dmPolicy account) (raw_dmPolicy base);
     raw_allowFrom := orElse (raw_allowFrom account) (raw_allowFrom base);
     raw_groupPolicy := orElse (raw_groupPolicy account) (raw_groupPolicy base);
     raw_groupAllowFrom := orElse (raw_groupAllowFrom account) (raw_groupAllowFrom base);
     raw_requireMention := orElse (raw_requireMention account) (raw_requireMention base);
     raw_textChunkLimit := orElse (raw_textChunkLimit account) (raw_textChunkLimit base);
     raw_blockStreaming := orElse (raw_blockStreaming account) (raw_blockStreaming base);
     raw_blockStreamingCoalesce :=
       orElse (raw_blockStreamingCoalesce account) (raw_blockStreamingCoalesce base);
     raw_autoReplyStreams :=
       orElse (raw_autoReplyStreams account) (raw_autoReplyStreams base) |}.

(** [accounts?.[accountId]] *)
Definition accountEntry (accounts : option (list (string * RawAccountConfig)))
    (accountId : string) : option RawAccountConfig :=
  accounts ≫= λ entries, snd <$> (snd <$> list_find (λ kv, kv.1 = accountId) entries).

Definition mergeZulipAccountConfig (section : option ZulipSection) (accountId : string)
  : RawAccountConfig :=
  match section with
  | None => emptyAccountConfig
  | Some s =>
      spread (section_base s)
             (default emptyAccountConfig (accountEntry (section_accounts s) accountId))
  end.

(** [x?.trim() || undefined] *)
Definition trimmedOrUndefined (x : option string) : option string :=
  match trim <$> x with
  | Some t => if truthy t then Some t else None
  | None => None
  end.

(** [x !== false] *)
Definition notFalse (x : option bool) : bool :=
  match x with Some false => false | _ => true end.

(** The fields of [ResolvedZulipAccount] the monitor and the sender do not
    read, beside those they read. *)
Record ResolvedAccount := {
  resolved : ResolvedZulipAccount;
  resolved_enabled : bool;
  resolved_name : option string;
  resolved_requireMention : option bool;
  resolved_blockStreaming : option bool;
  resolved_blockStreamingCoalesce : option (option Z * option Z);
  resolved_merged : RawAccountConfig;
}.

Section Accounts.
(** [DEFAULT_ACCOUNT_ID] and [normalizeAccountId] of the plugin SDK, and
    [ids.toSorted((a, b) => a.localeCompare(b))]. *)
Variable DEFAULT_ACCOUNT_ID : string.
Variable normalizeAccountId : option string → string.
Variable sortByLocale : list string → list string.

Definition listZulipAccountIds (section : option ZulipSection) : list string :=
  match section ≫= section_accounts with
  | None => [DEFAULT_ACCOUNT_ID]
  | Some accounts =>
      let ids := filter (λ k, truthy k = true) accounts.*1 in
      if bool_decide (0 < length ids)%nat then sortByLocale ids else [DEFAULT_ACCOUNT_ID]
  end.

Definition resolveDefaultZulipAccountId (section : option ZulipSection) : string :=
  let ids := listZulipAccountIds section in
  if bool_decide (DEFAULT_ACCOUNT_ID ∈ ids) then DEFAULT_ACCOUNT_ID
  else default DEFAULT_ACCOUNT_ID (head ids).

Definition resolveZulipAccount (section : option ZulipSection) (accountId : option string)
  : ResolvedAccount :=
  let id := normalizeAccountId accountId in
  let baseEnabled := notFalse (section ≫= λ s, raw_enabled (section_base s)) in
  let merged := mergeZulipAccountConfig section id in
  let accountEnabled := notFalse (raw_enabled merged) in
  {| resolved :=
       {| accountId := id;
          serverUrl := trimmedOrUndefined (raw_serverUrl merged);
          botEmail := trimmedOrUndefined (raw_botEmail merged);
          apiKey := trimmedOrUndefined (raw_apiKey merged);
          config := {| cfg_dmPolicy := raw_dmPolicy merged;
                       cfg_allowFrom := raw_allowFrom merged;
                       cfg_autoReplyStreams := raw_autoReplyStreams merged |};
          textChunkLimit := raw_textChunkLimit merged |};
     resolved_enabled := baseEnabled && accountEnabled;
     resolved_name := trimmedOrUndefined (raw_name merged);
     resolved_requireMention := raw_requireMention merged;
     resolved_blockStreaming := raw_blockStreaming merged;
     resolved_blockStreamingCoalesce := raw_blockStreamingCoalesce merged;
     resolved_merged := merged |}.
End Accounts.

(** ** The channel plugin ([channel.ts]) *)

(** [config.formatAllowFrom]; the file has a copy of
    [normalizeAllowEntry]. *)
Definition formatAllowFrom (allowFrom : list string) : list string :=
  filter (λ e, truthy e = true) (normalizeAllowEntry <$> allowFrom).

(** [Boolean(account.serverUrl && account.botEmail && account.apiKey)] *)
Definition isConfigured (account : ResolvedZulipAccount) : bool :=
  truthy (default "" (serverUrl account))
  && truthy (default "" (botEmail account))
  && truthy (default "" (apiKey account)).

(** [outbound.resolveTarget({ to })]: the trimmed target, or [None] for the
    error. *)
Definition resolveTarget (to : option string) : option string :=
  match trim <$> to with
  | Some trimmed => if truthy trimmed then Some trimmed else None
  | None => None
  end.

(** [security.resolveDmPolicy]: the policy and the allow-list reported for
    an account. *)
Definition resolveDmPolicy (account : ResolvedZulipAccount) : DmPolicy * list string :=
  (default DmPairing (cfg_dmPolicy (config account)),
   default [] (cfg_allowFrom (config account))).


(** ** The message request ([client.ts], lines 129-148) *)

Definition typeName (t : TargetType) : string :=
  match t with ToStream => "stream" | ToDirect => "direct" end.

(** The fields [sendZulipApiMessage] sets in the form of the request, in
    the order they are set; the keys differ, so that no [set] replaces an
    earlier one. *)
Definition messageForm (target : ZulipTarget) (content : string) : list (string * string) :=
  [("type", typeName (target_type target)); ("to", target_to target)]
  ++ match target_topic target with
     | Some t => if truthy t then [("topic", t)] else []
     | None => []
     end
  ++ [("content", content)].

(** ** Vocabulary for the long-polling loop *)

(** The polls in a trace: the queue and the [last_event_id] of each. *)
Definition polled (tr : list LoopEvent) : list (string * Z) :=
  omap (λ e, match e with Polled q l => Some (q, l) | _ => None end) tr.

(** The batches of events the polls of an iteration returned. *)
Definition attemptBatches (a : Attempt) : list (list ZulipEvent) :=
  match a with RegisterThrows => [] | Registered _ batches => batches end.

Definition endingBatches (e : Ending) : list (list ZulipEvent) :=
  match e with
  | AbortedAtLoopHead | AbortedWhileRegistering => []
  | AbortedBetweenPolls _ batches | AbortedWhilePolling _ batches => batches
  end.

(** Every event the server returned in a run of the loop, in the order of
    arrival. *)
Definition received (attempts : list Attempt) (e : Ending) : list ZulipEvent :=
  concat (concat (attemptBatches <$> attempts)) ++ concat (endingBatches e).

(** ** Vocabulary for the send queue *)

(** The payloads whose [deliver] promise has settled, in the order of
    settling. *)
Definition settledPayloads (lg : list QueueEvent) : list nat :=
  omap (λ e, match e with DeliverSettled n _ => Some n | _ => None end) lg.

(** The payload of the running callback. *)
Definition runningPayload (cur : option (Chunk * list Chunk)) : list nat :=
  match cur with Some (c, _) => [payload c] | None => [] end.

(** Each waiting callback holds chunks of its own payload. *)
Definition labelled (ws : list (nat * list Chunk)) : Prop :=
  ∀ n cs c, (n, cs) ∈ ws → c ∈ cs → payload c = n.

(** The invariant of the queue: the settled payloads, the running one
    and the waiting ones are the payloads delivered, in their order. *)
Definition inOrder (q : SendQueue) : Prop :=
  settledPayloads (log q) ++ runningPayload (current q) ++ (waiting q).*1
  = seq 0 (delivered q)
  ∧ labelled (waiting q)
  ∧ ∀ c rest, current q = Some (c, rest) → ∀ c', c' ∈ rest → payload c' = payload c.

(** * Properties *)

(** ** Strings *)

Example normalizeAllowEntry_ex :
  normalizeAllowEntry "  User:Alice@Example.COM " = "alice@example.com".
Proof. reflexivity. Qed.

Example stripMention_ex :
  stripMention "@**Bot**  hello   @**bot** there" "Bot" = "hello there".
Proof. reflexivity. Qed.

Example wasBotMentioned_ex : wasBotMentioned "hi @**BOT**" "Bot" = true.
Proof. reflexivity. Qed.

Example base64_ex :
  base64 "Man" = "TWFu" ∧ base64 "Ma" = "TWE=" ∧ base64 "M" = "TQ=="
  ∧ base64 "bot@example.org:secret" = "Ym90QGV4YW1wbGUub3JnOnNlY3JldA==".
Proof. by vm_compute. Qed.

Example sampleRecipientsJson_ex :
  sampleRecipientsJson "42" = "[42]"
  ∧ sampleRecipientsJson "007" = "[7]"
  ∧ sampleRecipientsJson "0" = "[" +:+ String "034"%char "0" +:+ String "034"%char "]"
  ∧ sampleRecipientsJson "bob"
    = "[" +:+ String "034"%char "bob" +:+ String "034"%char "]".
Proof. by vm_compute. Qed.

Example normalizeAllowList_ex :
  normalizeAllowList ["zulip:42"; " "; "Bob"; "42"; "*"] = ["42"; "bob"; "*"].
Proof. vm_compute. reflexivity. Qed.

Lemma lowerChar_idemp c : lowerChar (lowerChar c) = lowerChar c.
Proof. destruct c as [[] [] [] [] [] [] [] []]; reflexivity. Qed.

Lemma isWhiteSpace_lowerChar c : isWhiteSpace (lowerChar c) = isWhiteSpace c.
Proof. destruct c as [[] [] [] [] [] [] [] []]; reflexivity. Qed.

Lemma toLowerCase_idemp s : toLowerCase (toLowerCase s) = toLowerCase s.
Proof. induction s as [|c s IH]; simpl; [done|]. by rewrite lowerChar_idemp, IH. Qed.

Lemma truthy_toLowerCase s : truthy (toLowerCase s) = truthy s.
Proof. by destruct s. Qed.

Lemma truthy_false s : truthy s = false ↔ s = "".
Proof. destruct s; simpl; split; congruence. Qed.

Lemma truthy_true s : truthy s = true ↔ s ≠ "".
Proof. destruct s; simpl; split; congruence. Qed.

Lemma trimStart_toLowerCase s : trimStart (toLowerCase s) = toLowerCase (trimStart s).
Proof.
  induction s as [|c s IH]; simpl; [done|].
  rewrite isWhiteSpace_lowerChar. by destruct (isWhiteSpace c).
Qed.

Lemma trimEnd_toLowerCase s : trimEnd (toLowerCase s) = toLowerCase (trimEnd s).
Proof.
  induction s as [|c s IH]; simpl; [done|].
  rewrite IH, isWhiteSpace_lowerChar.
  destruct (trimEnd s); simpl; [|done]. by destruct (isWhiteSpace c).
Qed.

Lemma trim_toLowerCase s : trim (toLowerCase s) = toLowerCase (trim s).
Proof. unfold trim. by rewrite trimStart_toLowerCase, trimEnd_toLowerCase. Qed.

Lemma matchPrefixCI_toLowerCase pat s :
  matchPrefixCI pat (toLowerCase s) = toLowerCase <$> matchPrefixCI pat s.
Proof.
  revert s. induction pat as [|p pat IH]; intros s; simpl; [done|].
  destruct s as [|c s]; simpl; [done|].
  rewrite lowerChar_idemp. destruct (Ascii.eqb _ _); [apply IH|done].
Qed.

Lemma normalizeAllowEntry_toLowerCase s :
  normalizeAllowEntry (toLowerCase s) = normalizeAllowEntry s.
Proof.
  unfold normalizeAllowEntry.
  rewrite trim_toLowerCase, !matchPrefixCI_toLowerCase.
  generalize (matchPrefixCI "zulip:" (trim s)) (matchPrefixCI "user:" (trim s)).
  intros [r1|] [r2|]; cbn [fmap option_fmap option_map]; apply toLowerCase_idemp.
Qed.

(** Normalisation does not see the case of the letters. *)
Lemma normalizeAllowEntry_case a b :
  toLowerCase a = toLowerCase b → normalizeAllowEntry a = normalizeAllowEntry b.
Proof.
  intros E.
  rewrite <- (normalizeAllowEntry_toLowerCase a), <- (normalizeAllowEntry_toLowerCase b).
  by rewrite E.
Qed.

Lemma trimStart_idemp s : trimStart (trimStart s) = trimStart s.
Proof.
  induction s as [|c s IH]; simpl; [done|].
  destruct (isWhiteSpace c) eqn:E; [done|]. simpl. by rewrite E.
Qed.

Lemma trimEnd_idemp s : trimEnd (trimEnd s) = trimEnd s.
Proof.
  induction s as [|c s IH]; simpl; [done|].
  destruct (trimEnd s) as [|d r] eqn:E.
  - destruct (isWhiteSpace c) eqn:Ec; simpl; [done|]. by rewrite Ec.
  - change (trimEnd (String c (String d r)) = String c (String d r)).
    simpl in IH |- *. destruct (trimEnd r); by rewrite IH.
Qed.

(** A string that starts with no white space keeps that under [trimEnd]. *)
Lemma trimStart_trimEnd s : trimStart s = s → trimStart (trimEnd s) = trimEnd s.
Proof.
  destruct s as [|c s]; simpl; [done|].
  destruct (isWhiteSpace c) eqn:E.
  - intros H. exfalso.
    assert (L : ∀ t, (String.length (trimStart t) ≤ String.length t)%nat).
    { clear. induction t as [|d t IH]; simpl; [lia|].
      destruct (isWhiteSpace d); simpl; lia. }
    specialize (L s). rewrite H in L. simpl in L. lia.
  - intros _. destruct (trimEnd s); simpl; by rewrite E.
Qed.

Lemma trim_idemp s : trim (trim s) = trim s.
Proof.
  unfold trim. rewrite trimStart_trimEnd by apply trimStart_idemp.
  apply trimEnd_idemp.
Qed.

(** ** Allow-lists *)

Lemma elem_of_uniq x l : x ∈ uniq l ↔ x ∈ l.
Proof.
  induction l as [|a l IH]; simpl; [done|].
  rewrite !elem_of_cons, list_elem_of_filter, IH.
  destruct (decide (x = a)); naive_solver.
Qed.

Lemma elem_of_normalizeAllowList x l :
  x ∈ normalizeAllowList l ↔ x ≠ "" ∧ ∃ e, e ∈ l ∧ normalizeAllowEntry e = x.
Proof.
  unfold normalizeAllowList.
  rewrite elem_of_uniq, list_elem_of_filter, list_elem_of_fmap, truthy_true.
  naive_solver.
Qed.

(** The effective allow-list is the union of the normalised entries of the
    configuration and of the store, without the empty ones. *)
Lemma elem_of_effectiveAllowFrom `{Runtime Store} account (st : Store) x :
  x ∈ effectiveAllowFromOf account st ↔
  x ≠ "" ∧ ∃ e, (e ∈ default [] (cfg_allowFrom (config account))
                 ∨ e ∈ default [] (readAllowFromStore st))
                ∧ normalizeAllowEntry e = x.
Proof.
  unfold effectiveAllowFromOf, getEffectiveAllowFrom.
  rewrite elem_of_uniq, elem_of_app, !elem_of_normalizeAllowList. naive_solver.
Qed.

Lemma effectiveAllowFrom_no_empty `{Runtime Store} account (st : Store) :
  "" ∉ effectiveAllowFromOf account st.
Proof. rewrite elem_of_effectiveAllowFrom. naive_solver. Qed.

Lemma isSenderAllowed_true p allowFrom :
  "" ∉ allowFrom →
  isSenderAllowed p allowFrom = true ↔ matchesAllowList p allowFrom.
Proof.
  intros Hne. unfold isSenderAllowed, matchesAllowList.
  case_bool_decide as Hlen.
  { destruct allowFrom; [|done]. split; [done|].
    rewrite !elem_of_nil. naive_solver. }
  case_bool_decide as Hstar; [naive_solver|].
  assert (G : ∀ s, (if truthy s then normalizeAllowEntry s else "") ∈ allowFrom
                   ↔ normalizeAllowEntry s ∈ allowFrom).
  { intros s. destruct s; [|done]. split; [done|]. intros []%Hne. }
  rewrite existsb_exists. setoid_rewrite <- list_elem_of_In.
  rewrite <- (G (senderEmail p)), <- (G (senderName p)).
  split.
  - intros (e & He & Hm).
    rewrite !orb_true_iff, !andb_true_iff, !bool_decide_eq_true in Hm.
    naive_solver.
  - intros [?|[Hi|[He|Hn]]]; [done| | |].
    + eexists; split; [exact Hi|]. by rewrite bool_decide_eq_true_2.
    + eexists; split; [exact He|].
      rewrite (bool_decide_eq_true_2 (_ = if truthy (senderEmail p) then _ else _)) by done.
      assert (truthy (if truthy (senderEmail p)
                      then normalizeAllowEntry (senderEmail p) else "") = true) as ->.
      { apply truthy_true. intros E. rewrite E in He. by apply Hne. }
      by rewrite orb_true_r.
    + eexists; split; [exact Hn|].
      rewrite (bool_decide_eq_true_2 (_ = if truthy (senderName p) then _ else _)) by done.
      assert (truthy (if truthy (senderName p)
                      then normalizeAllowEntry (senderName p) else "") = true) as ->.
      { apply truthy_true. intros E. rewrite E in Hn. by apply Hne. }
      by rewrite orb_true_r.
Qed.

(** The membership test does not see the case of the sender's id, address
    and name. *)
Lemma isSenderAllowed_case p q allowFrom :
  sameUpToCase p q → isSenderAllowed p allowFrom = isSenderAllowed q allowFrom.
Proof.
  intros (Hi & He & Hn). unfold isSenderAllowed.
  rewrite (normalizeAllowEntry_case _ _ Hi), (normalizeAllowEntry_case _ _ He),
    (normalizeAllowEntry_case _ _ Hn).
  assert (truthy (senderEmail p) = truthy (senderEmail q)) as ->.
  { by rewrite <- truthy_toLowerCase, He, truthy_toLowerCase. }
  assert (truthy (senderName p) = truthy (senderName q)) as ->.
  { by rewrite <- truthy_toLowerCase, Hn, truthy_toLowerCase. }
  done.
Qed.

(** ** The policy checks of the handler *)

Ltac case_drop why :=
  match goal with
  | |- context [if ?b then {| world := _; effects := _; outcome := Dropped why |} else _] =>
      destruct b eqn:?
  end.

Ltac case_pairing :=
  match goal with
  | |- context [if ?b then _ else if negb (truthy _) then _ else _] => destruct b eqn:?
  end.

Section HandlerProperties.
Context `{Runtime Store}.
Implicit Types (account : ResolvedZulipAccount) (profile : ZulipProfile).
Implicit Types (msg : ZulipMessage) (w : World Store).

(** A message that got past the policy checks is handed on exactly when
    its cleaned body is not empty. *)
Lemma handleMessage_passed account profile now msg w :
  let r := handleMessage account profile now msg w in
  let body := stripMention (trim (content msg)) (full_name profile) in
  passedPolicy (outcome r) = true →
  outcome r =
    if truthy body
    then Dispatched
           (buildContext account msg body (effectiveAllowFromOf account (store w))).1
    else Dropped EmptyBody.
Proof.
  unfold handleMessage, effectiveAllowFromOf. cbv zeta.
  case_bool_decide; [done|].
  destruct (dedupeCheck _ _ _) as [[] ids]; [done|].
  cbn [store].
  case_drop NotMentioned; [done|].
  case_drop StreamSenderNotAllowed; [done|].
  case_drop DmDisabledByPolicy; [done|].
  case_pairing.
  { destruct (default DmPairing _); try done.
    by destruct (upsertPairingRequest _ _ _ _). }
  destruct (truthy _); [|done]. cbn [negb].
  by destruct (buildContext _ _ _ _).
Qed.

Lemma dm_handled account profile now msg w :
  msg_type msg = TypePrivate →
  fresh account profile now msg w →
  let r := handleMessage account profile now msg w in
  let allowed := isSenderAllowed (senderOf msg) (effectiveAllowFromOf account (store w)) in
  match dmPolicyOf account with
  | DmDisabled => outcome r = Dropped DmDisabledByPolicy ∧ effects r = []
  | DmOpen => passedPolicy (outcome r) = true
  | DmPairing =>
      if allowed then passedPolicy (outcome r) = true
      else outcome r = Dropped DmSenderNotAllowed
  end.
Proof.
  intros Htype [Hself Hdup].
  unfold handleMessage, effectiveAllowFromOf, dmPolicyOf in *. cbv zeta.
  rewrite bool_decide_eq_false_2 by done.
  destruct (dedupeCheck _ _ _) as [seen ids]. simpl in Hdup. subst seen.
  rewrite Htype, (bool_decide_eq_true_2 (TypePrivate = TypePrivate)) by done.
  cbn [negb andb store].
  destruct (default DmPairing _) eqn:Hpol.
  - rewrite (bool_decide_eq_false_2 (DmOpen = DmDisabled)) by done.
    rewrite (bool_decide_eq_true_2 (DmOpen = DmOpen)) by done.
    cbn [negb andb].
    destruct (truthy _); cbn [negb]; [|done]. by destruct (buildContext _ _ _ _).
  - rewrite (bool_decide_eq_false_2 (DmPairing = DmDisabled)) by done.
    rewrite (bool_decide_eq_false_2 (DmPairing = DmOpen)) by done.
    cbn [negb andb].
    destruct (isSenderAllowed _ _); cbn [negb].
    + destruct (truthy _); cbn [negb]; [|done]. by destruct (buildContext _ _ _ _).
    + by destruct (upsertPairingRequest _ _ _ _).
  - by rewrite (bool_decide_eq_true_2 (DmDisabled = DmDisabled)) by done.
Qed.

Lemma inAutoReplyStreams_true account msg :
  inAutoReplyStreams (default [] (cfg_autoReplyStreams (config account)))
    (resolveStreamInfo msg) = true
  ↔ inAutoReplySet account msg.
Proof.
  unfold inAutoReplyStreams, inAutoReplySet.
  destruct (resolveStreamInfo msg) as [si|].
  - rewrite existsb_exists. setoid_rewrite <- list_elem_of_In.
    setoid_rewrite bool_decide_eq_true. naive_solver.
  - naive_solver.
Qed.

(** C1.  A direct message that is neither the bot's own nor a duplicate:
    under policy [disabled] it is dropped and nothing is sent or
    recorded; under [open] it passes the policy; under [pairing] it
    passes exactly when the sender matches the effective allow-list, by
    wildcard or by normalised id, address or display name, whatever the
    case of the letters, and is dropped as a non-turn otherwise.  A
    message that passed is handed to reply generation as a direct
    conversation, provided its cleaned body is not empty. *)
Theorem dm_policy_decision account profile now msg w :
  msg_type msg = TypePrivate →
  fresh account profile now msg w →
  let r := handleMessage account profile now msg w in
  let p := senderOf msg in
  let allowFrom := effectiveAllowFromOf account (store w) in
  let body := stripMention (trim (content msg)) (full_name profile) in
  match dmPolicyOf account with
  | DmDisabled => outcome r = Dropped DmDisabledByPolicy ∧ effects r = []
  | DmOpen => passedPolicy (outcome r) = true
  | DmPairing =>
      (passedPolicy (outcome r) = true ↔ matchesAllowList p allowFrom)
      ∧ (¬ matchesAllowList p allowFrom → outcome r = Dropped DmSenderNotAllowed)
      ∧ (∀ q, sameUpToCase p q →
              matchesAllowList q allowFrom ↔ matchesAllowList p allowFrom)
  end
  ∧ (passedPolicy (outcome r) = true → truthy body = true →
     ∃ ctx, outcome r = Dispatched ctx ∧ ctxChatType ctx = ChatDirect
            ∧ BodyForAgent ctx = body).
Proof.
  intros Htype Hfresh r p allowFrom body. split.
  - pose proof (dm_handled account profile now msg w Htype Hfresh) as Hd.
    cbv zeta in Hd. fold r p allowFrom in Hd.
    pose proof (effectiveAllowFrom_no_empty account (store w)) as Hne.
    fold allowFrom in Hne.
    destruct (dmPolicyOf account); [done| |done].
    pose proof (isSenderAllowed_true p allowFrom Hne) as Hspec.
    split_and!.
    + destruct (isSenderAllowed p allowFrom).
      * split; [intros _; by apply Hspec|done].
      * rewrite Hd. split; [done|]. intros Hm%Hspec. done.
    + intros Hm. destruct (isSenderAllowed p allowFrom); [|done].
      destruct Hm. by apply Hspec.
    + intros q Hq.
      rewrite <- (isSenderAllowed_true q allowFrom Hne), <- Hspec.
      by rewrite (isSenderAllowed_case p q allowFrom Hq).
  - intros Hp Hb.
    pose proof (handleMessage_passed account profile now msg w Hp) as Ho.
    fold r body in Ho. rewrite Hb in Ho. eexists. split; [exact Ho|].
    unfold buildContext. cbn. by rewrite Htype.
Qed.

(** The policy checks on a stream message, in the order of the code. *)
Lemma stream_handled account profile now msg w :
  msg_type msg = TypeStream →
  fresh account profile now msg w →
  let r := handleMessage account profile now msg w in
  let text := trim (content msg) in
  let allowFrom := effectiveAllowFromOf account (store w) in
  if inAutoReplyStreams (default [] (cfg_autoReplyStreams (config account)))
       (resolveStreamInfo msg)
  then if bool_decide (0 < length allowFrom)%nat
          && negb (isSenderAllowed (senderOf msg) allowFrom)
       then outcome r = Dropped StreamSenderNotAllowed ∧ effects r = []
       else passedPolicy (outcome r) = true
  else if wasBotMentioned text (full_name profile) || matchesMentionPatterns text
       then passedPolicy (outcome r) = true
       else outcome r = Dropped NotMentioned ∧ effects r = [].
Proof.
  intros Htype [Hself Hdup].
  unfold handleMessage, effectiveAllowFromOf in *. cbv zeta.
  rewrite (bool_decide_eq_false_2 (sender_id msg = user_id profile)) by done.
  destruct (dedupeCheck _ _ _) as [seen ids]. simpl in Hdup. subst seen.
  rewrite Htype, (bool_decide_eq_false_2 (TypeStream = TypePrivate)) by done.
  cbn [negb andb store].
  destruct (inAutoReplyStreams _ _); cbn [negb andb].
  - destruct (bool_decide _ && negb _); [done|].
    destruct (truthy _); cbn [negb]; [|done]. by destruct (buildContext _ _ _ _).
  - destruct (wasBotMentioned _ _); cbn [negb andb orb].
    + destruct (truthy _); cbn [negb]; [|done]. by destruct (buildContext _ _ _ _).
    + destruct (matchesMentionPatterns _); cbn [negb]; [|done].
      destruct (truthy _); cbn [negb]; [|done]. by destruct (buildContext _ _ _ _).
Qed.

(** A message dropped for another reason than the sender of a direct
    message not being allowed leaves no effect. *)
Lemma handleMessage_dropped_silent account profile now msg w why :
  outcome (handleMessage account profile now msg w) = Dropped why →
  why ≠ DmSenderNotAllowed →
  effects (handleMessage account profile now msg w) = [].
Proof.
  unfold handleMessage. cbv zeta.
  case_bool_decide; [done|].
  destruct (dedupeCheck _ _ _) as [[] ids]; [done|]. cbn [store].
  case_drop NotMentioned; [done|].
  case_drop StreamSenderNotAllowed; [done|].
  case_drop DmDisabledByPolicy; [done|].
  case_pairing.
  { destruct (default DmPairing _); try done.
    destruct (upsertPairingRequest _ _ _ _). cbn [outcome]. by intros [= <-]. }
  destruct (truthy _); [|done]. cbn [negb].
  by destruct (buildContext _ _ _ _).
Qed.

(** C2.  A stream message that is neither the bot's own nor a
    duplicate.  Outside the auto-reply channels it passes the policy
    exactly when the bot is mentioned by its display name or a
    configured mention pattern matches, and is dropped without any
    effect otherwise.  In an auto-reply channel no mention is asked
    for: it passes when the effective allow-list is empty, and with a
    non-empty allow-list exactly when the sender matches it; otherwise
    it is dropped without any effect.  A message that passed is handed
    to reply generation as a channel conversation, with its cleaned
    body, when that body is not empty; with an empty cleaned body it is
    dropped without any effect. *)
Theorem stream_policy_decision account profile now msg w :
  msg_type msg = TypeStream →
  fresh account profile now msg w →
  let r := handleMessage account profile now msg w in
  let text := trim (content msg) in
  let allowFrom := effectiveAllowFromOf account (store w) in
  let body := stripMention text (full_name profile) in
  (¬ inAutoReplySet account msg →
     (passedPolicy (outcome r) = true
      ↔ wasBotMentioned text (full_name profile) = true
        ∨ matchesMentionPatterns text = true)
     ∧ (passedPolicy (outcome r) = false →
        outcome r = Dropped NotMentioned ∧ effects r = []))
  ∧ (inAutoReplySet account msg →
     (passedPolicy (outcome r) = true
      ↔ allowFrom = [] ∨ matchesAllowList (senderOf msg) allowFrom)
     ∧ (passedPolicy (outcome r) = false →
        outcome r = Dropped StreamSenderNotAllowed ∧ effects r = []))
  ∧ (passedPolicy (outcome r) = true →
     if truthy body
     then ∃ ctx, outcome r = Dispatched ctx ∧ ctxChatType ctx = ChatChannel
                 ∧ BodyForAgent ctx = body ∧ WasMentioned ctx = Some true
     else outcome r = Dropped EmptyBody ∧ effects r = []).
Proof.
  intros Htype Hfresh r text allowFrom body. apply and_assoc. split; [|clear Hfresh].
  2:{ intros Hp.
      pose proof (handleMessage_passed account profile now msg w Hp) as Ho.
      fold r text body in Ho. destruct (truthy body).
      - eexists. split; [exact Ho|]. unfold buildContext. cbn. by rewrite Htype.
      - split; [exact Ho|]. by apply (handleMessage_dropped_silent _ _ _ _ _ EmptyBody). }
  pose proof (stream_handled account profile now msg w Htype Hfresh) as Hs.
  cbv zeta in Hs. fold r text allowFrom in Hs.
  pose proof (effectiveAllowFrom_no_empty account (store w)) as Hne.
  pose proof (isSenderAllowed_true (senderOf msg) _ Hne) as Hspec.
  fold allowFrom in Hspec.
  pose proof (inAutoReplyStreams_true account msg) as Hauto.
  destruct (inAutoReplyStreams _ _).
  - split; [intros []; by apply Hauto|]. intros _.
    destruct allowFrom as [|a l].
    + cbn [length] in Hs. rewrite bool_decide_eq_false_2 in Hs by lia.
      cbn [andb] in Hs. rewrite Hs. split; [|done]. split; [by left|done].
    + cbn [length] in Hs. rewrite bool_decide_eq_true_2 in Hs by lia.
      cbn [andb] in Hs. destruct (isSenderAllowed _ _); cbn [negb] in Hs.
      * rewrite Hs. split; [|done]. split; [|done]. intros _. right. by apply Hspec.
      * destruct Hs as [Ho He]. rewrite Ho. split; [|done]. split; [done|].
        intros [?|Hm%Hspec]; done.
  - split; [|intros Hin%Hauto; done]. intros _.
    destruct (wasBotMentioned _ _); cbn [orb] in Hs.
    + rewrite Hs. split; [|done]. split; [by left|done].
    + destruct (matchesMentionPatterns _).
      * rewrite Hs. split; [|done]. split; [by right|done].
      * destruct Hs as [Ho He]. rewrite Ho. split; [|done]. split; [done|].
        intros [?|?]; done.
Qed.

(** C9.  In the context handed to reply generation the command
    authorisation flag is set for every direct message, and for a stream
    message it is the result of the membership test on the effective
    allow-list, the test that gates the auto-reply channels: the flag is
    set exactly when the sender matches that list. *)
Theorem command_authorized account profile now msg w ctx :
  outcome (handleMessage account profile now msg w) = Dispatched ctx →
  let allowFrom := effectiveAllowFromOf account (store w) in
  match msg_type msg with
  | TypePrivate => CommandAuthorized ctx = true
  | TypeStream =>
      CommandAuthorized ctx = isSenderAllowed (senderOf msg) allowFrom
      ∧ (CommandAuthorized ctx = true ↔ matchesAllowList (senderOf msg) allowFrom)
  end.
Proof.
  intros Ho allowFrom.
  pose proof (handleMessage_passed account profile now msg w) as Hp.
  cbv zeta in Hp. rewrite Ho in Hp. specialize (Hp eq_refl).
  destruct (truthy _); [|done]. injection Hp as ->.
  unfold buildContext. cbn [fst CommandAuthorized].
  destruct (msg_type msg).
  - rewrite (bool_decide_eq_false_2 (TypeStream = TypePrivate)) by done.
    cbn [orb]. split; [done|].
    apply isSenderAllowed_true, effectiveAllowFrom_no_empty.
  - by rewrite (bool_decide_eq_true_2 (TypePrivate = TypePrivate)) by done.
Qed.

End HandlerProperties.

(** ** Pairing requests *)

Section Pairing.
Context `{Runtime Store} (pending : Store → list string) `{!IdempotentPairing pending}.
Implicit Types (account : ResolvedZulipAccount) (profile : ZulipProfile).
Implicit Types (msg : ZulipMessage) (w : World Store).

Lemma pairing_branch account profile now msg w :
  dmPolicyOf account = DmPairing →
  msg_type msg = TypePrivate →
  fresh account profile now msg w →
  ¬ matchesAllowList (senderOf msg) (effectiveAllowFromOf account (store w)) →
  let r := handleMessage account profile now msg w in
  let up := upsertPairingRequest (store w) (pretty (sender_id msg))
              (sender_full_name msg) (sender_email msg) in
  outcome r = Dropped DmSenderNotAllowed
  ∧ store (world r) = up.2
  ∧ sendCalls (effects r)
    = if created up.1 then [pairingReply account msg (code up.1)] else [].
Proof.
  intros Hpol Htype [Hself Hdup] Hno.
  rewrite <- isSenderAllowed_true in Hno by apply effectiveAllowFrom_no_empty.
  apply not_true_is_false in Hno.
  unfold handleMessage, effectiveAllowFromOf, dmPolicyOf, pairingReply in *. cbv zeta.
  rewrite bool_decide_eq_false_2 by done.
  destruct (dedupeCheck _ _ _) as [seen ids]. simpl in Hdup. subst seen.
  rewrite Htype, (bool_decide_eq_true_2 (TypePrivate = TypePrivate)) by done.
  cbn [negb andb store]. rewrite Hpol, Hno.
  rewrite (bool_decide_eq_false_2 (DmPairing = DmDisabled)) by done.
  rewrite (bool_decide_eq_false_2 (DmPairing = DmOpen)) by done.
  cbn [negb andb senderId senderName senderEmail senderOf].
  destruct (upsertPairingRequest _ _ _ _) as [req st].
  cbn [outcome world store effects fst snd]. split_and!; [done..|].
  by destruct (created req).
Qed.

(** C3.  Policy [pairing], a sender that is not allow-listed and has no
    request pending.  The first direct message creates one request
    record for the sender and calls [sendZulipMessage] once, with the
    pairing instructions built from the code of that request.  A further
    direct message of the sender, handled while the request is pending
    and the sender still not allow-listed, leaves the request records as
    they are and sends nothing.  Both messages are dropped, and a reply
    is sent only when the upsert reports the request as created. *)
Theorem pairing_request_once account profile now1 now2 msg1 msg2 w1 w2 :
  dmPolicyOf account = DmPairing →
  msg_type msg1 = TypePrivate →
  msg_type msg2 = TypePrivate →
  sender_id msg2 = sender_id msg1 →
  fresh account profile now1 msg1 w1 →
  fresh account profile now2 msg2 w2 →
  ¬ matchesAllowList (senderOf msg1) (effectiveAllowFromOf account (store w1)) →
  ¬ matchesAllowList (senderOf msg2) (effectiveAllowFromOf account (store w2)) →
  let sid := pretty (sender_id msg1) in
  let r1 := handleMessage account profile now1 msg1 w1 in
  let r2 := handleMessage account profile now2 msg2 w2 in
  let up1 := upsertPairingRequest (store w1) sid (sender_full_name msg1)
               (sender_email msg1) in
  let up2 := upsertPairingRequest (store w2) sid (sender_full_name msg2)
               (sender_email msg2) in
  sid ∉ pending (store w1) →
  sid ∈ pending (store w2) →
  (pending (store (world r1)) = pending (store w1) ++ [sid]
   ∧ sendCalls (effects r1) = [pairingReply account msg1 (code up1.1)]
   ∧ outcome r1 = Dropped DmSenderNotAllowed
   ∧ sid ∈ pending (store (world r1)))
  ∧ (pending (store (world r2)) = pending (store w2)
     ∧ sendCalls (effects r2) = []
     ∧ outcome r2 = Dropped DmSenderNotAllowed)
  ∧ (sendCalls (effects r1) ≠ [] ↔ created up1.1 = true)
  ∧ (sendCalls (effects r2) ≠ [] ↔ created up2.1 = true).
Proof.
  intros Hpol Ht1 Ht2 Hsid Hf1 Hf2 Hn1 Hn2 sid r1 r2 up1 up2 Hnew Hold.
  destruct (pairing_branch account profile now1 msg1 w1 Hpol Ht1 Hf1 Hn1)
    as (Ho1 & Hs1 & He1).
  destruct (pairing_branch account profile now2 msg2 w2 Hpol Ht2 Hf2 Hn2)
    as (Ho2 & Hs2 & He2).
  rewrite Hsid in Hs2, He2. fold sid r1 up1 in Ho1, Hs1, He1.
  fold sid r2 up2 in Ho2, Hs2, He2.
  assert (Hc1 : created up1.1 = true).
  { unfold up1. rewrite upsert_created. by apply bool_decide_eq_true_2. }
  assert (Hc2 : created up2.1 = false).
  { unfold up2. rewrite upsert_created. apply bool_decide_eq_false_2. tauto. }
  assert (Hp1 : pending (store (world r1)) = pending (store w1) ++ [sid]).
  { rewrite Hs1. unfold up1. rewrite upsert_pending.
    by rewrite bool_decide_eq_false_2. }
  assert (Hp2 : pending (store (world r2)) = pending (store w2)).
  { rewrite Hs2. unfold up2. rewrite upsert_pending.
    by rewrite bool_decide_eq_true_2. }
  rewrite Hc1 in He1. rewrite Hc2 in He2.
  split_and!; try done.
  - rewrite Hp1. set_solver.
  - by rewrite He1, Hc1.
  - by rewrite He2, Hc2.
Qed.
End Pairing.

(** The sample store registers requests idempotently. *)
Global Instance sample_idempotent : IdempotentPairing samplePending.
Proof.
  split; intros st id name email; cbn [upsertPairingRequest sampleRuntime];
    unfold sampleUpsert, samplePending.
  - destruct (list_find _ _) as [[i r]|] eqn:Hf; cbn [fst created].
    + apply list_find_Some in Hf as (Hi & Hr & _). symmetry.
      apply bool_decide_eq_false_2. intros Hn. apply Hn.
      apply list_elem_of_fmap. exists r. split; [done|].
      by eapply list_elem_of_lookup_2.
    + symmetry. apply bool_decide_eq_true_2.
      intros (r & -> & Hr)%list_elem_of_fmap.
      eapply list_find_None in Hf. rewrite Forall_forall in Hf. by apply (Hf r).
  - destruct (list_find _ _) as [[i r]|] eqn:Hf; cbn [snd pendingRequests].
    + apply list_find_Some in Hf as (Hi & Hr & _).
      rewrite bool_decide_eq_true_2; [done|].
      apply list_elem_of_fmap. exists r. split; [done|].
      by eapply list_elem_of_lookup_2.
    + rewrite bool_decide_eq_false_2.
      * by rewrite fmap_app.
      * intros (r & -> & Hr)%list_elem_of_fmap.
        eapply list_find_None in Hf. rewrite Forall_forall in Hf. by apply (Hf r).
Qed.

(** ** The dedup cache *)

Lemma sweep_fold_lookup (now : Z) (b m : gmap string Z) (k : string) :
  map_fold (λ k t acc, if bool_decide (now - t > RECENT_MESSAGE_TTL_MS) then delete k acc else acc) b m !! k
  = match m !! k with
    | Some t => if bool_decide (now - t > RECENT_MESSAGE_TTL_MS) then None else b !! k
    | None => b !! k
    end.
Proof.
  revert k. apply (map_fold_weak_ind (λ r m', ∀ k, r !! k = match m' !! k with
    | Some t => if bool_decide (now - t > RECENT_MESSAGE_TTL_MS) then None else b !! k
    | None => b !! k
    end)); clear m.
  - intros k. by rewrite lookup_empty.
  - intros i x m r Hi IH k. destruct (decide (k = i)) as [->|Hne].
    + rewrite lookup_insert_eq. case_bool_decide.
      * apply lookup_delete_eq.
      * by rewrite IH, Hi.
    + rewrite lookup_insert_ne by done. case_bool_decide.
      * rewrite lookup_delete_ne by done. apply IH.
      * apply IH.
Qed.

(** The clean-up removes the entries older than the time to live and no
    other. *)
Lemma sweepExpired_lookup (now : Z) (m : gmap string Z) (k : string) :
  sweepExpired now m !! k
  = match m !! k with
    | Some t => if bool_decide (now - t > RECENT_MESSAGE_TTL_MS) then None else Some t
    | None => None
    end.
Proof.
  unfold sweepExpired. rewrite (sweep_fold_lookup now m m k).
  destruct (m !! k) eqn:E; [|done]. by case_bool_decide.
Qed.

Lemma dedupeCheck_first (key : string) (now : Z) (m : gmap string Z) :
  m !! key = None →
  (dedupeCheck key now m).1 = false ∧ (dedupeCheck key now m).2 !! key = Some now.
Proof.
  intros Hk. unfold dedupeCheck.
  assert ((if bool_decide (RECENT_MAX < size m)%nat
           then sweepExpired now m else m) !! key = None) as ->.
  { case_bool_decide; [|done]. by rewrite sweepExpired_lookup, Hk. }
  cbn [fst snd]. by rewrite lookup_insert_eq.
Qed.

Lemma dedupeCheck_seen (key : string) (now : Z) (m : gmap string Z) (t : Z) :
  m !! key = Some t → (now - t ≤ RECENT_MESSAGE_TTL_MS)%Z →
  (dedupeCheck key now m).1 = true.
Proof.
  intros Hk Ht. unfold dedupeCheck.
  assert ((if bool_decide (RECENT_MAX < size m)%nat
           then sweepExpired now m else m) !! key = Some t) as ->; [|done].
  case_bool_decide; [|done]. rewrite sweepExpired_lookup, Hk.
  rewrite bool_decide_eq_false_2; [done|]. lia.
Qed.

(** A check leaves every recorded key that is still within the window. *)
Lemma dedupeCheck_keeps (key : string) (now : Z) (m : gmap string Z) (k : string) (t : Z) :
  m !! k = Some t → (now - t ≤ RECENT_MESSAGE_TTL_MS)%Z →
  (dedupeCheck key now m).2 !! k = Some t.
Proof.
  intros Hk Ht. unfold dedupeCheck.
  set (swept := if bool_decide (RECENT_MAX < size m)%nat
                then sweepExpired now m else m).
  assert (Hs : swept !! k = Some t).
  { unfold swept. case_bool_decide; [|done]. rewrite sweepExpired_lookup, Hk.
    rewrite bool_decide_eq_false_2; [done|]. lia. }
  destruct (swept !! key) eqn:E; cbn [snd]; [done|].
  rewrite lookup_insert_ne; [done|]. intros ->. congruence.
Qed.

Lemma runChecks_keeps calls (m : gmap string Z) (k : string) (t : Z) :
  m !! k = Some t →
  Forall (λ c, (c.2 - t ≤ RECENT_MESSAGE_TTL_MS)%Z) calls →
  runChecks calls m !! k = Some t.
Proof.
  intros Hk Hall. revert m Hk.
  induction Hall as [|[k' t'] calls Ht _ IH]; intros m Hk; [done|].
  unfold runChecks in *. cbn [foldl]. apply IH.
  by apply dedupeCheck_keeps.
Qed.

(** What a check does to the other keys: nothing while the map holds at
    most [RECENT_MAX] entries, the clean-up beyond that. *)
Lemma dedupeCheck_others (key : string) (now : Z) (m : gmap string Z) (k : string) :
  k ≠ key →
  (dedupeCheck key now m).2 !! k
  = if bool_decide (RECENT_MAX < size m)%nat
    then match m !! k with
         | Some t => if bool_decide (now - t > RECENT_MESSAGE_TTL_MS) then None else Some t
         | None => None
         end
    else m !! k.
Proof.
  intros Hne. unfold dedupeCheck.
  set (swept := if bool_decide (RECENT_MAX < size m)%nat
                then sweepExpired now m else m).
  assert (Hs : (dedupeCheck key now m).2 !! k = swept !! k).
  { unfold dedupeCheck. fold swept.
    destruct (swept !! key); cbn [snd]; [done|]. by rewrite lookup_insert_ne. }
  unfold dedupeCheck in Hs. fold swept in Hs. rewrite Hs. unfold swept.
  case_bool_decide; [apply sweepExpired_lookup|done].
Qed.

Section DedupInHandler.
Context `{Runtime Store}.

Lemma handleMessage_recentIds account profile now msg (w : World Store) :
  sender_id msg ≠ user_id profile →
  recentIds (world (handleMessage account profile now msg w))
  = (dedupeCheck (dedupeKeyOf account msg) now (recentIds w)).2.
Proof.
  intros Hself. unfold handleMessage. cbv zeta.
  rewrite bool_decide_eq_false_2 by done.
  destruct (dedupeCheck _ _ _) as [[] ids]; [done|]. cbn [snd store].
  case_drop NotMentioned; [done|].
  case_drop StreamSenderNotAllowed; [done|].
  case_drop DmDisabledByPolicy; [done|].
  case_pairing.
  { destruct (default DmPairing _); try done.
    by destruct (upsertPairingRequest _ _ _ _). }
  destruct (truthy _); [|done]. cbn [negb].
  by destruct (buildContext _ _ _ _).
Qed.

Lemma handleMessage_seen account profile now msg (w : World Store) :
  sender_id msg ≠ user_id profile →
  (outcome (handleMessage account profile now msg w) = Dropped AlreadySeen
   ↔ (dedupeCheck (dedupeKeyOf account msg) now (recentIds w)).1 = true).
Proof.
  intros Hself. unfold handleMessage. cbv zeta.
  rewrite bool_decide_eq_false_2 by done.
  destruct (dedupeCheck _ _ _) as [[] ids]; [done|]. cbn [fst store].
  case_drop NotMentioned; [done|].
  case_drop StreamSenderNotAllowed; [done|].
  case_drop DmDisabledByPolicy; [done|].
  case_pairing.
  { destruct (default DmPairing _); try done.
    by destruct (upsertPairingRequest _ _ _ _). }
  destruct (truthy _); [|done]. cbn [negb].
  by destruct (buildContext _ _ _ _).
Qed.

(** C6.  The first check of the key made of an account and a message
    identifier records the key with the time of the check and answers
    "not seen"; a check of the same key answers "already seen" as long as
    it and the checks in between happen within the time to live, and the
    handler then drops the message as a duplicate.  A check cleans up
    only when the map holds more than 2000 entries, and the clean-up
    removes the entries older than the time to live and no other. *)
Theorem dedupe_within_ttl account profile msg msg' (t1 t2 : Z)
    (between : list (string * Z)) (w w' : World Store) :
  let key := dedupeKeyOf account msg in
  let first := dedupeCheck key t1 (recentIds w) in
  let second := dedupeCheck key t2 (runChecks between first.2) in
  recentIds w !! key = None →
  Forall (λ c, (c.2 - t1 ≤ RECENT_MESSAGE_TTL_MS)%Z) between →
  (t2 - t1 ≤ RECENT_MESSAGE_TTL_MS)%Z →
  sender_id msg ≠ user_id profile →
  sender_id msg' ≠ user_id profile →
  msg_id msg' = msg_id msg →
  recentIds w' = runChecks between (recentIds (world (handleMessage account profile t1 msg w))) →
  (first.1 = false ∧ first.2 !! key = Some t1 ∧ second.1 = true)
  ∧ (outcome (handleMessage account profile t1 msg w) ≠ Dropped AlreadySeen
     ∧ outcome (handleMessage account profile t2 msg' w') = Dropped AlreadySeen)
  ∧ (∀ k now (m : gmap string Z) j, j ≠ k →
       (dedupeCheck k now m).2 !! j
       = if bool_decide (RECENT_MAX < size m)%nat
         then match m !! j with
              | Some t => if bool_decide (now - t > RECENT_MESSAGE_TTL_MS)
                          then None else Some t
              | None => None
              end
         else m !! j).
Proof.
  intros key first second Hnew Hbetween Ht Hself Hself' Hid Hw'.
  destruct (dedupeCheck_first key t1 (recentIds w) Hnew) as [Hf1 Hf2].
  fold first in Hf1, Hf2.
  assert (Hkept : runChecks between first.2 !! key = Some t1)
    by by apply runChecks_keeps.
  split_and!; try done.
  - by eapply dedupeCheck_seen.
  - rewrite handleMessage_seen by done. fold key first. by rewrite Hf1.
  - rewrite handleMessage_seen by done.
    assert (dedupeKeyOf account msg' = key) as ->.
    { unfold key, dedupeKeyOf. by rewrite Hid. }
    rewrite Hw', handleMessage_recentIds by done. fold key first.
    by eapply dedupeCheck_seen.
  - intros k now m j Hne. by rewrite dedupeCheck_others.
Qed.
End DedupInHandler.

(** ** Reconnection delays *)

Lemma backoffAfter_S i :
  Z.min (backoffAfter i * 2) MAX_BACKOFF_MS = backoffAfter (S i).
Proof.
  unfold backoffAfter, INITIAL_BACKOFF_MS, MAX_BACKOFF_MS.
  rewrite Nat2Z.inj_succ, Z.pow_succ_r by lia.
  assert (0 < 2 ^ Z.of_nat i) by (apply Z.pow_pos_nonneg; lia). lia.
Qed.

Lemma backoffAfter_capped i : backoffAfter (5 + i) = MAX_BACKOFF_MS.
Proof.
  unfold backoffAfter, INITIAL_BACKOFF_MS, MAX_BACKOFF_MS.
  rewrite Nat2Z.inj_add, Z.pow_add_r by lia.
  assert (0 < 2 ^ Z.of_nat i) by (apply Z.pow_pos_nonneg; lia).
  change (2 ^ Z.of_nat 5) with 32. lia.
Qed.

Section LoopProperties.
Context {W : Type} (handle : ZulipMessage → W → W * bool).
Implicit Types (st : LoopState (W:=W)).

Lemma delays_app (a b : list (LoopEvent)) : delays (a ++ b) = delays a ++ delays b.
Proof. apply omap_app. Qed.

Lemma handleEvents_quiet events last st :
  backoffMs (handleEvents handle events last st).2 = backoffMs st
  ∧ delays (trace (handleEvents handle events last st).2) = delays (trace st).
Proof.
  revert last st. induction events as [|ev r IH]; intros last st; [done|].
  cbn [handleEvents]. destruct (IH (if bool_decide (ev_id ev > last) then ev_id ev else last)
    (match ev_message ev with
     | Some msg =>
         if bool_decide (ev_type ev = "message")
         then let '(w, threw) := handle msg (loopWorld st) in
              {| backoffMs := backoffMs st; loopWorld := w;
                 trace := trace st ++ [if threw then HandlerThrew msg
                                       else HandlerReturned msg] |}
         else st
     | None => st
     end)) as [-> ->].
  destruct (ev_message ev) as [msg|]; [|done].
  case_bool_decide; [|done].
  destruct (handle msg (loopWorld st)) as [w []]; cbn [backoffMs trace];
    by rewrite delays_app, app_nil_r.
Qed.

Lemma pollBatches_quiet queue batches last st :
  backoffMs (pollBatches handle queue batches last st).2 = backoffMs st
  ∧ delays (trace (pollBatches handle queue batches last st).2) = delays (trace st).
Proof.
  revert last st. induction batches as [|events r IH]; intros last st; [done|].
  cbn [pollBatches].
  pose proof (handleEvents_quiet events last
    {| backoffMs := backoffMs st; loopWorld := loopWorld st;
       trace := trace st ++ [Polled queue last] |}) as [Hb Hd].
  destruct (handleEvents _ _ _ _) as [last' st2]. cbn [snd] in Hb, Hd.
  destruct (IH last' st2) as [-> ->]. rewrite Hb, Hd. cbn [backoffMs trace].
  by rewrite delays_app, app_nil_r.
Qed.

Lemma connected_quiet reg batches st :
  backoffMs (connected handle reg batches st).2 = INITIAL_BACKOFF_MS
  ∧ delays (trace (connected handle reg batches st).2) = delays (trace st).
Proof.
  unfold connected.
  destruct (pollBatches_quiet (queue_id reg) batches (last_event_id reg)
    {| backoffMs := INITIAL_BACKOFF_MS; loopWorld := loopWorld st;
       trace := trace st ++ [StatusConnected] |}) as [-> ->].
  cbn [backoffMs trace]. by rewrite delays_app, app_nil_r.
Qed.

(** An iteration that fails waits for the delay in force, then doubles
    it up to the ceiling; a registration in that iteration puts the
    delay back to its floor before. *)
Lemma attempt_delay st a :
  let waited := match a with
                | RegisterThrows => backoffMs st
                | Registered _ _ => INITIAL_BACKOFF_MS
                end in
  delays (trace (attempt handle st a)) = delays (trace st) ++ [waited]
  ∧ backoffMs (attempt handle st a) = Z.min (waited * 2) MAX_BACKOFF_MS.
Proof.
  destruct a as [|reg batches]; cbv zeta; cbn [attempt]; unfold backOff.
  - cbn [trace backoffMs]. by rewrite delays_app.
  - pose proof (connected_quiet reg batches st) as [Hb Hd].
    destruct (connected handle reg batches st) as [last st'].
    cbn [snd] in Hb, Hd. cbn [trace backoffMs].
    by rewrite !delays_app, Hd, Hb, app_nil_r.
Qed.

Lemma failures_delays n i st :
  backoffMs st = backoffAfter i →
  delays (trace (runAttempts handle (replicate n RegisterThrows) st))
  = delays (trace st) ++ (backoffAfter <$> seq i n)
  ∧ backoffMs (runAttempts handle (replicate n RegisterThrows) st) = backoffAfter (i + n).
Proof.
  revert i st. induction n as [|n IH]; intros i st Hb.
  - cbn. by rewrite app_nil_r, Nat.add_0_r.
  - unfold runAttempts in *. cbn [replicate foldl].
    destruct (attempt_delay st RegisterThrows) as [Hd Hb'].
    destruct (IH (S i) (attempt handle st RegisterThrows)) as [-> ->].
    { rewrite Hb', Hb. apply backoffAfter_S. }
    rewrite Hd, Hb, <- app_assoc. split; [done|]. f_equal. lia.
Qed.

(** C7.  Registration failures in a row, from the start of the loop,
    wait 1 s, 2 s, 4 s, 8 s, 16 s, 30 s, 30 s, ...: each failure waits for
    the delay in force and then doubles it, up to 30 s.  A registration
    that succeeds puts the delay back to 1 s at once, so that the failure
    of a poll after it waits 1 s and the failures that follow go through
    the same series again. *)
Theorem backoff_sequence :
  (∀ w n,
     delays (trace (runAttempts handle (replicate n RegisterThrows) (startLoop w)))
     = backoffAfter <$> seq 0 n)
  ∧ backoffAfter <$> seq 0 7 = [1000; 2000; 4000; 8000; 16000; 30000; 30000]
  ∧ (∀ i, backoffAfter (5 + i) = 30000)
  ∧ (∀ st a,
       let waited := match a with
                     | RegisterThrows => backoffMs st
                     | Registered _ _ => 1000
                     end in
       delays (trace (attempt handle st a)) = delays (trace st) ++ [waited]
       ∧ backoffMs (attempt handle st a) = Z.min (waited * 2) 30000)
  ∧ (∀ st reg batches, backoffMs (connected handle reg batches st).2 = 1000)
  ∧ (∀ st reg batches n,
       delays (trace (runAttempts handle
                        (Registered reg batches :: replicate n RegisterThrows) st))
       = delays (trace st) ++ (backoffAfter <$> seq 0 (S n))).
Proof.
  split_and!.
  - intros w n. by destruct (failures_delays n 0 (startLoop w) eq_refl) as [-> _].
  - reflexivity.
  - apply backoffAfter_capped.
  - apply attempt_delay.
  - intros st reg batches. apply connected_quiet.
  - intros st reg batches n. unfold runAttempts. cbn [foldl].
    destruct (attempt_delay st (Registered reg batches)) as [Hd Hb].
    destruct (failures_delays n 1 (attempt handle st (Registered reg batches)))
      as [Hd' _]; [by rewrite Hb|].
    unfold runAttempts in Hd'. rewrite Hd', Hd, <- app_assoc. done.
Qed.
End LoopProperties.

(** ** Sending *)

Section SendProperties.
Variable recipientsJson : string → string.

Lemma parseZulipTarget_blank raw :
  trim raw = "" → parseZulipTarget recipientsJson raw = inl TargetRequired.
Proof. intros E. unfold parseZulipTarget. by rewrite E. Qed.

(** Without text, without uploaded media and without a web address to
    fall back on, the media step leaves the content empty. *)
Lemma attachMedia_blank env opts :
  mediaResolved env opts = false →
  mediaUrlIsHttp opts = false →
  ∃ uploads, attachMedia env "" (opt_mediaUrl opts) = (uploads, "")
             ∧ postedMessages uploads = [].
Proof.
  unfold mediaResolved, mediaUrlIsHttp, attachMedia.
  destruct (trim <$> opt_mediaUrl opts) as [url|]; [|by eexists].
  destruct (truthy url) eqn:Hu; cbn [andb negb]; [|by eexists].
  intros Hres ->.
  destruct (loadWebMedia env url) as [media|]; [|by eexists].
  destruct (uploadResult env media) as [uri|]; [|by eexists].
  rewrite bool_decide_eq_true_2 in Hres by by eexists. done.
Qed.

(** C10, as the code has it.  A call of [sendZulipMessage] with a blank
    target, or with a text that is blank while no media was uploaded and
    the media address is not a web address, is rejected and issues no
    message request; the error is raised before the request.  The checks
    come in the order of the code: the credentials of the account, the
    creation of the client, the target, the content. *)
Theorem send_rejected_without_request account env to text opts :
  trim to = ""
  ∨ (trim text = "" ∧ mediaResolved env opts = false ∧ mediaUrlIsHttp opts = false) →
  let s := sendZulipMessage recipientsJson account env to text opts in
  (∃ e, result s = inl e ∧ e ≠ RequestFailed)
  ∧ postedMessages (requests s) = []
  ∧ (if negb (isConfigured account) then result s = inl CredentialsMissing
     else match clientOf account with
          | Some (inl e) => result s = inl (ClientRejected e)
          | _ => if truthy (trim to) then result s = inl MessageEmpty
                 else result s = inl TargetRequired
          end).
Proof.
  intros Hin. unfold sendZulipMessage, isConfigured, clientOf. cbv zeta.
  destruct (serverUrl account) as [url|], (botEmail account) as [email|],
           (apiKey account) as [key|]; cbn [default from_option id truthy andb negb];
    rewrite ?andb_false_r; cbn [negb];
    try (split_and!; [by eexists|done|done]).
  destruct (truthy url); cbn [negb orb andb]; [|by split_and!; [eexists|..]].
  destruct (truthy email); cbn [negb orb andb]; [|by split_and!; [eexists|..]].
  destruct (truthy key); cbn [negb orb andb]; [|by split_and!; [eexists|..]].
  destruct (createZulipClient url email key) as [e|client];
    [by split_and!; [eexists|..]|].
  destruct (truthy (trim to)) eqn:Hto.
  - destruct Hin as [Hb|(Htext & Hres & Hhttp)]; [by rewrite Hb in Hto|].
    destruct (parseZulipTarget recipientsJson to) as [e|target] eqn:Hp.
    { unfold parseZulipTarget in Hp. rewrite Hto in Hp. cbn [negb] in Hp.
      destruct (matchPrefixCI "stream:" (trim to)).
      - by destruct (indexOfColon _).
      - by destruct (_ || _). }
    rewrite Htext.
    destruct (attachMedia_blank env opts Hres Hhttp) as (uploads & -> & Hu).
    cbn [truthy negb requests result]. split_and!; [by eexists|done|done].
  - apply truthy_false in Hto. rewrite parseZulipTarget_blank by done.
    cbn [requests result]. split_and!; [by eexists|done|done].
Qed.
End SendProperties.

(** C10, as the specification has it, fails: an empty text with a media
    address that cannot be loaded is sent as a message made of the
    address. *)
Lemma empty_text_falls_back_to_url :
  let opts := {| opt_accountId := None;
                 opt_mediaUrl := Some "https://example.org/a.png" |} in
  let env := sampleEnv false false true in
  let s := sendZulipMessage sampleRecipientsJson (sampleAccount DmOpen [] []) env
             "dm:42" "  " opts in
  trim "  " = ""
  ∧ mediaResolved env opts = false
  ∧ isRejected s = false
  ∧ postedMessages (requests s)
    = [PostMessage {| target_type := ToDirect; target_to := "[42]"; target_topic := None |}
         "https://example.org/a.png"].
Proof. vm_compute. by split_and!. Qed.

(** A configured account whose server address is made of slashes: the
    client cannot be created, and the call ends there. *)
Example sendZulipMessage_slashes_ex :
  let account := {| accountId := "default"; serverUrl := Some "///";
                    botEmail := Some "bot@example.org"; apiKey := Some "secret";
                    config := {| cfg_dmPolicy := None; cfg_allowFrom := None;
                                 cfg_autoReplyStreams := None |};
                    textChunkLimit := None |} in
  sendZulipMessage sampleRecipientsJson account (sampleEnv false false true)
    "dm:42" "hello" {| opt_accountId := None; opt_mediaUrl := None |}
  = {| requests := []; result := inl (ClientRejected ServerUrlRequired) |}.
Proof. reflexivity. Qed.

(** A call with a blank target. *)
Lemma send_rejected_witness :
  (trim "   " = ""
   ∨ (trim "hello" = ""
      ∧ mediaResolved (sampleEnv false false true)
          {| opt_accountId := None; opt_mediaUrl := None |} = false
      ∧ mediaUrlIsHttp {| opt_accountId := None; opt_mediaUrl := None |} = false))
  ∧ let s := sendZulipMessage sampleRecipientsJson (sampleAccount DmOpen [] [])
               (sampleEnv false false true) "   " "hello"
               {| opt_accountId := None; opt_mediaUrl := None |} in
    result s = inl TargetRequired ∧ postedMessages (requests s) = [].
Proof.
  split; [left; reflexivity|].
  destruct (send_rejected_without_request sampleRecipientsJson (sampleAccount DmOpen [] [])
              (sampleEnv false false true) "   " "hello"
              {| opt_accountId := None; opt_mediaUrl := None |}) as (_ & Hp & He);
    [left; reflexivity|].
  split; [exact He|exact Hp].
Defined.

(** ** The cleaned body *)

Lemma testCI_false_head pat c r :
  testCI pat (String c r) = false →
  matchPrefixCI pat (String c r) = None ∧ testCI pat r = false.
Proof.
  cbn [testCI]. destruct (matchPrefixCI pat (String c r)); [done|]. by split.
Qed.

(** Without an occurrence of the pattern the replacement changes nothing. *)
Lemma replaceAllCI_none pat s : testCI pat s = false → replaceAllCI pat s = s.
Proof.
  unfold replaceAllCI. induction s as [|c r IH]; [done|].
  intros [Hm Hr]%testCI_false_head. cbn [replaceGo]. rewrite Hm. by rewrite IH.
Qed.

Lemma stripMention_unmentioned text botName :
  wasBotMentioned text botName = false →
  stripMention text botName
  = if truthy botName then trim (collapseWhiteSpace text) else trim text.
Proof.
  unfold wasBotMentioned, stripMention. destruct (truthy botName); [|done].
  intros Ht. by rewrite replaceAllCI_none.
Qed.

Lemma singleSpacedFrom_trimEnd b s : singleSpacedFrom b s = true → trimEnd s = s.
Proof.
  revert b. induction s as [|c r IH]; intros b; [done|].
  cbn [singleSpacedFrom trimEnd]. destruct (isWhiteSpace c) eqn:Ec.
  - rewrite !andb_true_iff. intros [_ Hr]. rewrite (IH _ Hr).
    destruct r; [done|done].
  - intros Hr. rewrite (IH _ Hr). by destruct r.
Qed.

Lemma singleSpacedFrom_collapse b s : singleSpacedFrom b s = true → collapseGo b s = s.
Proof.
  revert b. induction s as [|c r IH]; intros b; [done|].
  cbn [singleSpacedFrom collapseGo]. destruct (isWhiteSpace c) eqn:Ec.
  - rewrite !andb_true_iff, negb_true_iff. intros [[Hc ->] Hr].
    apply Ascii.eqb_eq in Hc as ->. by rewrite (IH _ Hr).
  - intros Hr. by rewrite (IH _ Hr).
Qed.

(** A single-spaced text is not empty and is left as it is by [trim] and by
    the replacement of white space. *)
Lemma singleSpaced_fixed s :
  singleSpaced s = true →
  truthy s = true ∧ trim s = s ∧ collapseWhiteSpace s = s.
Proof.
  unfold singleSpaced, trim, collapseWhiteSpace. intros Hs.
  destruct s as [|c r]; [done|]. split; [done|].
  pose proof Hs as Hs'. cbn [singleSpacedFrom] in Hs'.
  destruct (isWhiteSpace c) eqn:Ec.
  { rewrite andb_false_r in Hs'. done. }
  split.
  - cbn [trimStart]. rewrite Ec. by eapply singleSpacedFrom_trimEnd.
  - cbn [collapseGo]. rewrite Ec. by rewrite (singleSpacedFrom_collapse _ _ Hs').
Qed.

Section BodyProperties.
Context `{Runtime Store}.

(** C8, as the code has it.  A stream message in an auto-reply channel,
    with an empty effective allow-list and without a mention of the bot:
    it passes the policy whether or not a mention pattern matches; its
    cleaned body is the trimmed content with every run of white space
    replaced by one blank (the trimmed content when the bot has no
    display name); it is handed to reply generation with that body when
    the body is not empty and dropped otherwise.  The body is the raw
    content when the content is single-spaced. *)
Theorem auto_reply_body account profile now msg (w : World Store) :
  msg_type msg = TypeStream →
  fresh account profile now msg w →
  inAutoReplySet account msg →
  effectiveAllowFromOf account (store w) = [] →
  wasBotMentioned (trim (content msg)) (full_name profile) = false →
  let r := handleMessage account profile now msg w in
  let body := if truthy (full_name profile)
              then trim (collapseWhiteSpace (trim (content msg)))
              else trim (content msg) in
  passedPolicy (outcome r) = true
  ∧ (if truthy body
     then ∃ ctx, outcome r = Dispatched ctx ∧ BodyForAgent ctx = body
     else outcome r = Dropped EmptyBody)
  ∧ (singleSpaced (content msg) = true →
     ∃ ctx, outcome r = Dispatched ctx ∧ BodyForAgent ctx = content msg).
Proof.
  intros Htype Hfresh Hauto Hallow Hno r body.
  assert (Hp : passedPolicy (outcome r) = true).
  { pose proof (stream_handled account profile now msg w Htype Hfresh) as Hs.
    cbv zeta in Hs. fold r in Hs. rewrite Hallow in Hs.
    apply inAutoReplyStreams_true in Hauto. by rewrite Hauto in Hs. }
  pose proof (handleMessage_passed account profile now msg w Hp) as Ho.
  fold r in Ho. rewrite stripMention_unmentioned in Ho by done.
  assert (Hb : body = if truthy (full_name profile)
                      then trim (collapseWhiteSpace (trim (content msg)))
                      else trim (trim (content msg))).
  { unfold body. destruct (truthy _); [done|]. by rewrite trim_idemp. }
  rewrite <- Hb in Ho. split_and!; [done| |].
  - destruct (truthy body); [|done]. eexists. split; [exact Ho|]. by unfold buildContext.
  - intros Hs. destruct (singleSpaced_fixed _ Hs) as (Ht & Htrim & Hcol).
    assert (body = content msg) as Heq.
    { unfold body. rewrite Htrim, Hcol, Htrim. by destruct (truthy _). }
    rewrite Heq, Ht in Ho. eexists. split; [exact Ho|]. by unfold buildContext.
Qed.
End BodyProperties.

(** C8, as the specification has it, fails: the cleaned body of a message
    without mention differs from its content when the content holds a run
    of white space. *)
Lemma cleaned_body_differs_from_content :
  let account := sampleAccount DmPairing [] ["general"] in
  let msg := sampleStreamMessage 10 42 "general" "a  b" in
  let r := handleMessage account sampleProfile 1000 msg emptyWorld in
  inAutoReplySet account msg
  ∧ effectiveAllowFromOf account (store emptyWorld) = []
  ∧ wasBotMentioned (content msg) (full_name sampleProfile) = false
  ∧ ∃ ctx, outcome r = Dispatched ctx
           ∧ BodyForAgent ctx = "a b"
           ∧ BodyForAgent ctx ≠ content msg.
Proof.
  split_and!.
  - exists "general", {| streamName := "general"; topic := "chat" |}.
    split_and!; [|reflexivity..]. cbn. set_solver.
  - vm_compute. reflexivity.
  - vm_compute. reflexivity.
  - eexists. split_and!; [vm_compute; reflexivity|reflexivity|discriminate].
Qed.

(** A single-spaced message in an auto-reply channel. *)
Lemma auto_reply_body_witness :
  let account := sampleAccount DmPairing [] ["general"] in
  let msg := sampleStreamMessage 10 42 "General" "hello there" in
  let r := handleMessage account sampleProfile 1000 msg emptyWorld in
  ∃ ctx, outcome r = Dispatched ctx ∧ BodyForAgent ctx = "hello there".
Proof.
  intros account msg r.
  refine ((λ H, proj2 (proj2 H) eq_refl)
            (auto_reply_body account sampleProfile 1000 msg emptyWorld eq_refl _ _ _ _)).
  - split; [discriminate|]. vm_compute. reflexivity.
  - exists "general", {| streamName := "General"; topic := "chat" |}.
    split_and!; [|reflexivity..]. cbn. set_solver.
  - vm_compute. reflexivity.
  - vm_compute. reflexivity.
Defined.

(** ** Events of a batch *)

(** Every message event of a batch reaches the handler, in order, whether
    or not the handler threw on an earlier one. *)
Lemma handleEvents_handled {W} (handle : ZulipMessage → W → W * bool)
    events last (st : LoopState (W:=W)) :
  handled (trace (handleEvents handle events last st).2)
  = handled (trace st) ++ messagesOf events.
Proof.
  revert last st. induction events as [|ev r IH]; intros last st.
  - cbn. by rewrite app_nil_r.
  - cbn [handleEvents]. rewrite IH. unfold messagesOf at 2. cbn [omap list_omap].
    fold (messagesOf r).
    destruct (ev_message ev) as [msg|]; [|by case_bool_decide].
    case_bool_decide; [|done].
    destruct (handle msg (loopWorld st)) as [w []]; cbn [trace];
      unfold handled at 1; rewrite omap_app; fold (handled (trace st));
      by rewrite <- app_assoc.
Qed.

(** ** The send queue *)

Section QueueProperties.
Variable recipientsJson : string → string.
Variable account : ResolvedZulipAccount.
Variable to : string.
Variable convertMarkdownTables : string → string.
Variable chunkMarkdownTextWithMode : string → list string.

Local Abbreviation start := (startNext recipientsJson account to).
Local Abbreviation step :=
  (queueStep recipientsJson account to convertMarkdownTables chunkMarkdownTextWithMode).
Local Abbreviation run :=
  (runFrom recipientsJson account to convertMarkdownTables chunkMarkdownTextWithMode).
Local Abbreviation chunks := (chunksOf convertMarkdownTables chunkMarkdownTextWithMode).
Local Abbreviation payloadsOf := (payloadsFrom convertMarkdownTables chunkMarkdownTextWithMode).

Implicit Types (q : SendQueue) (lg ext : list QueueEvent) (c : Chunk).
Implicit Types (ws : list (nat * list Chunk)) (cur : option (Chunk * list Chunk)).

Lemma submitted_app lg ext : submitted (lg ++ ext) = submitted lg ++ submitted ext.
Proof. apply omap_app. Qed.

Lemma submitted_cons e lg :
  submitted (e :: lg)
  = match e with Submitted c => c :: submitted lg | _ => submitted lg end.
Proof. by destruct e. Qed.

Lemma attempted_app lg ext : attempted (lg ++ ext) = attempted lg ++ attempted ext.
Proof. apply omap_app. Qed.

Lemma chunksIn_app ws1 ws2 : chunksIn (ws1 ++ ws2) = chunksIn ws1 ++ chunksIn ws2.
Proof. unfold chunksIn. by rewrite fmap_app, concat_app. Qed.

Lemma chunksIn_cons n cs ws : chunksIn ((n, cs) :: ws) = cs ++ chunksIn ws.
Proof. done. Qed.

(** What [startNext] appends to the log does not depend on the log. *)
Lemma startNext_prefix ws lg :
  start ws lg = ((start ws []).1, lg ++ (start ws []).2).
Proof.
  revert lg. induction ws as [|[n [|c rest]] ws IH]; intros lg; cbn [startNext].
  - by rewrite app_nil_r.
  - rewrite (IH (lg ++ _)), (IH ([] ++ _)). cbn [fst snd]. by rewrite app_assoc.
  - destruct (reachesTransport _ _ _ c); [done|].
    rewrite (IH (lg ++ _)), (IH ([] ++ _)). cbn [fst snd]. by rewrite app_assoc.
Qed.

Lemma startNext_props ws :
  let cur := (start ws []).1.1 in
  let ws' := (start ws []).1.2 in
  let ext := (start ws []).2 in
  sublist (submitted ext ++ restOf cur ++ chunksIn ws') (chunksIn ws)
  ∧ (cur = None → ws' = [])
  ∧ inFlightAfter None ext = Some (fst <$> cur)
  ∧ (∀ c ok, Completed c ok ∉ ext)
  ∧ (∀ n c cs, (n, c :: cs) ∈ ws → c ∈ attempted ext ∨ (n, c :: cs) ∈ ws').
Proof.
  induction ws as [|[n [|c rest]] ws IH]; cbn [startNext].
  - cbn. split_and!; try done.
    + intros c ok. apply not_elem_of_nil.
    + intros n c cs []%elem_of_nil.
  - rewrite startNext_prefix. cbn [fst snd].
    destruct IH as (I1 & I2 & I3 & I4 & I5). split_and!; try done.
    + intros c ok [[=]%list_elem_of_singleton|?]%elem_of_app. by eapply I4.
    + intros k c cs [[=]|Hin]%elem_of_cons.
      destruct (I5 k c cs Hin) as [?|?]; [left|by right].
      rewrite attempted_app. set_solver.
  - destruct (reachesTransport _ _ _ c) eqn:Hr.
    + cbn [fst snd app submitted omap restOf inFlightAfter fmap option_fmap option_map].
      split_and!; try done.
      * intros c' ok [=]%list_elem_of_singleton.
      * intros k c' cs [[= -> -> ->]|Hin]%elem_of_cons; [left|by right].
        cbn. set_solver.
    + rewrite startNext_prefix. cbn [fst snd].
      destruct IH as (I1 & I2 & I3 & I4 & I5). split_and!; try done.
      * cbn [app submitted omap]. unfold chunksIn at 2. cbn [fmap list_fmap concat snd].
        by apply sublist_inserts_l.
      * intros c' ok [Hin|?]%elem_of_app; [|by eapply I4].
        set_solver.
      * intros k c' cs [[= -> -> ->]|Hin]%elem_of_cons.
        -- left. cbn. set_solver.
        -- destruct (I5 k c' cs Hin) as [?|?]; [left|by right].
           rewrite attempted_app. set_solver.
Qed.

Lemma start_eq ws lg :
  start ws lg = ((start ws []).1.1, (start ws []).1.2, lg ++ (start ws []).2).
Proof. rewrite startNext_prefix. by destruct (start ws []) as [[] ?]. Qed.

(** One step: what it submits comes from what was pending or from the
    payload just delivered, in that order. *)
Lemma step_sublist q i :
  ∃ ext, log (step q i) = log q ++ ext
         ∧ sublist (submitted ext ++ pendingChunks (step q i))
                   (pendingChunks q ++ newChunks convertMarkdownTables
                                         chunkMarkdownTextWithMode q i).
Proof.
  unfold pendingChunks. destruct q as [n cur ws lg].
  destruct i as [text|ok]; cbn [queueStep current waiting delivered log newChunks].
  - destruct cur as [[c rest]|].
    + exists []. cbn [current waiting log]. rewrite app_nil_r. split; [done|].
      change (submitted []) with (@nil Chunk). cbn [app].
      rewrite chunksIn_app, app_assoc.
      apply sublist_app; [reflexivity|]. unfold chunksIn. cbn. by rewrite app_nil_r.
    + rewrite start_eq. cbn [current waiting log]. eexists. split; [done|].
      destruct (startNext_props (ws ++ [(n, chunks n text)])) as (I1 & _).
      cbn [restOf app]. rewrite chunksIn_app in I1.
      unfold chunksIn at 3 in I1. cbn in I1. by rewrite app_nil_r in I1.
  - destruct cur as [[c rest]|].
    + destruct ok; rewrite start_eq; cbn [current waiting log].
      * exists ([Completed c true] ++ (start ((payload c, rest) :: ws) []).2).
        rewrite app_assoc. split; [done|]. cbn [app]. rewrite submitted_cons.
        rewrite app_nil_r.
        by destruct (startNext_props ((payload c, rest) :: ws)) as (I1 & _).
      * exists ([Completed c false; DeliverSettled (payload c) false]
                ++ (start ws []).2).
        rewrite app_assoc. split; [done|]. cbn [app]. rewrite !submitted_cons.
        rewrite app_nil_r.
        destruct (startNext_props ws) as (I1 & _).
        etrans; [exact I1|]. by apply sublist_inserts_l.
    + exists []. cbn [current waiting log]. rewrite !app_nil_r.
      split; [done|]. change (submitted []) with (@nil Chunk). reflexivity.
Qed.

Lemma step_delivered q i :
  delivered (step q i)
  = match i with Deliver _ => S (delivered q) | Settle _ => delivered q end.
Proof.
  destruct q as [n cur ws lg]. destruct i as [text|ok]; cbn [queueStep current].
  - destruct cur as [[c rest]|]; [done|]. by destruct (start _ _) as [[] ?].
  - destruct cur as [[c rest]|]; [|done].
    by destruct (if ok then _ else _) as [[] ?].
Qed.

(** Any run, from any state of the queue. *)
Lemma run_sublist inputs q :
  ∃ ext, log (run q inputs) = log q ++ ext
         ∧ sublist (submitted ext ++ pendingChunks (run q inputs))
                   (pendingChunks q ++ chunksIn (payloadsOf (delivered q) inputs)).
Proof.
  revert q. induction inputs as [|i inputs IH]; intros q.
  - exists []. cbn. by rewrite !app_nil_r.
  - unfold runFrom in *. cbn [foldl].
    destruct (step_sublist q i) as (e1 & Hl1 & Hs1).
    destruct (IH (step q i)) as (e2 & Hl2 & Hs2).
    exists (e1 ++ e2). split; [by rewrite Hl2, Hl1, app_assoc|].
    rewrite submitted_app, <- app_assoc.
    etrans; [apply sublist_app; [reflexivity|exact Hs2]|].
    rewrite app_assoc. rewrite step_delivered.
    destruct i as [text|ok]; cbn [payloadsFrom newChunks] in *.
    + rewrite chunksIn_cons, (app_assoc (pendingChunks q)). by apply sublist_app; [|reflexivity].
    + rewrite app_nil_r in Hs1. by apply sublist_app; [|reflexivity].
Qed.

Lemma inFlightAfter_app fl lg ext :
  inFlightAfter fl (lg ++ ext) = inFlightAfter fl lg ≫= λ fl', inFlightAfter fl' ext.
Proof.
  revert fl. induction lg as [|e lg IH]; intros fl; [done|].
  destruct e as [c|c ok|c|n ok]; cbn [app inFlightAfter]; try apply IH.
  - destruct fl; [done|apply IH].
  - destruct fl as [c'|]; [|done]. case_bool_decide; [apply IH|done].
Qed.

(** The log of a step stays well bracketed, and the request in flight is
    the one of the running callback. *)
Lemma step_inFlight q i :
  inFlightAfter None (log q) = Some (fst <$> current q) →
  inFlightAfter None (log (step q i)) = Some (fst <$> current (step q i)).
Proof.
  destruct q as [n cur ws lg]. cbn [log current]. intros Hwf.
  destruct i as [text|ok]; cbn [queueStep current waiting delivered log].
  - destruct cur as [[c rest]|]; [done|].
    rewrite start_eq. cbn [log current]. rewrite inFlightAfter_app, Hwf.
    by destruct (startNext_props (ws ++ [(n, chunks n text)])) as (_ & _ & I3 & _).
  - destruct cur as [[c rest]|]; [|done].
    destruct ok; rewrite start_eq; cbn [log current];
      rewrite !inFlightAfter_app, Hwf; cbn [mbind option_bind fmap option_fmap option_map fst inFlightAfter];
      rewrite bool_decide_eq_true_2 by done.
    + by destruct (startNext_props ((payload c, rest) :: ws)) as (_ & _ & I3 & _).
    + by destruct (startNext_props ws) as (_ & _ & I3 & _).
Qed.

Lemma run_inFlight inputs q :
  inFlightAfter None (log q) = Some (fst <$> current q) →
  inFlightAfter None (log (run q inputs)) = Some (fst <$> current (run q inputs)).
Proof.
  revert q. induction inputs as [|i inputs IH]; intros q Hwf; [done|].
  unfold runFrom in *. cbn [foldl]. by apply IH, step_inFlight.
Qed.

(** With a request in flight, the transport is idle again only after the
    completion of that request. *)
Lemma inFlightAfter_idle c lg :
  inFlightAfter (Some c) lg = Some None → ∃ ok, Completed c ok ∈ lg.
Proof.
  induction lg as [|e lg IH]; [done|].
  destruct e as [c'|c' ok|c'|n ok]; cbn [inFlightAfter]; try done.
  - case_bool_decide as Hc; [|done]. subst c'. intros _. exists ok. set_solver.
  - intros (ok & ?)%IH. exists ok. set_solver.
  - intros (ok' & ?)%IH. exists ok'. set_solver.
Qed.

(** In a well-bracketed log the completion of a submission comes before
    the next submission. *)
Lemma inFlightAfter_between fl l1 c1 l2 c2 l3 :
  is_Some (inFlightAfter fl (l1 ++ Submitted c1 :: l2 ++ Submitted c2 :: l3)) →
  ∃ ok, Completed c1 ok ∈ l2.
Proof.
  rewrite inFlightAfter_app. destruct (inFlightAfter fl l1) as [fl1|]; [|by intros []].
  cbn [mbind option_bind inFlightAfter]. destruct fl1; [by intros []|].
  rewrite inFlightAfter_app.
  destruct (inFlightAfter (Some c1) l2) as [[c|]|] eqn:E; cbn [mbind option_bind inFlightAfter];
    [by intros []| |by intros []].
  intros _. by apply inFlightAfter_idle.
Qed.

(** *** Labels of the chunks *)

Lemma chunksOf_payload n text c : c ∈ chunks n text → payload c = n.
Proof.
  unfold chunksOf. rewrite list_elem_of_filter, elem_of_lookup_imap.
  by intros (_ & i & t & -> & _).
Qed.

Lemma NoDup_chunksOf n text : NoDup (chunks n text).
Proof.
  unfold chunksOf. apply NoDup_filter, NoDup_alt. intros i j c.
  rewrite !list_lookup_imap_Some. intros (t1 & _ & ->) (t2 & _ & [=]). done.
Qed.

Lemma payloadsFrom_range n inputs c :
  c ∈ chunksIn (payloadsOf n inputs) →
  (n ≤ payload c < n + length (payloadsOf n inputs))%nat.
Proof.
  revert n. induction inputs as [|[text|ok] inputs IH]; intros n; cbn [payloadsFrom].
  - by intros []%elem_of_nil.
  - rewrite chunksIn_cons, elem_of_app. cbn [length].
    intros [->%chunksOf_payload|Hc%IH]; lia.
  - apply IH.
Qed.

Lemma NoDup_payloadsFrom n inputs : NoDup (chunksIn (payloadsOf n inputs)).
Proof.
  revert n. induction inputs as [|[text|ok] inputs IH]; intros n; cbn [payloadsFrom].
  - constructor.
  - rewrite chunksIn_cons. apply NoDup_app. split_and!.
    + apply NoDup_chunksOf.
    + intros c Hc%chunksOf_payload Hc'%payloadsFrom_range. lia.
    + apply IH.
  - apply IH.
Qed.

Lemma run_delivered inputs q :
  delivered (run q inputs)
  = (delivered q + length (payloadsOf (delivered q) inputs))%nat.
Proof.
  revert q. induction inputs as [|i inputs IH]; intros q.
  - cbn. lia.
  - unfold runFrom in *. cbn [foldl]. rewrite IH, step_delivered.
    destruct i; cbn [payloadsFrom length]; lia.
Qed.

(** *** After a failure *)

Lemma step_failed q c rest :
  current q = Some (c, rest) →
  ∃ ext, log (step q (Settle false))
         = log q ++ Completed c false :: DeliverSettled (payload c) false :: ext
         ∧ sublist (submitted ext ++ pendingChunks (step q (Settle false)))
                   (chunksIn (waiting q)).
Proof.
  destruct q as [n cur ws lg]. cbn [current]. intros ->.
  cbn [queueStep current waiting log]. rewrite start_eq.
  unfold pendingChunks. cbn [current waiting log]. rewrite <- app_assoc. cbn [app].
  eexists. split; [done|].
  by destruct (startNext_props ws) as (I1 & _).
Qed.

(** The chunks behind a failed one are not submitted, whatever comes. *)
Lemma rest_abandoned inputs0 inputs c rest c' :
  let q := run emptyQueue inputs0 in
  current q = Some (c, rest) →
  c' ∈ rest →
  c' ∉ submitted (log (run q (Settle false :: inputs))).
Proof.
  intros q Hcur Hin.
  destruct (run_sublist inputs0 emptyQueue) as (e0 & Hl0 & Hs0). fold q in Hl0, Hs0.
  cbn [log emptyQueue app delivered] in Hl0, Hs0.
  unfold pendingChunks at 2 in Hs0. cbn [current waiting emptyQueue restOf app chunksIn] in Hs0.
  change (chunksIn []) with (@nil Chunk) in Hs0. cbn [app] in Hs0.
  assert (Hnd : NoDup (submitted (log q) ++ rest ++ chunksIn (waiting q))).
  { eapply sublist_NoDup; [apply (NoDup_payloadsFrom 0 inputs0)|].
    rewrite Hl0. unfold pendingChunks in Hs0. by rewrite Hcur in Hs0. }
  assert (Hlt : (payload c' < delivered q)%nat).
  { unfold q. rewrite run_delivered. cbn [delivered emptyQueue].
    apply payloadsFrom_range. eapply elem_of_sublist; [|exact Hs0].
    unfold pendingChunks. rewrite Hcur. cbn [restOf]. set_solver. }
  apply NoDup_app in Hnd as (_ & Hd1 & Hnd).
  apply NoDup_app in Hnd as (_ & Hd2 & _).
  unfold runFrom at 1. cbn [foldl]. fold (run (step q (Settle false)) inputs).
  destruct (step_failed q c rest Hcur) as (e1 & Hl1 & Hs1).
  destruct (run_sublist inputs (step q (Settle false))) as (e2 & Hl2 & Hs2).
  rewrite Hl2, Hl1, !submitted_app, !submitted_cons, !elem_of_app.
  rewrite step_delivered in Hs2.
  intros [[Hc|Hc]|Hc].
  - apply (Hd1 c' Hc). set_solver.
  - apply (Hd2 c' Hin). eapply elem_of_sublist; [|exact Hs1]. set_solver.
  - assert (c' ∈ pendingChunks (step q (Settle false))
                  ++ chunksIn (payloadsOf (delivered q) inputs)) as Hc'.
    { eapply elem_of_sublist; [|exact Hs2]. set_solver. }
    apply elem_of_app in Hc' as [Hc'|Hc'%payloadsFrom_range]; [|lia].
    apply (Hd2 c' Hin). eapply elem_of_sublist; [|exact Hs1]. set_solver.
Qed.

(** *** The payloads behind a failure *)

(** Nothing waits while no request is in flight. *)
Lemma step_idle q i :
  (current q = None → waiting q = []) →
  current (step q i) = None → waiting (step q i) = [].
Proof.
  destruct q as [n cur ws lg]. cbn [current waiting]. intros Hidle.
  destruct i as [text|ok]; cbn [queueStep current waiting].
  - destruct cur as [[c rest]|]; [done|]. rewrite start_eq. cbn [current waiting].
    by destruct (startNext_props (ws ++ [(n, chunks n text)])) as (_ & I2 & _).
  - destruct cur as [[c rest]|]; [|done].
    destruct ok; rewrite start_eq; cbn [current waiting].
    + by destruct (startNext_props ((payload c, rest) :: ws)) as (_ & I2 & _).
    + by destruct (startNext_props ws) as (_ & I2 & _).
Qed.

Lemma run_idle inputs q :
  (current q = None → waiting q = []) →
  current (run q inputs) = None → waiting (run q inputs) = [].
Proof.
  revert q. induction inputs as [|i inputs IH]; intros q Hq; [done|].
  unfold runFrom in *. cbn [foldl]. by apply IH, step_idle.
Qed.

Lemma step_log_grows q i : ∃ ext, log (step q i) = log q ++ ext.
Proof. destruct (step_sublist q i) as (ext & ? & _). by exists ext. Qed.

(** A payload is either behind the running callback or has had its
    first chunk handed to [sendZulipMessage]. *)
Lemma step_started q i ps :
  (current q = None → waiting q = []) →
  (∀ n c cs, (n, c :: cs) ∈ ps →
     c ∈ attempted (log q) ∨ (n, c :: cs) ∈ waiting q) →
  ∀ n c cs,
    (n, c :: cs) ∈ ps ++ match i with
                         | Deliver text => [(delivered q, chunks (delivered q) text)]
                         | Settle _ => []
                         end →
    c ∈ attempted (log (step q i)) ∨ (n, c :: cs) ∈ waiting (step q i).
Proof.
  destruct q as [k cur ws lg]. cbn [current waiting log delivered].
  intros Hidle Hinv n c cs Hin.
  destruct i as [text|ok]; cbn [queueStep current waiting log delivered].
  - destruct cur as [[c0 rest]|]; cbn [waiting log delivered].
    + apply elem_of_app in Hin as [Hin|Hin].
      * destruct (Hinv n c cs Hin) as [?|?]; [by left|right].
        apply elem_of_app. by left.
      * right. apply elem_of_app. by right.
    + rewrite (Hidle eq_refl) in *. rewrite start_eq. cbn [waiting log app].
      destruct (startNext_props [(k, chunks k text)]) as (_ & _ & _ & _ & I5).
      rewrite attempted_app.
      apply elem_of_app in Hin as [Hin|Hin].
      * destruct (Hinv n c cs Hin) as [?|[]%elem_of_nil].
        left. apply elem_of_app. by left.
      * destruct (I5 n c cs Hin) as [?|?]; [left|by right].
        apply elem_of_app. by right.
  - rewrite app_nil_r in Hin. destruct cur as [[c0 rest]|]; [|by apply Hinv].
    destruct ok; rewrite start_eq; cbn [waiting log]; rewrite attempted_app.
    + destruct (startNext_props ((payload c0, rest) :: ws)) as (_ & _ & _ & _ & I5).
      destruct (Hinv n c cs Hin) as [?|Hw].
      { left. rewrite attempted_app, !elem_of_app. by left; left. }
      destruct (I5 n c cs) as [?|?]; [by apply elem_of_cons; right| |by right].
      left. apply elem_of_app. by right.
    + destruct (startNext_props ws) as (_ & _ & _ & _ & I5).
      destruct (Hinv n c cs Hin) as [?|Hw].
      { left. rewrite attempted_app, !elem_of_app. by left; left. }
      destruct (I5 n c cs) as [?|?]; [done| |by right].
      left. apply elem_of_app. by right.
Qed.

Lemma run_started inputs q ps :
  (current q = None → waiting q = []) →
  (∀ n c cs, (n, c :: cs) ∈ ps →
     c ∈ attempted (log q) ∨ (n, c :: cs) ∈ waiting q) →
  ∀ n c cs,
    (n, c :: cs) ∈ ps ++ payloadsOf (delivered q) inputs →
    c ∈ attempted (log (run q inputs)) ∨ (n, c :: cs) ∈ waiting (run q inputs).
Proof.
  revert q ps. induction inputs as [|i inputs IH]; intros q ps Hidle Hinv n c cs.
  - cbn [payloadsFrom]. rewrite app_nil_r. apply Hinv.
  - unfold runFrom in *. cbn [foldl]. intros Hin.
    apply (IH (step q i)
             (ps ++ match i with
                    | Deliver text => [(delivered q, chunks (delivered q) text)]
                    | Settle _ => []
                    end)).
    + by apply step_idle.
    + by apply step_started.
    + rewrite step_delivered. destruct i; cbn [payloadsFrom] in Hin.
      * by rewrite <- app_assoc.
      * by rewrite app_nil_r.
Qed.

(** A failed request rejects the promise of its payload. *)
Lemma step_reported q i :
  (∀ c, Completed c false ∈ log q → DeliverSettled (payload c) false ∈ log q) →
  ∀ c, Completed c false ∈ log (step q i) →
       DeliverSettled (payload c) false ∈ log (step q i).
Proof.
  destruct q as [k cur ws lg]. cbn [log]. intros Hinv c.
  destruct i as [text|ok]; cbn [queueStep current waiting log].
  - destruct cur as [[c0 rest]|]; cbn [log]; [apply Hinv|].
    rewrite start_eq. cbn [log].
    destruct (startNext_props (ws ++ [(k, chunks k text)])) as (_ & _ & _ & I4 & _).
    rewrite !elem_of_app. intros [?|?%I4]; [|done]. left. by apply Hinv.
  - destruct cur as [[c0 rest]|]; [|apply Hinv].
    destruct ok; rewrite start_eq; cbn [log].
    + destruct (startNext_props ((payload c0, rest) :: ws)) as (_ & _ & _ & I4 & _).
      rewrite !elem_of_app. intros [[?|[=]%list_elem_of_singleton]|?%I4]; [|done].
      left. left. by apply Hinv.
    + destruct (startNext_props ws) as (_ & _ & _ & I4 & _).
      rewrite !elem_of_app, !elem_of_cons.
      intros [[?|[[= ->]|[[=]|[]%elem_of_nil]]]|?%I4]; [| |done].
      * left. left. by apply Hinv.
      * left. right. set_solver.
Qed.

Lemma run_reported inputs q :
  (∀ c, Completed c false ∈ log q → DeliverSettled (payload c) false ∈ log q) →
  ∀ c, Completed c false ∈ log (run q inputs) →
       DeliverSettled (payload c) false ∈ log (run q inputs).
Proof.
  revert q. induction inputs as [|i inputs IH]; intros q Hq; [done|].
  unfold runFrom in *. cbn [foldl]. by apply IH, step_reported.
Qed.

(** A rejected promise of [deliver] leaves its line in the error log. *)
Lemma errorLog_rejected errorOf kindOf lg n :
  DeliverSettled n false ∈ lg →
  onError (errorOf n) (kindOf n) ∈ errorLog errorOf kindOf lg.
Proof.
  intros Hn. unfold errorLog. apply list_elem_of_omap.
  by exists (DeliverSettled n false).
Qed.

Local Abbreviation runQ :=
  (runQueue recipientsJson account to convertMarkdownTables chunkMarkdownTextWithMode).
Local Abbreviation producedBy :=
  (produced convertMarkdownTables chunkMarkdownTextWithMode).

(** C4.  Whatever the dispatcher delivers and however the requests
    settle, the chunks submitted to the transport are chunks produced for
    this dispatch, in the order of their production (every produced
    chunk has its own label); the log is well bracketed, so that between
    two submissions the earlier request has completed, with success or
    with failure. *)
Theorem chunks_sent_in_order inputs :
  let q := runQ inputs in
  submitted (log q) `sublist_of` producedBy inputs
  ∧ NoDup (producedBy inputs)
  ∧ inFlightAfter None (log q) = Some (fst <$> current q)
  ∧ (∀ l1 c1 l2 c2 l3,
       log q = l1 ++ Submitted c1 :: l2 ++ Submitted c2 :: l3 →
       ∃ ok, Completed c1 ok ∈ l2).
Proof.
  intros q. subst q. unfold runQueue.
  assert (Hwf : inFlightAfter None (log (run emptyQueue inputs))
                = Some (fst <$> current (run emptyQueue inputs))).
  { by apply run_inFlight. }
  split_and!; [| |done|].
  - destruct (run_sublist inputs emptyQueue) as (ext & Hl & Hs).
    cbn [log emptyQueue app] in Hl. rewrite Hl.
    etrans; [apply sublist_inserts_r; reflexivity|exact Hs].
  - apply NoDup_payloadsFrom.
  - intros l1 c1 l2 c2 l3 Hlog. eapply (inFlightAfter_between None).
    rewrite <- Hlog, Hwf. by eexists.
Qed.

(** C5, as the code has it.  When the request of a chunk fails, the
    chunks behind it in the same payload are not submitted any more and
    the promise [deliver] returned for that payload is rejected; the
    dispatcher passes the rejection to [onError], which writes its line
    to the error log and returns.  The payloads
    behind are not held up: nothing waits while the transport is idle,
    and a payload that no longer waits has had its first chunk handed to
    [sendZulipMessage].  In the event loop every message event of a batch
    reaches the handler, whether or not the handler threw before. *)
Theorem failure_ends_payload_only :
  (∀ inputs0 inputs c rest c',
     current (runQ inputs0) = Some (c, rest) →
     c' ∈ rest →
     c' ∉ submitted (log (runQ (inputs0 ++ Settle false :: inputs))))
  ∧ (∀ inputs c,
       Completed c false ∈ log (runQ inputs) →
       DeliverSettled (payload c) false ∈ log (runQ inputs))
  ∧ (∀ errorOf kindOf inputs c,
       Completed c false ∈ log (runQ inputs) →
       onError (errorOf (payload c)) (kindOf (payload c))
       ∈ errorLog errorOf kindOf (log (runQ inputs)))
  ∧ (∀ inputs,
       (current (runQ inputs) = None → waiting (runQ inputs) = [])
       ∧ ∀ n c cs,
           (n, c :: cs) ∈ payloads convertMarkdownTables chunkMarkdownTextWithMode inputs →
           c ∈ attempted (log (runQ inputs)) ∨ (n, c :: cs) ∈ waiting (runQ inputs))
  ∧ (∀ W (handle : ZulipMessage → W → W * bool) events last st,
       handled (trace (handleEvents handle events last st).2)
       = handled (trace st) ++ messagesOf events).
Proof.
  split_and!.
  - intros inputs0 inputs c rest c' Hcur Hin.
    unfold runQueue, runFrom. rewrite foldl_app.
    by apply (rest_abandoned inputs0 inputs c rest c').
  - intros inputs. unfold runQueue. apply run_reported. by intros c []%elem_of_nil.
  - intros errorOf kindOf inputs c Hc. apply errorLog_rejected.
    revert c Hc. unfold runQueue. apply run_reported. by intros c []%elem_of_nil.
  - intros inputs. unfold runQueue. split.
    + by apply run_idle.
    + intros n c cs Hin. apply (run_started inputs emptyQueue []); try done.
      by intros ? ? ? []%elem_of_nil.
  - intros W handle events last st. apply handleEvents_handled.
Qed.
End QueueProperties.

(** ** Closed instances *)

(** C5, as the specification has it, fails: after the failure of the first
    chunk of a payload the queue drains without submitting the second
    chunk, which [sendZulipMessage] would have accepted. *)
Lemma second_chunk_lost_after_failure :
  let chunker := λ _ : string, ["a"; "b"] in
  let inputs := [Deliver "ab"; Settle false] in
  let q := runQueue sampleRecipientsJson (sampleAccount DmOpen [] []) "dm:42"
             (λ s, s) chunker inputs in
  let a := {| payload := 0; ordinal := 0; chunkText := "a" |} in
  let b := {| payload := 0; ordinal := 1; chunkText := "b" |} in
  produced (λ s, s) chunker inputs = [a; b]
  ∧ reachesTransport sampleRecipientsJson (sampleAccount DmOpen [] []) "dm:42" b = true
  ∧ log q = [Submitted a; Completed a false; DeliverSettled 0 false]
  ∧ quiescent q
  ∧ b ∉ submitted (log q).
Proof.
  split_and!; [vm_compute; reflexivity..| |].
  - split; vm_compute; reflexivity.
  - vm_compute. intros [[=]|[]%elem_of_nil]%elem_of_cons.
Qed.

(** A direct message of an allow-listed sender under policy [pairing]. *)
Lemma dm_policy_decision_witness :
  let account := sampleAccount DmPairing ["User:42"] [] in
  let msg := sampleDm 10 42 "hello" in
  msg_type msg = TypePrivate
  ∧ fresh account sampleProfile 1000 msg emptyWorld
  ∧ passedPolicy (outcome (handleMessage account sampleProfile 1000 msg emptyWorld)) = true.
Proof.
  intros account msg.
  assert (Hf : fresh account sampleProfile 1000 msg emptyWorld).
  { split; [discriminate|]. vm_compute. reflexivity. }
  split_and!; [reflexivity|exact Hf|].
  pose proof (dm_policy_decision account sampleProfile 1000 msg emptyWorld eq_refl Hf) as H.
  cbv zeta in H. destruct H as [H _].
  change (dmPolicyOf account) with DmPairing in H. destruct H as [H _].
  apply H. right. left. vm_compute. constructor.
Defined.

(** A stream message without mention in an auto-reply channel. *)
Lemma stream_policy_decision_witness :
  let account := sampleAccount DmPairing [] ["general"] in
  let msg := sampleStreamMessage 10 42 "General" "hello" in
  msg_type msg = TypeStream
  ∧ fresh account sampleProfile 1000 msg emptyWorld
  ∧ passedPolicy (outcome (handleMessage account sampleProfile 1000 msg emptyWorld)) = true
  ∧ ∃ ctx, outcome (handleMessage account sampleProfile 1000 msg emptyWorld) = Dispatched ctx
           ∧ BodyForAgent ctx = "hello".
Proof.
  intros account msg.
  assert (Hf : fresh account sampleProfile 1000 msg emptyWorld).
  { split; [discriminate|]. vm_compute. reflexivity. }
  split; [reflexivity|]. split; [exact Hf|].
  pose proof (stream_policy_decision account sampleProfile 1000 msg emptyWorld eq_refl Hf)
    as H.
  cbv zeta in H. destruct H as (_ & H & Hd).
  assert (Hauto : inAutoReplySet account msg).
  { exists "general", {| streamName := "General"; topic := "chat" |}.
    split_and!; [|reflexivity..]. cbn. constructor. }
  destruct (H Hauto) as [Hpass _].
  assert (Hp : passedPolicy (outcome (handleMessage account sampleProfile 1000 msg
                                        emptyWorld)) = true).
  { apply Hpass. left. vm_compute. reflexivity. }
  split; [exact Hp|].
  destruct (Hd Hp) as (ctx & Ho & _ & Hb & _). exists ctx. split; [exact Ho|exact Hb].
Defined.

(** Two direct messages of a sender unknown to the sample store. *)
Lemma pairing_request_once_witness :
  let account := sampleAccount DmPairing [] [] in
  let msg1 := sampleDm 10 42 "hello" in
  let msg2 := sampleDm 11 42 "anyone there?" in
  let r1 := handleMessage account sampleProfile 1000 msg1 emptyWorld in
  let r2 := handleMessage account sampleProfile 2000 msg2 (world r1) in
  samplePending (store (world r1)) = ["42"]
  ∧ sendCalls (effects r1) = [pairingReply account msg1 "ZP0"]
  ∧ samplePending (store (world r2)) = ["42"]
  ∧ sendCalls (effects r2) = [].
Proof.
  intros account msg1 msg2 r1 r2.
  assert (Hno : ∀ p, ¬ matchesAllowList p []).
  { intros p [H|[H|[H|H]]]; by apply elem_of_nil in H. }
  destruct (pairing_request_once samplePending account sampleProfile 1000 2000
              msg1 msg2 emptyWorld (world r1)) as ((H1 & H2 & _) & (H3 & H4 & _) & _).
  - reflexivity.
  - reflexivity.
  - reflexivity.
  - reflexivity.
  - split; [discriminate|]. vm_compute. reflexivity.
  - split; [discriminate|]. vm_compute. reflexivity.
  - apply Hno.
  - apply Hno.
  - vm_compute. apply not_elem_of_nil.
  - vm_compute. constructor.
  - split_and!.
    + exact H1.
    + exact H2.
    + unfold r2. rewrite H3. vm_compute. reflexivity.
    + exact H4.
Defined.

(** A payload of two chunks, both sent. *)
Lemma chunks_sent_in_order_witness :
  let a := {| payload := 0; ordinal := 0; chunkText := "a" |} in
  ∃ ok, Completed a ok ∈ [Completed a true].
Proof.
  intros a.
  pose proof (chunks_sent_in_order sampleRecipientsJson (sampleAccount DmOpen [] [])
                "dm:42" (λ s, s) (λ _, ["a"; "b"])
                [Deliver "ab"; Settle true; Settle true]) as H.
  cbv zeta in H. destruct H as (_ & _ & _ & H).
  apply (H [] a [Completed a true]
           {| payload := 0; ordinal := 1; chunkText := "b" |}
           [Completed {| payload := 0; ordinal := 1; chunkText := "b" |} true;
            DeliverSettled 0 true]).
  vm_compute. reflexivity.
Defined.

(** A payload of two chunks whose first request fails, then a second
    payload. *)
Lemma failure_ends_payload_only_witness :
  let a := {| payload := 0; ordinal := 0; chunkText := "a" |} in
  let b := {| payload := 0; ordinal := 1; chunkText := "b" |} in
  let q := runQueue sampleRecipientsJson (sampleAccount DmOpen [] []) "dm:42"
             (λ s, s) (λ _, ["a"; "b"])
             ([Deliver "ab"] ++ Settle false :: [Deliver "cd"; Settle true; Settle true]) in
  (b ∉ submitted (log q))
  ∧ ("zulip final reply failed: Error: boom"
     ∈ errorLog (λ _, "Error: boom") (λ _, "final") (log q)).
Proof.
  intros a b q.
  destruct (failure_ends_payload_only sampleRecipientsJson (sampleAccount DmOpen [] [])
              "dm:42" (λ s, s) (λ _, ["a"; "b"])) as (H & _ & Hlog & _).
  split.
  - apply (H [Deliver "ab"] _ a [b] b).
    + vm_compute. reflexivity.
    + constructor.
  - apply (Hlog (λ _, "Error: boom") (λ _, "final") _ a).
    vm_compute. repeat constructor.
Defined.

(** The same message handled twice within a second, with another check in
    between. *)
Lemma dedupe_within_ttl_witness :
  let account := sampleAccount DmOpen [] [] in
  let msg := sampleDm 10 42 "hi" in
  let r := handleMessage account sampleProfile 1000 msg emptyWorld in
  let w' := {| recentIds := runChecks [("default:11", 1500)] (recentIds (world r));
               store := store (world r) |} in
  outcome r ≠ Dropped AlreadySeen
  ∧ outcome (handleMessage account sampleProfile 2000 msg w') = Dropped AlreadySeen.
Proof.
  intros account msg r w'.
  destruct (dedupe_within_ttl account sampleProfile msg msg 1000 2000
              [("default:11", 1500)] emptyWorld w') as (_ & H & _).
  - apply lookup_empty.
  - repeat constructor. vm_compute. discriminate.
  - vm_compute. discriminate.
  - discriminate.
  - discriminate.
  - reflexivity.
  - reflexivity.
  - exact H.
Defined.

(** A stream message of a sender allow-listed by address. *)
Lemma command_authorized_witness :
  let account := sampleAccount DmPairing ["ann@example.org"] ["general"] in
  let msg := sampleStreamMessage 10 42 "general" "deploy now" in
  ∃ ctx, outcome (handleMessage account sampleProfile 1000 msg emptyWorld) = Dispatched ctx
         ∧ CommandAuthorized ctx = true.
Proof.
  intros account msg. eexists. split; [vm_compute; reflexivity|].
  match goal with
  | |- CommandAuthorized ?ctx = true =>
      destruct (command_authorized account sampleProfile 1000 msg emptyWorld ctx)
        as [_ H]; [vm_compute; reflexivity|]
  end.
  apply H. right. right. left. vm_compute. constructor.
Defined.

(** * Further properties *)

(** ** Allow-lists, continued *)

Lemma NoDup_uniq l : NoDup (uniq l).
Proof.
  induction l as [|a l IH]; cbn [uniq]; constructor.
  - rewrite list_elem_of_filter. naive_solver.
  - by apply NoDup_filter.
Qed.

Lemma uniq_sublist l : uniq l `sublist_of` l.
Proof.
  induction l as [|a l IH]; cbn [uniq]; [done|].
  apply sublist_skip. etrans; [apply sublist_filter|done].
Qed.

Lemma filter_not_in_nil (l : list string) : filter (λ y, y ∉ @nil string) l = l.
Proof.
  induction l as [|x l IH]; [done|].
  rewrite filter_cons, decide_True by apply not_elem_of_nil. by rewrite IH.
Qed.

(** A set keeps the order of insertion: what follows adds the entries
    not seen before. *)
Lemma uniq_app (a b : list string) :
  uniq (a ++ b) = uniq a ++ filter (λ y, y ∉ a) (uniq b).
Proof.
  induction a as [|c a IH]; cbn [app uniq].
  - by rewrite filter_not_in_nil.
  - rewrite IH, filter_app, list_filter_filter. do 2 f_equal.
    apply list_filter_iff. intros y. rewrite not_elem_of_cons. naive_solver.
Qed.

Lemma uniq_first_occurrence (r1 r2 : list string) x :
  x ∉ r1 →
  ∃ m2, uniq (r1 ++ x :: r2) = uniq r1 ++ x :: m2.
Proof.
  intros Hx. rewrite uniq_app. cbn [uniq].
  rewrite filter_cons, decide_True by done. by eexists.
Qed.

Lemma normalizeAllowList_snoc entries e :
  normalizeAllowList (entries ++ [e])
  = normalizeAllowList entries
    ++ (if bool_decide (normalizeAllowEntry e = ""
                        ∨ normalizeAllowEntry e ∈ normalizeAllowList entries)
        then [] else [normalizeAllowEntry e]).
Proof.
  unfold normalizeAllowList. rewrite fmap_app, filter_app, uniq_app. f_equal.
  cbn [fmap list_fmap]. generalize (normalizeAllowEntry e). intros x.
  generalize (filter (λ e0, truthy e0 = true) (normalizeAllowEntry <$> entries)).
  intros l. rewrite filter_cons, filter_nil.
  destruct (decide (truthy x = true)) as [Ht|Ht].
  - cbn [uniq]. rewrite filter_nil, filter_cons, filter_nil.
    apply truthy_true in Ht.
    destruct (decide (x ∉ l)) as [Hin|Hin].
    + rewrite bool_decide_eq_false_2; [done|]. rewrite elem_of_uniq. naive_solver.
    + rewrite bool_decide_eq_true_2; [done|]. right. rewrite elem_of_uniq.
      by destruct (decide (x ∈ l)).
  - cbn [uniq]. rewrite filter_nil. apply not_true_is_false, truthy_false in Ht.
    rewrite bool_decide_eq_true_2; [done|]. by left.
Qed.

(** X1.  The normalised allow-list holds no entry twice and no empty
    entry; its entries are the normalised inputs that are not empty, in
    the order of their first occurrence: an input added at the end adds
    its normalised form at the end when that is not empty and not yet
    in the list, and changes nothing otherwise. *)
Theorem normalizeAllowList_distinct entries :
  NoDup (normalizeAllowList entries)
  ∧ ("" ∉ normalizeAllowList entries)
  ∧ (∀ x, x ∈ normalizeAllowList entries
          ↔ x ≠ "" ∧ ∃ e, e ∈ entries ∧ normalizeAllowEntry e = x)
  ∧ (normalizeAllowList entries `sublist_of` (normalizeAllowEntry <$> entries))
  ∧ (∀ e, normalizeAllowList (entries ++ [e])
          = normalizeAllowList entries
            ++ (if bool_decide (normalizeAllowEntry e = ""
                                ∨ normalizeAllowEntry e ∈ normalizeAllowList entries)
                then [] else [normalizeAllowEntry e]))
  ∧ (∀ more, normalizeAllowList entries `prefix_of` normalizeAllowList (entries ++ more)).
Proof.
  split_and!.
  - apply NoDup_uniq.
  - rewrite elem_of_normalizeAllowList. naive_solver.
  - intros x. apply elem_of_normalizeAllowList.
  - unfold normalizeAllowList. etrans; [apply uniq_sublist|apply sublist_filter].
  - apply normalizeAllowList_snoc.
  - intros more. unfold normalizeAllowList. rewrite fmap_app, filter_app, uniq_app.
    by eexists.
Qed.

(** The membership test on a non-empty list looks for a wildcard or for
    one of the three normalised names of the sender. *)
Lemma isSenderAllowed_elem p allowFrom :
  isSenderAllowed p allowFrom = true ↔
  "*" ∈ allowFrom
  ∨ normalizeAllowEntry (senderId p) ∈ allowFrom
  ∨ (truthy (senderEmail p) = true ∧ normalizeAllowEntry (senderEmail p) ≠ ""
     ∧ normalizeAllowEntry (senderEmail p) ∈ allowFrom)
  ∨ (truthy (senderName p) = true ∧ normalizeAllowEntry (senderName p) ≠ ""
     ∧ normalizeAllowEntry (senderName p) ∈ allowFrom).
Proof.
  unfold isSenderAllowed.
  case_bool_decide as Hlen.
  { destruct allowFrom; [|done]. split; [done|]. rewrite !elem_of_nil. naive_solver. }
  case_bool_decide as Hstar; [naive_solver|].
  rewrite existsb_exists. setoid_rewrite <- list_elem_of_In.
  split.
  - intros (e & He & Hm).
    rewrite !orb_true_iff, !andb_true_iff, !bool_decide_eq_true in Hm.
    destruct Hm as [[->|[Hn ->]]|[Hn ->]].
    + right. by left.
    + right. right. left. destruct (truthy (senderEmail p)); [|done].
      split_and!; [done| |done]. by apply truthy_true.
    + right. right. right. destruct (truthy (senderName p)); [|done].
      split_and!; [done| |done]. by apply truthy_true.
  - intros [?|[Hi|[(Ht & Hn & He)|(Ht & Hn & He)]]]; [done| | |].
    + eexists. split; [exact Hi|]. by rewrite bool_decide_eq_true_2.
    + eexists. split; [exact He|]. rewrite Ht.
      rewrite (proj2 (truthy_true _) Hn), (bool_decide_eq_true_2 _ eq_refl).
      by rewrite orb_true_r.
    + eexists. split; [exact He|]. rewrite Ht.
      rewrite (proj2 (truthy_true _) Hn), (bool_decide_eq_true_2 _ eq_refl).
      by rewrite orb_true_r.
Qed.

(** X2.  Entries added to an allow-list never take access away, and the
    order of the entries plays no part. *)
Theorem isSenderAllowed_mono p (allowFrom allowFrom' : list string) :
  allowFrom ⊆ allowFrom' →
  isSenderAllowed p allowFrom = true →
  isSenderAllowed p allowFrom' = true.
Proof. intros Hsub. rewrite !isSenderAllowed_elem. set_solver. Qed.

Lemma isSenderAllowed_mono_witness :
  ["42"] ⊆ ["bob"; "42"]
  ∧ isSenderAllowed {| senderId := "42"; senderEmail := ""; senderName := "" |}
      ["bob"; "42"] = true.
Proof.
  assert (H : ["42"] ⊆ ["bob"; "42"]) by set_solver.
  split; [exact H|].
  apply (isSenderAllowed_mono _ ["42"] ["bob"; "42"] H). reflexivity.
Defined.

Lemma isSenderAllowed_app p (l1 l2 : list string) :
  isSenderAllowed p (l1 ++ l2) = isSenderAllowed p l1 || isSenderAllowed p l2.
Proof.
  apply eq_true_iff_eq. rewrite orb_true_iff, !isSenderAllowed_elem.
  setoid_rewrite elem_of_app. naive_solver.
Qed.

Lemma isSenderAllowed_uniq p l : isSenderAllowed p (uniq l) = isSenderAllowed p l.
Proof.
  apply eq_true_iff_eq. rewrite !isSenderAllowed_elem.
  by setoid_rewrite elem_of_uniq.
Qed.

Lemma filter_ne_id (a : string) (l : list string) : a ∉ l → filter (λ y, y ≠ a) l = l.
Proof.
  induction l as [|b l IH]; [done|]. intros [Hne Ha]%not_elem_of_cons.
  rewrite filter_cons, decide_True by congruence. f_equal. by apply IH.
Qed.

Lemma uniq_NoDup_id l : NoDup l → uniq l = l.
Proof.
  induction 1 as [|a l Ha _ IH]; cbn [uniq]; [done|].
  by rewrite IH, filter_ne_id.
Qed.

(** X3.  The effective allow-list admits a sender exactly when the
    configured list or the list of the store does; a store that cannot be
    read counts as empty. *)
Theorem effective_allow_is_union `{Runtime Store} account (st : Store) p :
  isSenderAllowed p (effectiveAllowFromOf account st)
  = isSenderAllowed p (normalizeAllowList (default [] (cfg_allowFrom (config account))))
    || isSenderAllowed p (normalizeAllowList (default [] (readAllowFromStore st)))
  ∧ (readAllowFromStore st = None →
     effectiveAllowFromOf account st
     = normalizeAllowList (default [] (cfg_allowFrom (config account)))).
Proof.
  unfold effectiveAllowFromOf, getEffectiveAllowFrom. split.
  - by rewrite isSenderAllowed_uniq, isSenderAllowed_app.
  - intros ->. cbn [default]. unfold normalizeAllowList at 2. cbn [fmap list_fmap].
    rewrite filter_nil. cbn [uniq]. rewrite app_nil_r.
    apply uniq_NoDup_id, NoDup_uniq.
Qed.

(** ** The cleaned body, continued *)

Lemma collapseGo_blankSeparated b s : blankSeparatedFrom b (collapseGo b s) = true.
Proof.
  revert b. induction s as [|c r IH]; intros b; [done|].
  cbn [collapseGo]. destruct (isWhiteSpace c) eqn:Ec.
  - destruct b; [apply IH|].
    cbn [blankSeparatedFrom]. change (isWhiteSpace " ") with true.
    cbn [andb negb]. by rewrite Ascii.eqb_refl, IH.
  - cbn [blankSeparatedFrom]. rewrite Ec. apply IH.
Qed.

Lemma blankSeparated_trimStart b s :
  blankSeparatedFrom b s = true → blankSeparatedFrom true (trimStart s) = true.
Proof.
  destruct s as [|c r]; [done|]. cbn [blankSeparatedFrom trimStart].
  destruct (isWhiteSpace c) eqn:Ec.
  - rewrite !andb_true_iff. intros [_ Hr]. destruct r as [|d r]; [done|].
    cbn [blankSeparatedFrom trimStart] in *. destruct (isWhiteSpace d) eqn:Ed.
    + by rewrite andb_false_r in Hr.
    + cbn [blankSeparatedFrom]. by rewrite Ed.
  - intros Hr. cbn [blankSeparatedFrom]. by rewrite Ec.
Qed.

Lemma blankSeparated_trimEnd b s :
  blankSeparatedFrom b s = true →
  trimEnd s = "" ∨ singleSpacedFrom b (trimEnd s) = true.
Proof.
  revert b. induction s as [|c r IH]; intros b; [by left|].
  cbn [blankSeparatedFrom trimEnd]. destruct (isWhiteSpace c) eqn:Ec.
  - rewrite !andb_true_iff. intros [[Hc Hb] Hr].
    destruct (IH _ Hr) as [->|Hs]; [by left|]. right.
    destruct (trimEnd r) as [|d t] eqn:Et; [done|].
    cbn [singleSpacedFrom]. rewrite Ec, Hc, Hb. exact Hs.
  - intros Hr. right. destruct (IH _ Hr) as [->|Hs].
    + cbn [singleSpacedFrom]. by rewrite Ec.
    + destruct (trimEnd r) as [|d t] eqn:Et; cbn [singleSpacedFrom]; by rewrite Ec.
Qed.

Lemma singleSpaced_truthy s : singleSpaced s = true → truthy s = true.
Proof. by destruct s. Qed.

Lemma stripMention_named text botName :
  truthy botName = true →
  stripMention text botName = "" ∨ singleSpaced (stripMention text botName) = true.
Proof.
  unfold stripMention. intros ->. unfold trim, singleSpaced.
  apply blankSeparated_trimEnd. eapply blankSeparated_trimStart.
  apply collapseGo_blankSeparated.
Qed.

(** X4.  With a bot name, the cleaned body is empty or single-spaced: no
    white space at either end, and inside no white space but single
    blanks.  Without a bot name it is the trimmed text. *)
Theorem stripMention_single_spaced text botName :
  (truthy botName = true →
   stripMention text botName = "" ∨ singleSpaced (stripMention text botName) = true)
  ∧ (botName = "" → stripMention text botName = trim text)
  ∧ trim (stripMention text botName) = stripMention text botName.
Proof.
  split_and!.
  - apply stripMention_named.
  - unfold stripMention. by intros ->.
  - unfold stripMention. destruct (truthy botName); apply trim_idemp.
Qed.

Section BodyInvariant.
Context `{Runtime Store}.

(** X5.  The body of a context handed to reply generation is never empty;
    when the bot has a display name it is single-spaced.  The three body
    fields of the context hold the same text. *)
Theorem dispatched_body_clean account profile now msg (w : World Store) ctx :
  outcome (handleMessage account profile now msg w) = Dispatched ctx →
  BodyForAgent ctx ≠ ""
  ∧ (full_name profile ≠ "" → singleSpaced (BodyForAgent ctx) = true)
  ∧ RawBody ctx = BodyForAgent ctx
  ∧ CommandBody ctx = BodyForAgent ctx.
Proof.
  intros Ho.
  pose proof (handleMessage_passed account profile now msg w) as Hp.
  cbv zeta in Hp. rewrite Ho in Hp. specialize (Hp eq_refl).
  destruct (truthy (stripMention _ _)) eqn:Ht; [|done]. injection Hp as ->.
  unfold buildContext. cbn [fst BodyForAgent RawBody CommandBody].
  split_and!; [by apply truthy_true| |done..].
  intros Hn%truthy_true.
  destruct (stripMention_named (trim (content msg)) (full_name profile) Hn) as [He|?];
    [|done].
  rewrite He in Ht. done.
Qed.
End BodyInvariant.

Lemma dispatched_body_clean_witness :
  let account := sampleAccount DmOpen [] [] in
  let msg := sampleDm 10 42 "  hello   @**bot**  world " in
  ∃ ctx, outcome (handleMessage account sampleProfile 1000 msg emptyWorld) = Dispatched ctx
         ∧ BodyForAgent ctx = "hello world"
         ∧ BodyForAgent ctx ≠ "".
Proof.
  intros account msg. eexists. split; [vm_compute; reflexivity|].
  split; [reflexivity|].
  match goal with
  | |- BodyForAgent ?ctx ≠ "" =>
      apply (dispatched_body_clean account sampleProfile 1000 msg emptyWorld ctx)
  end.
  vm_compute. reflexivity.
Defined.

(** ** Numerals *)

Lemma pretty_N_char_numeral x : isNumeralChar (pretty_N_char x) = true.
Proof. unfold pretty_N_char. by repeat case_match. Qed.

Lemma pretty_N_go_numeral x s :
  allChars isNumeralChar s = true → allChars isNumeralChar (pretty_N_go x s) = true.
Proof.
  revert s. induction (N.lt_wf_0 x) as [x _ IH]; intros s Hs.
  assert (x = 0 ∨ 0 < x)%N as [->|?] by lia.
  - by rewrite pretty_N_go_0.
  - rewrite pretty_N_go_step by done. apply IH.
    { by apply N.div_lt. }
    cbn [allChars]. by rewrite pretty_N_char_numeral.
Qed.

Lemma pretty_N_numeral (x : N) : allChars isNumeralChar (pretty x) = true.
Proof.
  unfold pretty, pretty_N. case_decide; [done|]. by apply pretty_N_go_numeral.
Qed.

(** The numeral of an integer is made of digits and a sign. *)
Lemma pretty_Z_numeral (x : Z) : allChars isNumeralChar (pretty x) = true.
Proof.
  destruct x as [|p|p]; [done| |].
  - apply (pretty_N_numeral (Npos p)).
  - change (pretty (Zneg p)) with (String "-" (pretty (Npos p))).
    cbn [allChars]. by rewrite (pretty_N_numeral (Npos p)).
Qed.

Lemma isNumeralChar_not_colon c : isNumeralChar c = true → Ascii.eqb c ":" = false.
Proof. destruct c as [[] [] [] [] [] [] [] []]; by cbn. Qed.

Lemma isNumeralChar_not_space c : isNumeralChar c = true → isWhiteSpace c = false.
Proof. destruct c as [[] [] [] [] [] [] [] []]; by cbn. Qed.

Lemma numeral_no_colon s : allChars isNumeralChar s = true → indexOfColon s = None.
Proof.
  induction s as [|c r IH]; [done|]. cbn [allChars indexOfColon].
  intros [Hc Hr]%andb_true_iff. by rewrite (isNumeralChar_not_colon c Hc), IH.
Qed.

Lemma numeral_trimEnd s : allChars isNumeralChar s = true → trimEnd s = s.
Proof.
  induction s as [|c r IH]; [done|]. cbn [allChars trimEnd].
  intros [Hc Hr]%andb_true_iff. rewrite (IH Hr).
  destruct r; [|done]. by rewrite (isNumeralChar_not_space c Hc).
Qed.

Lemma numeral_trim s : allChars isNumeralChar s = true → trim s = s.
Proof.
  intros Hs. unfold trim. destruct s as [|c r]; [done|].
  pose proof Hs as [Hc _]%andb_true_iff. cbn [trimStart].
  rewrite (isNumeralChar_not_space c Hc). by apply numeral_trimEnd.
Qed.

(** ** The dedup cache, continued *)

Lemma append_cons (x : ascii) (a b : string) : String x a +:+ b = String x (a +:+ b).
Proof. done. Qed.

Lemma append_inv_head (a b c : string) : a +:+ b = a +:+ c → b = c.
Proof.
  induction a as [|x a IH]; [done|]. rewrite !append_cons. intros [=]. by apply IH.
Qed.

Lemma indexOfColon_app_colon (a b : string) : indexOfColon (a +:+ ":" +:+ b) ≠ None.
Proof.
  induction a as [|x a IH]; [done|]. rewrite append_cons. cbn [indexOfColon].
  destruct (Ascii.eqb x ":"); [done|]. by destruct (indexOfColon _).
Qed.

Lemma colon_split_inj (a1 a2 d1 d2 : string) :
  indexOfColon d1 = None → indexOfColon d2 = None →
  a1 +:+ ":" +:+ d1 = a2 +:+ ":" +:+ d2 → a1 = a2 ∧ d1 = d2.
Proof.
  intros H1 H2. revert a2.
  induction a1 as [|x a1 IH]; intros [|y a2]; rewrite ?append_cons.
  - intros Heq. change (String ":" d1 = String ":" d2) in Heq. by injection Heq as ->.
  - intros Heq. change (String ":" d1 = String y (a2 +:+ ":" +:+ d2)) in Heq.
    injection Heq as <- Hd. subst d1. by destruct (indexOfColon_app_colon a2 d2).
  - intros Heq. change (String x (a1 +:+ ":" +:+ d1) = String ":" d2) in Heq.
    injection Heq as -> Hd. subst d2. by destruct (indexOfColon_app_colon a1 d1).
  - intros [= -> Hr]. destruct (IH a2 Hr) as [-> ->]. done.
Qed.

(** Keys that were never checked are not in the map. *)
Lemma dedupeCheck_lookup_Some (key : string) (now : Z) (m : gmap string Z) k t :
  (dedupeCheck key now m).2 !! k = Some t → k = key ∨ m !! k = Some t.
Proof.
  destruct (decide (k = key)) as [->|Hne]; [by left|]. right.
  rewrite dedupeCheck_others in H by done.
  case_bool_decide; [|done]. destruct (m !! k); [|done]. by case_bool_decide.
Qed.

Lemma runChecks_lookup_Some calls (m : gmap string Z) (k : string) (t : Z) :
  runChecks calls m !! k = Some t → k ∈ calls.*1 ∨ m !! k = Some t.
Proof.
  revert m. induction calls as [|[k' t'] calls IH]; intros m; [by right|].
  unfold runChecks in *. cbn [foldl fmap list_fmap fst].
  intros [Hin|[->|Hm]%dedupeCheck_lookup_Some]%IH; set_solver.
Qed.

(** X6.  The cache answers "already seen" only for a key that was checked
    before or was in the map from the start: a key checked for the first
    time is never taken for a duplicate, whatever was checked before it. *)
Theorem dedupe_no_false_positive calls (m : gmap string Z) (key : string) (now : Z) :
  key ∉ calls.*1 →
  m !! key = None →
  (dedupeCheck key now (runChecks calls m)).1 = false.
Proof.
  intros Hk Hm. apply dedupeCheck_first.
  destruct (runChecks calls m !! key) as [t|] eqn:E; [|done].
  apply runChecks_lookup_Some in E as [?|?]; [done|congruence].
Qed.

Lemma dedupe_no_false_positive_witness :
  (dedupeCheck "default:12" 3000
     (runChecks [("default:10", 1000); ("default:11", 2000)] ∅)).1 = false.
Proof.
  apply dedupe_no_false_positive; [|apply lookup_empty].
  cbn. intros [[=]|[[=]|[]%elem_of_nil]%elem_of_cons]%elem_of_cons.
Defined.

(** X7.  The dedup key tells apart any two messages that differ in their
    account or in their identifier. *)
Theorem dedupeKeyOf_inj account1 account2 msg1 msg2 :
  dedupeKeyOf account1 msg1 = dedupeKeyOf account2 msg2
  ↔ accountId account1 = accountId account2 ∧ msg_id msg1 = msg_id msg2.
Proof.
  unfold dedupeKeyOf. split.
  - intros [Ha Hp]%colon_split_inj; try (apply numeral_no_colon, pretty_Z_numeral).
    split; [done|]. by apply (inj pretty).
  - by intros [-> ->].
Qed.

(** ** Targets *)

Section TargetProperties.
Variable recipientsJson : string → string.

(** X8.  Parsing a target fails for a blank target only, and then with
    the error that a target is required; every other text is a target. *)
Theorem parseZulipTarget_fails_iff_blank raw :
  (trim raw = "" → parseZulipTarget recipientsJson raw = inl TargetRequired)
  ∧ (trim raw ≠ "" → ∃ target, parseZulipTarget recipientsJson raw = inr target)
  ∧ (∀ e, parseZulipTarget recipientsJson raw = inl e → e = TargetRequired ∧ trim raw = "").
Proof.
  unfold parseZulipTarget. destruct (truthy (trim raw)) eqn:Ht; cbn [negb].
  - apply truthy_true in Ht. split_and!; [done| |].
    + intros _. destruct (matchPrefixCI "stream:" (trim raw)).
      * destruct (indexOfColon _); by eexists.
      * destruct (_ || _); by eexists.
    + intros e. destruct (matchPrefixCI "stream:" (trim raw)).
      * by destruct (indexOfColon _).
      * by destruct (_ || _).
  - apply truthy_false in Ht. split_and!; [done|done|]. by intros e [= <-].
Qed.

Lemma orNoTopic_nonempty s : orNoTopic s ≠ "".
Proof. unfold orNoTopic. by destruct s. Qed.

(** X9.  A parsed stream target always has a topic, and the topic is not
    empty; a parsed direct target has none. *)
Theorem parseZulipTarget_topic raw target :
  parseZulipTarget recipientsJson raw = inr target →
  match target_type target with
  | ToStream => ∃ t, target_topic target = Some t ∧ t ≠ ""
  | ToDirect => target_topic target = None
  end.
Proof.
  unfold parseZulipTarget. destruct (truthy (trim raw)); cbn [negb]; [|done].
  destruct (matchPrefixCI "stream:" (trim raw)) as [rest|].
  - destruct (indexOfColon rest); intros [= <-]; cbn; eexists; split; try done.
    apply orNoTopic_nonempty.
  - destruct (_ || _); intros [= <-]; cbn; [done|]. by eexists.
Qed.
End TargetProperties.

Lemma parseZulipTarget_topic_witness :
  ∃ t, Some "(no topic)" = Some t ∧ t ≠ "".
Proof.
  exact (parseZulipTarget_topic sampleRecipientsJson "stream:general:"
           {| target_type := ToStream; target_to := "general";
              target_topic := Some "(no topic)" |} eq_refl).
Defined.

(** ** From the reply target back to the destination *)

Lemma append_assoc (a b c : string) : (a +:+ b) +:+ c = a +:+ b +:+ c.
Proof.
  induction a as [|x a IH]; [done|].
  rewrite (append_cons x a b), (append_cons x (a +:+ b) c), (append_cons x a (b +:+ c)).
  by rewrite IH.
Qed.

Lemma append_nonempty_r (a b : string) : b ≠ "" → a +:+ b ≠ "".
Proof. by destruct a. Qed.

Lemma trimEnd_nonempty_cons c r : trimEnd r ≠ "" → trimEnd (String c r) = String c (trimEnd r).
Proof. cbn [trimEnd]. by destruct (trimEnd r). Qed.

Lemma trimEnd_colon t : trimEnd (String ":" t) = String ":" (trimEnd t).
Proof. cbn [trimEnd]. by destruct (trimEnd t). Qed.

(** Trimming at the end does not reach behind a colon. *)
Lemma trimEnd_app_colon a t : trimEnd (a +:+ ":" +:+ t) = a +:+ ":" +:+ trimEnd t.
Proof.
  induction a as [|x a IH].
  - apply trimEnd_colon.
  - rewrite !(append_cons x a), trimEnd_nonempty_cons; rewrite IH; [done|].
    by apply append_nonempty_r.
Qed.

Lemma sliceFrom_cons k c r : sliceFrom (S k) (String c r) = sliceFrom k r.
Proof. done. Qed.

Lemma indexOfColon_app_None n x :
  indexOfColon n = None →
  indexOfColon (n +:+ ":" +:+ x) = Some (String.length n)
  ∧ sliceTo (String.length n) (n +:+ ":" +:+ x) = n
  ∧ sliceFrom (S (String.length n)) (n +:+ ":" +:+ x) = x.
Proof.
  induction n as [|c n IH]; [done|].
  rewrite (append_cons c n). cbn [indexOfColon String.length sliceTo].
  rewrite sliceFrom_cons.
  destruct (Ascii.eqb c ":"); [done|].
  destruct (indexOfColon n); [done|]. intros _.
  destruct (IH eq_refl) as (H1 & H2 & H3). by rewrite H1, H2, H3.
Qed.

Lemma indexOfColon_app_Some n x i :
  indexOfColon n = Some i →
  indexOfColon (n +:+ x) = Some i
  ∧ sliceTo i (n +:+ x) = sliceTo i n
  ∧ sliceFrom (S i) (n +:+ x) = sliceFrom (S i) n +:+ x
  ∧ (i < String.length n)%nat
  ∧ String.length (sliceTo i n) = i.
Proof.
  revert i. induction n as [|c n IH]; intros i; [done|].
  rewrite (append_cons c n). cbn [indexOfColon String.length].
  destruct (Ascii.eqb c ":").
  - intros [= <-]. cbn [sliceTo String.length]. rewrite !sliceFrom_cons.
    split_and!; (done || lia).
  - destruct (indexOfColon n) as [j|] eqn:Ej; [|done]. intros [= <-].
    destruct (IH j eq_refl) as (H1 & H2 & H3 & H4 & H5).
    rewrite H1. cbn [fmap option_fmap option_map sliceTo String.length].
    rewrite !(sliceFrom_cons (S j)), H2, H3, H5. split_and!; (done || lia).
Qed.

Section RoundTrip.
Variable recipientsJson : string → string.

(** A target [stream:<name>:<topic>] whose name holds no colon. *)
Lemma parse_stream_target name topic :
  indexOfColon name = None →
  parseZulipTarget recipientsJson ("stream:" +:+ name +:+ ":" +:+ topic)
  = inr {| target_type := ToStream; target_to := name;
           target_topic := Some (orNoTopic (trimEnd topic)) |}.
Proof.
  intros Hn. unfold parseZulipTarget.
  assert (Ht : trim ("stream:" +:+ name +:+ ":" +:+ topic)
               = "stream:" +:+ name +:+ ":" +:+ trimEnd topic).
  { unfold trim. change (trimStart ("stream:" +:+ name +:+ ":" +:+ topic))
      with ("stream:" +:+ name +:+ ":" +:+ topic).
    rewrite <- append_assoc, trimEnd_app_colon. by rewrite append_assoc. }
  rewrite Ht.
  change (truthy ("stream:" +:+ name +:+ ":" +:+ trimEnd topic)) with true.
  change (matchPrefixCI "stream:" ("stream:" +:+ name +:+ ":" +:+ trimEnd topic))
    with (Some (name +:+ ":" +:+ trimEnd topic)).
  cbn [negb].
  destruct (indexOfColon_app_None name (trimEnd topic) Hn) as (H1 & H2 & H3).
  by rewrite H1, H2, H3.
Qed.

(** A target [stream:<name>:<topic>] whose name holds a colon is cut at
    the first colon of the name. *)
Lemma parse_stream_target_colon name topic i :
  indexOfColon name = Some i →
  parseZulipTarget recipientsJson ("stream:" +:+ name +:+ ":" +:+ topic)
  = inr {| target_type := ToStream; target_to := sliceTo i name;
           target_topic := Some (sliceFrom (S i) name +:+ ":" +:+ trimEnd topic) |}.
Proof.
  intros Hn. unfold parseZulipTarget.
  assert (Ht : trim ("stream:" +:+ name +:+ ":" +:+ topic)
               = "stream:" +:+ name +:+ ":" +:+ trimEnd topic).
  { unfold trim. change (trimStart ("stream:" +:+ name +:+ ":" +:+ topic))
      with ("stream:" +:+ name +:+ ":" +:+ topic).
    rewrite <- append_assoc, trimEnd_app_colon. by rewrite append_assoc. }
  rewrite Ht.
  change (truthy ("stream:" +:+ name +:+ ":" +:+ trimEnd topic)) with true.
  change (matchPrefixCI "stream:" ("stream:" +:+ name +:+ ":" +:+ trimEnd topic))
    with (Some (name +:+ ":" +:+ trimEnd topic)).
  cbn [negb].
  destruct (indexOfColon_app_Some name (":" +:+ trimEnd topic) i Hn)
    as (H1 & H2 & H3 & _). rewrite H1, H2, H3. do 3 f_equal.
  unfold orNoTopic.
  destruct (sliceFrom (S i) name +:+ ":" +:+ trimEnd topic) eqn:E; [|done].
  by apply append_nonempty_r in E.
Qed.

(** A target [dm:<numeral>]. *)
Lemma parse_dm_target sid :
  allChars isNumeralChar sid = true →
  parseZulipTarget recipientsJson ("dm:" +:+ sid)
  = inr {| target_type := ToDirect; target_to := recipientsJson sid;
           target_topic := None |}.
Proof.
  intros Hs. unfold parseZulipTarget.
  assert (Ht : trim ("dm:" +:+ sid) = "dm:" +:+ sid).
  { unfold trim. change (trimStart ("dm:" +:+ sid)) with ("dm:" +:+ sid).
    change ("dm:" +:+ sid) with ("dm" +:+ ":" +:+ sid).
    by rewrite trimEnd_app_colon, numeral_trimEnd. }
  rewrite Ht. change (truthy ("dm:" +:+ sid)) with true.
  change (matchPrefixCI "stream:" ("dm:" +:+ sid)) with (@None string).
  change (startsWithLower "dm:" ("dm:" +:+ sid)) with true.
  change (indexOfColon ("dm:" +:+ sid)) with (Some 2%nat).
  cbn [negb orb]. change (sliceFrom 3 ("dm:" +:+ sid)) with sid.
  by rewrite numeral_trim.
Qed.
End RoundTrip.

Section ReplyDestination.
Context `{Runtime Store}.
Variable recipientsJson : string → string.

Lemma dispatched_To account profile now msg (w : World Store) ctx :
  outcome (handleMessage account profile now msg w) = Dispatched ctx →
  To ctx = replyTarget (bool_decide (msg_type msg = TypePrivate))
             (pretty (sender_id msg)) (resolveStreamInfo msg)
  ∧ OriginatingTo ctx = To ctx.
Proof.
  intros Ho.
  pose proof (handleMessage_passed account profile now msg w) as Hp.
  cbv zeta in Hp. rewrite Ho in Hp. specialize (Hp eq_refl).
  destruct (truthy (stripMention _ _)); [|done]. by injection Hp as ->.
Qed.

(** X10.  The target written into the context parses back to where the
    message came from: for a direct message the sender, for a stream
    message whose stream name holds no colon that stream, with the topic
    of the message up to white space at its end, or "(no topic)" when
    nothing is left of it. *)
Theorem reply_target_round_trip account profile now msg (w : World Store) ctx :
  outcome (handleMessage account profile now msg w) = Dispatched ctx →
  match resolveStreamInfo msg with
  | None =>
      parseZulipTarget recipientsJson (To ctx)
      = inr {| target_type := ToDirect;
               target_to := recipientsJson (pretty (sender_id msg));
               target_topic := None |}
  | Some si =>
      indexOfColon (streamName si) = None →
      parseZulipTarget recipientsJson (To ctx)
      = inr {| target_type := ToStream;
               target_to := streamName si;
               target_topic := Some (orNoTopic (trimEnd (topic si))) |}
  end.
Proof.
  intros [-> _]%dispatched_To. unfold resolveStreamInfo, replyTarget.
  destruct (msg_type msg).
  - rewrite (bool_decide_eq_false_2 (TypeStream = TypePrivate)) by done.
    cbn [streamName topic]. apply parse_stream_target.
  - rewrite (bool_decide_eq_true_2 (TypePrivate = TypePrivate)) by done.
    apply parse_dm_target, pretty_Z_numeral.
Qed.

(** X11.  A stream name with a colon does not come back: the target of
    the context parses to the stream named by what stands before the first
    colon, and the rest of the name becomes the start of the topic. *)
Theorem reply_target_colon_in_name account profile now msg (w : World Store) ctx si i :
  outcome (handleMessage account profile now msg w) = Dispatched ctx →
  resolveStreamInfo msg = Some si →
  indexOfColon (streamName si) = Some i →
  ∃ target,
    parseZulipTarget recipientsJson (To ctx) = inr target
    ∧ target_type target = ToStream
    ∧ target_to target = sliceTo i (streamName si)
    ∧ target_to target ≠ streamName si
    ∧ target_topic target
      = Some (sliceFrom (S i) (streamName si) +:+ ":" +:+ trimEnd (topic si)).
Proof.
  intros [-> _]%dispatched_To Hsi Hi. rewrite Hsi.
  assert (msg_type msg = TypeStream) as ->.
  { unfold resolveStreamInfo in Hsi. by destruct (msg_type msg). }
  rewrite (bool_decide_eq_false_2 (TypeStream = TypePrivate)) by done.
  unfold replyTarget. rewrite (parse_stream_target_colon _ _ _ i Hi).
  eexists. split_and!; try done. cbn [target_to].
  destruct (indexOfColon_app_Some (streamName si) "" i Hi) as (_ & _ & _ & Hlt & Hlen).
  intros E. rewrite E in Hlen. lia.
Qed.
End ReplyDestination.

Lemma reply_target_round_trip_witness :
  let account := sampleAccount DmOpen [] ["general"] in
  let msg := sampleStreamMessage 10 42 "general" "hello" in
  ∃ ctx, outcome (handleMessage account sampleProfile 1000 msg emptyWorld) = Dispatched ctx
         ∧ parseZulipTarget sampleRecipientsJson (To ctx)
           = inr {| target_type := ToStream; target_to := "general";
                    target_topic := Some "chat" |}.
Proof.
  intros account msg. eexists. split; [vm_compute; reflexivity|].
  match goal with
  | |- parseZulipTarget _ (To ?ctx) = _ =>
      apply (reply_target_round_trip sampleRecipientsJson account sampleProfile 1000 msg
               emptyWorld ctx)
  end.
  - vm_compute. reflexivity.
  - reflexivity.
Defined.

Lemma reply_target_colon_in_name_witness :
  let account := sampleAccount DmOpen [] ["ops:eu"] in
  let msg := sampleStreamMessage 10 42 "ops:eu" "hello" in
  ∃ ctx target,
    outcome (handleMessage account sampleProfile 1000 msg emptyWorld) = Dispatched ctx
    ∧ parseZulipTarget sampleRecipientsJson (To ctx) = inr target
    ∧ target_to target = "ops"
    ∧ target_topic target = Some "eu:chat".
Proof.
  intros account msg. eexists.
  match goal with
  | |- ∃ target, outcome ?r = Dispatched ?ctx ∧ _ =>
      assert (Ho : outcome r = Dispatched ctx) by (vm_compute; reflexivity)
  end.
  destruct (reply_target_colon_in_name sampleRecipientsJson account sampleProfile 1000 msg
              emptyWorld _ {| streamName := "ops:eu"; topic := "chat" |} 3%nat Ho
              eq_refl eq_refl) as (target & Hp & _ & Hto & _ & Htopic).
  exists target. split_and!; [exact Ho|exact Hp|exact Hto|exact Htopic].
Defined.

(** ** The client *)

Lemma stripTrailingSlashes_last s : lastChar (stripTrailingSlashes s) ≠ Some "/"%char.
Proof.
  induction s as [|c r IH]; [done|]. cbn [stripTrailingSlashes].
  destruct (stripTrailingSlashes r) as [|d t] eqn:E.
  - destruct (Ascii.eqb c "/") eqn:Ec; [done|]. cbn [lastChar].
    intros [= ->]. by rewrite Ascii.eqb_refl in Ec.
  - exact IH.
Qed.

Lemma stripTrailingSlashes_empty s :
  stripTrailingSlashes s = "" ↔ allChars (λ c, Ascii.eqb c "/") s = true.
Proof.
  induction s as [|c r IH]; [done|]. cbn [stripTrailingSlashes allChars].
  destruct (stripTrailingSlashes r) as [|d t] eqn:E.
  - destruct (Ascii.eqb c "/"); cbn [andb]; [|done]. split; [|done].
    intros _. by apply IH.
  - split; [done|]. intros [_ Hr%IH]%andb_true_iff. done.
Qed.

Section ClientProperties.

(** X12.  A client is created unless the server address is blank or made
    of slashes only, or the bot address or the key is blank.  The server
    address of a client is not empty and does not end with a slash, so the
    address of a request has a single slash where the two parts meet; the
    bot address and the key of a client are trimmed and not empty. *)
Theorem createZulipClient_checked url email key :
  match createZulipClient url email key with
  | inl ServerUrlRequired =>
      allChars (λ c, Ascii.eqb c "/") (trim url) = true
  | inl BotCredentialsRequired =>
      allChars (λ c, Ascii.eqb c "/") (trim url) = false
      ∧ (trim email = "" ∨ trim key = "")
  | inr client =>
      client_serverUrl client = stripTrailingSlashes (trim url)
      ∧ client_serverUrl client ≠ ""
      ∧ lastChar (client_serverUrl client) ≠ Some "/"%char
      ∧ client_botEmail client = trim email ∧ trim email ≠ ""
      ∧ client_apiKey client = trim key ∧ trim key ≠ ""
      ∧ (∀ path, requestUrl client path
                 = stripTrailingSlashes (trim url) +:+ "/api/v1" +:+ path)
  end.
Proof.
  unfold createZulipClient, normalizeServerUrl. cbn [fmap option_fmap option_map].
  destruct (truthy (trim url)) eqn:Hu.
  - destruct (truthy (stripTrailingSlashes (trim url))) eqn:Hs; cbn [negb].
    + apply truthy_true in Hs.
      assert (allChars (λ c, Ascii.eqb c "/") (trim url) = false) as Hn.
      { apply not_true_is_false. by rewrite <- stripTrailingSlashes_empty. }
      destruct (truthy (trim email)) eqn:He; cbn [negb orb].
      * destruct (truthy (trim key)) eqn:Hk; cbn [negb].
        -- apply truthy_true in He, Hk. cbn.
           split_and!; try done. apply stripTrailingSlashes_last.
        -- apply truthy_false in Hk. split; [done|by right].
      * apply truthy_false in He. split; [done|by left].
    + apply truthy_false in Hs. by apply stripTrailingSlashes_empty.
  - apply truthy_false in Hu. by rewrite Hu.
Qed.
End ClientProperties.

(** ** Sending, continued *)

Section SendSuccess.
Variable recipientsJson : string → string.

Lemma attachMedia_posts env content mediaUrl :
  postedMessages (attachMedia env content mediaUrl).1 = []
  ∧ (length (attachMedia env content mediaUrl).1 ≤ 1)%nat
  ∧ (mediaUrl = None → attachMedia env content mediaUrl = ([], content)).
Proof.
  unfold attachMedia. destruct mediaUrl as [url|]; cbn [fmap option_fmap option_map];
    [|cbn; split_and!; (done || lia)].
  split_and!; [| |done].
  - destruct (truthy (trim url)); cbn [negb]; [|done].
    destruct (loadWebMedia env (trim url)); [|done].
    by destruct (uploadResult env _).
  - destruct (truthy (trim url)); cbn [negb]; [|cbn; lia].
    destruct (loadWebMedia env (trim url)); [|cbn; lia].
    destruct (uploadResult env _); cbn; lia.
Qed.

(** X13.  A call of [sendZulipMessage] that returns has created its
    client and posted one message and no more: to the target the text
    parses to, with a content that is not empty, and the result is the
    identifier the server answered.  Without a media address the call
    issues no other request and the content is the trimmed text. *)
Theorem send_success_posts_once account env to text opts :
  let s := sendZulipMessage recipientsJson account env to text opts in
  isRejected s = false →
  hasClient account
  ∧ ∃ target content id,
      parseZulipTarget recipientsJson to = inr target
      ∧ content ≠ ""
      ∧ postedMessages (requests s) = [PostMessage target content]
      ∧ postResult env target content = Some id
      ∧ result s = inr (pretty id)
      ∧ (opt_mediaUrl opts = None →
         content = trim text ∧ requests s = [PostMessage target content]).
Proof.
  intros s. subst s. unfold sendZulipMessage, isRejected, hasClient, clientOf. cbv zeta.
  destruct (serverUrl account) as [url|], (botEmail account) as [email|],
           (apiKey account) as [key|]; try done.
  destruct (negb (truthy url) || negb (truthy email) || negb (truthy key)); [done|].
  destruct (createZulipClient url email key) as [e|client]; [done|].
  destruct (parseZulipTarget recipientsJson to) as [e|target]; [done|].
  destruct (attachMedia_posts env (trim text) (opt_mediaUrl opts)) as (Hp & _ & Hn).
  destruct (attachMedia env (trim text) (opt_mediaUrl opts)) as [uploads content].
  cbn [fst] in Hp.
  destruct (truthy content) eqn:Hc; cbn [negb]; [|done].
  destruct (postResult env target content) as [id|] eqn:Hr; cbn [result requests]; [|done].
  intros _. split; [by eexists|].
  exists target, content, id. split_and!; try done.
  - by apply truthy_true.
  - unfold postedMessages in *. rewrite List.filter_app, Hp. done.
  - intros Hm. specialize (Hn Hm). by injection Hn as -> ->.
Qed.
End SendSuccess.

Lemma send_success_posts_once_witness :
  let account := sampleAccount DmOpen [] [] in
  let s := sendZulipMessage sampleRecipientsJson account (sampleEnv false false true)
             "stream:general:chat" " hello "
             {| opt_accountId := None; opt_mediaUrl := None |} in
  ∃ target content (id : Z),
    postedMessages (requests s) = [PostMessage target content]
    ∧ content = "hello"
    ∧ result s = inr (pretty id).
Proof.
  intros account s.
  destruct (send_success_posts_once sampleRecipientsJson account
              (sampleEnv false false true) "stream:general:chat" " hello "
              {| opt_accountId := None; opt_mediaUrl := None |})
    as (_ & target & content & id & _ & _ & Hp & _ & Hr & Hc).
  - vm_compute. reflexivity.
  - exists target, content, id. split_and!; [exact Hp| |exact Hr].
    destruct (Hc eq_refl) as [-> _]. reflexivity.
Defined.

(** ** Accounts *)

Lemma trimmedOrUndefined_Some x s :
  trimmedOrUndefined x = Some s → s ≠ "" ∧ trim s = s ∧ ∃ raw, x = Some raw ∧ s = trim raw.
Proof.
  unfold trimmedOrUndefined. destruct x as [raw|]; cbn [fmap option_fmap option_map]; [|done].
  destruct (truthy (trim raw)) eqn:Ht; [|done]. intros [= <-].
  split_and!; [by apply truthy_true|apply trim_idemp|by eexists].
Qed.

Lemma trimmedOrUndefined_None x :
  trimmedOrUndefined x = None ↔ trim (default "" x) = "".
Proof.
  unfold trimmedOrUndefined. destruct x as [raw|]; cbn [fmap option_fmap option_map default];
    [|done].
  destruct (truthy (trim raw)) eqn:Ht.
  - apply truthy_true in Ht. split; [done|]. intros ?. done.
  - by apply truthy_false in Ht.
Qed.

Lemma parseZulipTarget_inl recipientsJson raw e :
  parseZulipTarget recipientsJson raw = inl e → e = TargetRequired.
Proof.
  unfold parseZulipTarget. destruct (truthy (trim raw)); cbn [negb]; [|by intros [= <-]].
  destruct (matchPrefixCI "stream:" (trim raw)).
  - by destruct (indexOfColon _).
  - by destruct (_ || _).
Qed.

(** The error for missing credentials is the one of an account that is
    not configured, and of no other. *)
Lemma sendZulipMessage_missing recipientsJson account env to text opts :
  result (sendZulipMessage recipientsJson account env to text opts) = inl CredentialsMissing
  ↔ isConfigured account = false.
Proof.
  unfold sendZulipMessage, isConfigured. cbv zeta.
  destruct (serverUrl account) as [u|], (botEmail account) as [e|], (apiKey account) as [k|];
    cbn [default from_option id truthy andb]; rewrite ?andb_false_r; try done.
  destruct (truthy u); cbn [negb orb andb]; [|done].
  destruct (truthy e); cbn [negb orb andb]; [|done].
  destruct (truthy k); cbn [negb orb andb]; [|done].
  destruct (createZulipClient u e k); [done|].
  destruct (parseZulipTarget recipientsJson to) as [e'|target] eqn:Et;
    [by rewrite (parseZulipTarget_inl _ _ _ Et)|].
  destruct (attachMedia env (trim text) (opt_mediaUrl opts)) as [uploads content].
  destruct (truthy content); cbn [negb]; [|done].
  by destruct (postResult env _ _).
Qed.

Section AccountProperties.
Variable DEFAULT_ACCOUNT_ID : string.
Variable normalizeAccountId : option string → string.
Variable sortByLocale : list string → list string.
Variable recipientsJson : string → string.

Local Abbreviation resolveAccount :=
  (resolveZulipAccount normalizeAccountId).

(** X14.  A resolved account is enabled exactly when neither the channel
    section nor the entry of the account says [enabled: false]: an account
    cannot switch itself on in a channel that is switched off.  Without a
    channel section the account is enabled. *)
Theorem resolved_enabled_iff section accountId :
  resolved_enabled (resolveAccount section accountId) = true
  ↔ match section with
    | None => True
    | Some s =>
        raw_enabled (section_base s) ≠ Some false
        ∧ (accountEntry (section_accounts s) (normalizeAccountId accountId)
           ≫= raw_enabled) ≠ Some false
    end.
Proof.
  unfold resolveZulipAccount. cbn [resolved_enabled].
  destruct section as [s|]; cbn [mbind option_bind mergeZulipAccountConfig]; [|done].
  destruct (accountEntry _ _) as [entry|];
    cbn [default from_option id spread raw_enabled mbind option_bind].
  - destruct (raw_enabled (section_base s)) as [[]|], (raw_enabled entry) as [[]|];
      cbn [orElse notFalse andb emptyAccountConfig raw_enabled];
      (split; [intros ?; by split|intros [? ?]; done]).
  - destruct (raw_enabled (section_base s)) as [[]|];
      cbn [orElse notFalse andb emptyAccountConfig raw_enabled];
      (split; [intros ?; by split|intros [? ?]; done]).
Qed.

(** X15.  The credentials of a resolved account are trimmed and never
    empty: a blank value in the configuration counts as absent.  So the
    account is reported as configured exactly when all three are there,
    and [sendZulipMessage] misses credentials exactly when the account is
    not configured. *)
Theorem resolved_credentials_clean section accountId env to text opts :
  let account := resolved (resolveAccount section accountId) in
  (∀ s, serverUrl account = Some s ∨ botEmail account = Some s ∨ apiKey account = Some s →
        s ≠ "" ∧ trim s = s)
  ∧ (isConfigured account = true
     ↔ is_Some (serverUrl account) ∧ is_Some (botEmail account) ∧ is_Some (apiKey account))
  ∧ (result (sendZulipMessage recipientsJson account env to text opts) = inl CredentialsMissing
     ↔ isConfigured account = false).
Proof.
  intros account.
  assert (Hclean : ∀ s, serverUrl account = Some s ∨ botEmail account = Some s
                        ∨ apiKey account = Some s → s ≠ "" ∧ trim s = s).
  { intros s [Hs|[Hs|Hs]]; apply trimmedOrUndefined_Some in Hs; naive_solver. }
  assert (Hconf : isConfigured account = true
     ↔ is_Some (serverUrl account) ∧ is_Some (botEmail account) ∧ is_Some (apiKey account)).
  { unfold isConfigured. rewrite !andb_true_iff, !truthy_true.
    destruct (serverUrl account) as [u|] eqn:Eu, (botEmail account) as [e|] eqn:Ee,
             (apiKey account) as [k|] eqn:Ek; cbn [default];
      try (split; [intros [[? ?] ?]; done|intros (? & ? & ?); by (exfalso; eapply is_Some_None)]).
    split; [by eauto|]. intros _.
    destruct (Hclean u) as [? _]; [by left|].
    destruct (Hclean e) as [? _]; [by right; left|].
    destruct (Hclean k) as [? _]; [by right; right|]. done. }
  split_and!; [done..|]. apply sendZulipMessage_missing.
Qed.

(** X16.  The list of account ids is never empty and holds no empty id,
    and the default account id is one of the listed ids: the SDK's default
    id when it is listed, the first listed id otherwise. *)
Theorem default_account_listed section :
  (∀ ids, sortByLocale ids ≡ₚ ids) →
  DEFAULT_ACCOUNT_ID ≠ "" →
  let ids := listZulipAccountIds DEFAULT_ACCOUNT_ID sortByLocale section in
  ids ≠ []
  ∧ ("" ∉ ids)
  ∧ resolveDefaultZulipAccountId DEFAULT_ACCOUNT_ID sortByLocale section ∈ ids
  ∧ (DEFAULT_ACCOUNT_ID ∉ ids →
     head ids = Some (resolveDefaultZulipAccountId DEFAULT_ACCOUNT_ID sortByLocale section)).
Proof.
  intros Hsort Hdef ids.
  assert (Hne : ids ≠ [] ∧ "" ∉ ids).
  { unfold ids, listZulipAccountIds. destruct (section ≫= section_accounts) as [accounts|].
    - case_bool_decide as Hlen.
      + split.
        * intros E. pose proof (Permutation_length (Hsort (filter (λ k, truthy k = true) accounts.*1))) as Hl.
          rewrite E in Hl. cbn in Hl. lia.
        * rewrite (Hsort _), list_elem_of_filter. by intros [? _].
      + split; [done|]. by intros [<-|[]%elem_of_nil]%elem_of_cons.
    - split; [done|]. by intros [<-|[]%elem_of_nil]%elem_of_cons. }
  destruct Hne as [Hne Hempty]. split_and!; [done..| |].
  - unfold resolveDefaultZulipAccountId. fold ids. case_bool_decide; [done|].
    destruct ids as [|i ids']; [done|]. cbn. by left.
  - intros Hd. unfold resolveDefaultZulipAccountId. fold ids.
    rewrite bool_decide_eq_false_2 by done. by destruct ids.
Qed.
End AccountProperties.

Lemma default_account_listed_witness :
  let section := Some {| section_base := emptyAccountConfig;
                         section_accounts := Some [("ops", emptyAccountConfig);
                                                   ("", emptyAccountConfig);
                                                   ("dev", emptyAccountConfig)] |} in
  resolveDefaultZulipAccountId "default" (λ ids, ids) section
  ∈ listZulipAccountIds "default" (λ ids, ids) section.
Proof.
  intros section.
  apply (default_account_listed "default" (λ ids, ids) section); [done|done].
Defined.

Section ResolvedClient.
Variable normalizeAccountId : option string → string.

(** X17.  For an account resolved from the configuration the client can
    be created exactly when the account is configured and its server
    address is not made of slashes only: the blank values are already
    gone, so that of the checks of [createZulipClient] only the one on the
    address without its trailing slashes can fail. *)
Theorem resolved_account_client section accountId :
  let account := resolved (resolveZulipAccount normalizeAccountId section accountId) in
  hasClient account
  ↔ isConfigured account = true
    ∧ ∃ url, serverUrl account = Some url ∧ stripTrailingSlashes url ≠ "".
Proof.
  intros account. unfold hasClient, clientOf, isConfigured.
  destruct (serverUrl account) as [u|] eqn:Eu; cbn [default from_option id];
    [|split; [by intros [? ?]|by intros [? ?]]].
  destruct (botEmail account) as [e|] eqn:Ee; cbn [default from_option id];
    [|split; [by intros [? ?]|cbn [truthy andb]; rewrite andb_false_r; by intros [? ?]]].
  destruct (apiKey account) as [k|] eqn:Ek; cbn [default from_option id];
    [|split; [by intros [? ?]|cbn [truthy andb]; rewrite andb_false_r; by intros [? ?]]].
  apply trimmedOrUndefined_Some in Eu as (Hu & Htu & _).
  apply trimmedOrUndefined_Some in Ee as (He & Hte & _).
  apply trimmedOrUndefined_Some in Ek as (Hk & Htk & _).
  unfold createZulipClient, normalizeServerUrl. cbn [fmap option_fmap option_map].
  rewrite Htu, Hte, Htk.
  rewrite (proj2 (truthy_true u) Hu), (proj2 (truthy_true e) He), (proj2 (truthy_true k) Hk).
  cbn [negb orb andb].
  destruct (truthy (stripTrailingSlashes u)) eqn:Hs; cbn [negb].
  - apply truthy_true in Hs. split; [|intros _; by eexists]. intros _. split; [done|].
    by exists u.
  - apply truthy_false in Hs. split; [by intros [? [=]]|].
    intros [_ (u' & [= <-] & Hne)]. done.
Qed.
End ResolvedClient.

(** ** The channel plugin *)

(** X18.  The allow-list the plugin reports to the host
    ([formatAllowFrom]) and the one the monitor checks senders against
    ([normalizeAllowList]) hold the same entries and allow the same
    senders; the monitor's list is the reported one without its
    repetitions: it holds no entry twice, and it keeps each entry where
    the reported list has it first, so that the entries before it are
    those the reported list has before that first occurrence. *)
Theorem formatAllowFrom_agrees allowFrom :
  (∀ x, x ∈ formatAllowFrom allowFrom ↔ x ∈ normalizeAllowList allowFrom)
  ∧ (∀ p, isSenderAllowed p (formatAllowFrom allowFrom)
          = isSenderAllowed p (normalizeAllowList allowFrom))
  ∧ normalizeAllowList allowFrom `sublist_of` formatAllowFrom allowFrom
  ∧ (NoDup (formatAllowFrom allowFrom) →
     normalizeAllowList allowFrom = formatAllowFrom allowFrom)
  ∧ NoDup (normalizeAllowList allowFrom)
  ∧ (∀ r1 x r2,
       formatAllowFrom allowFrom = r1 ++ x :: r2 → x ∉ r1 →
       ∃ m1 m2, normalizeAllowList allowFrom = m1 ++ x :: m2
                ∧ ∀ y, y ∈ m1 ↔ y ∈ r1).
Proof.
  unfold normalizeAllowList, formatAllowFrom. split_and!.
  - intros x. by rewrite elem_of_uniq.
  - intros p. by rewrite isSenderAllowed_uniq.
  - apply uniq_sublist.
  - apply uniq_NoDup_id.
  - apply NoDup_uniq.
  - intros r1 x r2 -> Hx. destruct (uniq_first_occurrence r1 r2 x Hx) as [m2 ->].
    exists (uniq r1), m2. split; [done|]. intros y. apply elem_of_uniq.
Qed.

Section ResolveTarget.
Variable recipientsJson : string → string.

(** X19.  [resolveTarget] refuses exactly the targets [sendZulipMessage]
    would refuse as missing, and a target it accepts is trimmed, not
    empty, and parsed by [parseZulipTarget] to the same destination as
    the text it was given. *)
Theorem resolveTarget_parses to :
  match resolveTarget (Some to) with
  | None => parseZulipTarget recipientsJson to = inl TargetRequired
  | Some resolved =>
      resolved = trim to ∧ resolved ≠ ""
      ∧ resolveTarget (Some resolved) = Some resolved
      ∧ parseZulipTarget recipientsJson resolved = parseZulipTarget recipientsJson to
      ∧ ∃ target, parseZulipTarget recipientsJson to = inr target
  end.
Proof.
  unfold resolveTarget. cbn [fmap option_fmap option_map].
  destruct (truthy (trim to)) eqn:Ht.
  - rewrite trim_idemp, Ht. split_and!; [done|by apply truthy_true|done| |].
    + unfold parseZulipTarget. by rewrite trim_idemp.
    + unfold parseZulipTarget. rewrite Ht. cbn [negb].
      destruct (matchPrefixCI "stream:" (trim to)).
      * destruct (indexOfColon _); by eexists.
      * destruct (_ || _); by eexists.
  - unfold parseZulipTarget. by rewrite Ht.
Qed.

(** X20.  The request for a parsed target has the fields [type], [to]
    and [content], and between them a [topic] exactly for a stream: a
    stream message never goes out without a topic, a direct message never
    with one. *)
Theorem message_form_topic raw target content :
  parseZulipTarget recipientsJson raw = inr target →
  match target_type target with
  | ToStream =>
      ∃ t, t ≠ ""
           ∧ messageForm target content
             = [("type", "stream"); ("to", target_to target); ("topic", t);
                ("content", content)]
  | ToDirect =>
      messageForm target content
      = [("type", "direct"); ("to", target_to target); ("content", content)]
  end.
Proof.
  unfold parseZulipTarget, messageForm. destruct (truthy (trim raw)); cbn [negb]; [|done].
  destruct (matchPrefixCI "stream:" (trim raw)) as [rest|].
  - destruct (indexOfColon rest) as [i|]; intros [= <-];
      cbn [target_type target_topic target_to typeName].
    + exists (orNoTopic (sliceFrom (S i) rest)).
      split; [apply orNoTopic_nonempty|].
      destruct (orNoTopic _) eqn:E; [by apply orNoTopic_nonempty in E|done].
    + by exists "(no topic)".
  - destruct (_ || _); intros [= <-]; cbn [target_type target_topic target_to typeName];
      [done|by exists "(no topic)"].
Qed.
End ResolveTarget.

Lemma message_form_topic_witness :
  messageForm
    {| target_type := ToDirect; target_to := sampleRecipientsJson "42"; target_topic := None |}
    "hi"
  = [("type", "direct"); ("to", sampleRecipientsJson "42"); ("content", "hi")].
Proof.
  exact (message_form_topic sampleRecipientsJson "dm:42" _ "hi" eq_refl).
Defined.

(** ** The long-polling loop, continued *)

Lemma backoffAfter_range i : 1000 ≤ backoffAfter i ≤ 30000.
Proof.
  unfold backoffAfter, INITIAL_BACKOFF_MS, MAX_BACKOFF_MS.
  assert (1 ≤ 2 ^ Z.of_nat i) by (apply Z.pow_le_mono_r with (b := 0); lia).
  lia.
Qed.

Section LoopRuns.
Context {W : Type} (handle : ZulipMessage → W → W * bool).
Implicit Types (st : LoopState (W:=W)).

Lemma handled_app (a b : list LoopEvent) : handled (a ++ b) = handled a ++ handled b.
Proof. apply omap_app. Qed.

Lemma polled_app (a b : list LoopEvent) : polled (a ++ b) = polled a ++ polled b.
Proof. apply omap_app. Qed.

Lemma messagesOf_app (a b : list ZulipEvent) :
  messagesOf (a ++ b) = messagesOf a ++ messagesOf b.
Proof. apply omap_app. Qed.

Lemma runAttempts_bounded attempts st :
  (∃ i, backoffMs st = backoffAfter i) →
  (∃ i, backoffMs (runAttempts handle attempts st) = backoffAfter i)
  ∧ ∃ ds, delays (trace (runAttempts handle attempts st)) = delays (trace st) ++ ds
          ∧ length ds = length attempts
          ∧ ∀ d, d ∈ ds → ∃ i, d = backoffAfter i.
Proof.
  revert st. induction attempts as [|a attempts IH]; intros st Hst.
  - split; [done|]. exists []. rewrite app_nil_r. split_and!; [done..|].
    by intros d []%elem_of_nil.
  - unfold runAttempts in *. cbn [foldl].
    destruct (attempt_delay handle st a) as [Hd Hb].
    assert (∃ i, match a with
                 | RegisterThrows => backoffMs st
                 | Registered _ _ => INITIAL_BACKOFF_MS
                 end = backoffAfter i) as [i Hi].
    { destruct a; [done|]. by exists 0%nat. }
    destruct (IH (attempt handle st a)) as [Hb' (ds & Hds & Hlen & Hin)].
    { exists (S i). rewrite Hb, Hi. apply backoffAfter_S. }
    split; [done|]. eexists (_ :: ds). split_and!.
    + rewrite Hds, Hd, <- app_assoc. done.
    + cbn. by rewrite Hlen.
    + intros d [->|Hd']%elem_of_cons; [by exists i|by apply Hin].
Qed.

Lemma finish_quiet st e :
  (∃ i, backoffMs st = backoffAfter i) →
  (∃ i, backoffMs (finish handle st e) = backoffAfter i)
  ∧ delays (trace (finish handle st e)) = delays (trace st).
Proof.
  intros Hst. destruct e as [| |reg batches|reg batches]; cbn [finish]; [done..| |].
  - destruct (connected_quiet handle reg batches st) as [-> ->]. split; [|done].
    by exists 0%nat.
  - pose proof (connected_quiet handle reg batches st) as [Hb Hd].
    destruct (connected handle reg batches st) as [last st']. cbn [snd] in Hb, Hd.
    cbn [backoffMs trace]. rewrite delays_app, Hd, Hb. cbn. rewrite app_nil_r.
    split; [|done]. by exists 0%nat.
Qed.

(** X21.  Whatever the iterations of the loop do and however the loop
    ends, the loop sleeps once for every iteration that failed, every
    delay is one of the series 1 s, 2 s, 4 s, ..., hence between 1 s and
    30 s, and so is the delay in force at the end. *)
Theorem loop_delays_bounded attempts e w :
  let st := monitorLoop handle attempts e w in
  length (delays (trace st)) = length attempts
  ∧ (∀ d, d ∈ delays (trace st) → (∃ i, d = backoffAfter i) ∧ 1000 ≤ d ≤ 30000)
  ∧ 1000 ≤ backoffMs st ≤ 30000.
Proof.
  unfold monitorLoop.
  destruct (runAttempts_bounded attempts (startLoop w)) as [Hb (ds & Hds & Hlen & Hin)];
    [by exists 0%nat|].
  destruct (finish_quiet (runAttempts handle attempts (startLoop w)) e Hb) as [[i Hi] Hd].
  cbv zeta. rewrite Hd, Hds, Hi. cbn [startLoop trace delays omap list_omap app].
  split; [done|]. split; [|apply backoffAfter_range].
  intros d Hd'. destruct (Hin d Hd') as [j ->]. split; [by exists j|apply backoffAfter_range].
Qed.

Lemma pollBatches_handled queue batches last st :
  handled (trace (pollBatches handle queue batches last st).2)
  = handled (trace st) ++ messagesOf (concat batches).
Proof.
  revert last st. induction batches as [|events r IH]; intros last st.
  - cbn. by rewrite app_nil_r.
  - cbn [pollBatches concat].
    pose proof (handleEvents_handled handle events last
      {| backoffMs := backoffMs st; loopWorld := loopWorld st;
         trace := trace st ++ [Polled queue last] |}) as Hh.
    destruct (handleEvents _ _ _ _) as [last' st2]. cbn [snd] in Hh.
    rewrite IH, Hh. cbn [trace]. rewrite handled_app, messagesOf_app.
    cbn. by rewrite app_nil_r, <- app_assoc.
Qed.

Lemma connected_handled reg batches st :
  handled (trace (connected handle reg batches st).2)
  = handled (trace st) ++ messagesOf (concat batches).
Proof.
  unfold connected. rewrite pollBatches_handled. cbn [trace].
  rewrite handled_app. cbn. by rewrite app_nil_r.
Qed.

Lemma attempt_handled st a :
  handled (trace (attempt handle st a))
  = handled (trace st) ++ messagesOf (concat (attemptBatches a)).
Proof.
  destruct a as [|reg batches]; cbn [attempt attemptBatches]; unfold backOff; cbn [trace].
  - rewrite handled_app. cbn. by rewrite !app_nil_r.
  - pose proof (connected_handled reg batches st) as Hh.
    destruct (connected handle reg batches st) as [last st']. cbn [snd] in Hh.
    cbn [trace]. rewrite !handled_app, Hh. cbn. by rewrite !app_nil_r.
Qed.

Lemma runAttempts_handled attempts st :
  handled (trace (runAttempts handle attempts st))
  = handled (trace st) ++ messagesOf (concat (concat (attemptBatches <$> attempts))).
Proof.
  revert st. induction attempts as [|a attempts IH]; intros st.
  - cbn. by rewrite app_nil_r.
  - unfold runAttempts in *. cbn [foldl fmap list_fmap concat].
    rewrite IH, attempt_handled, concat_app, messagesOf_app, <- app_assoc. done.
Qed.

(** X22.  Over a whole run of the loop, with its failures and
    reconnections, the handler is called once for every message event the
    server returned, in the order of arrival, whether or not it threw on
    an earlier message; events of another type or without a message never
    reach it. *)
Theorem loop_handles_every_message attempts e w :
  handled (trace (monitorLoop handle attempts e w)) = messagesOf (received attempts e).
Proof.
  unfold monitorLoop, received. rewrite messagesOf_app.
  destruct e as [| |reg batches|reg batches]; cbn [finish endingBatches concat].
  - rewrite runAttempts_handled. cbn. by rewrite app_nil_r.
  - rewrite runAttempts_handled. cbn. by rewrite app_nil_r.
  - by rewrite connected_handled, runAttempts_handled.
  - pose proof (connected_handled reg batches (runAttempts handle attempts (startLoop w)))
      as Hh.
    destruct (connected handle reg batches _) as [last st']. cbn [snd] in Hh.
    cbn [trace]. rewrite handled_app, Hh, runAttempts_handled. cbn. by rewrite app_nil_r.
Qed.

Lemma handleEvents_cursor events last st :
  let last' := (handleEvents handle events last st).1 in
  last ≤ last'
  ∧ (∀ ev, ev ∈ events → ev_id ev ≤ last')
  ∧ (last' = last ∨ ∃ ev, ev ∈ events ∧ ev_id ev = last')
  ∧ polled (trace (handleEvents handle events last st).2) = polled (trace st).
Proof.
  revert last st. induction events as [|ev r IH]; intros last st; cbv zeta.
  - cbn [handleEvents fst snd]. split_and!; [lia| |by left|done].
    by intros ev []%elem_of_nil.
  - cbn [handleEvents].
    destruct (IH (if bool_decide (ev_id ev > last) then ev_id ev else last)
      (match ev_message ev with
       | Some msg =>
           if bool_decide (ev_type ev = "message")
           then let '(w, threw) := handle msg (loopWorld st) in
                {| backoffMs := backoffMs st; loopWorld := w;
                   trace := trace st ++ [if threw then HandlerThrew msg
                                         else HandlerReturned msg] |}
           else st
       | None => st
       end)) as (H1 & H2 & H3 & H4).
    split_and!.
    + case_bool_decide; lia.
    + intros ev' [->|Hin]%elem_of_cons; [case_bool_decide; lia|by apply H2].
    + destruct H3 as [H3|(ev' & Hin & H3)].
      * case_bool_decide; [right; exists ev|by left].
        all: rewrite H3; split; [by left|done].
      * right. exists ev'. split; [by right|done].
    + rewrite H4. clear H1 H2 H3 H4. destruct (ev_message ev) as [msg|]; [|done].
      case_bool_decide; [|done].
      destruct (handle msg (loopWorld st)) as [w' []]; cbn [trace];
        rewrite polled_app; cbn; by rewrite app_nil_r.
Qed.

Lemma pollBatches_cursor queue batches last st :
  let r := pollBatches handle queue batches last st in
  last ≤ r.1
  ∧ (∀ events ev, events ∈ batches → ev ∈ events → ev_id ev ≤ r.1)
  ∧ (r.1 = last ∨ ∃ events ev, events ∈ batches ∧ ev ∈ events ∧ ev_id ev = r.1)
  ∧ ∃ ps, polled (trace r.2) = polled (trace st) ++ ps
          ∧ length ps = length batches
          ∧ (∀ p, p ∈ ps → p.1 = queue ∧ last ≤ p.2 ≤ r.1)
          ∧ head ps.*2 = (if batches is [] then None else Some last)
          ∧ StronglySorted Z.le ps.*2.
Proof.
  revert last st. induction batches as [|events r IH]; intros last st; cbv zeta.
  - cbn [pollBatches fst snd]. split_and!; [lia| |by left|].
    + by intros ? ? []%elem_of_nil.
    + exists []. rewrite app_nil_r. split_and!; [done|done| |done|constructor].
      by intros ? []%elem_of_nil.
  - cbn [pollBatches].
    pose proof (handleEvents_cursor events last
      {| backoffMs := backoffMs st; loopWorld := loopWorld st;
         trace := trace st ++ [Polled queue last] |}) as (E1 & E2 & E3 & E4).
    destruct (handleEvents _ _ _ _) as [last' st2]. cbn [fst snd] in E1, E2, E3, E4.
    destruct (IH last' st2) as (H1 & H2 & H3 & ps & Hps & Hlen & Hin & _ & Hsorted).
    split_and!.
    + lia.
    + intros events' ev [->|Hin']%elem_of_cons Hev.
      * specialize (E2 ev Hev). lia.
      * by eapply H2.
    + destruct H3 as [H3|(events' & ev & Hin' & Hev & H3)].
      * destruct E3 as [E3|(ev & Hev & E3)].
        -- left. lia.
        -- right. exists events, ev. split_and!; [by left|done|lia].
      * right. exists events', ev. split_and!; [by right|done..].
    + exists ((queue, last) :: ps). split_and!.
      * rewrite Hps, E4. cbn [trace]. rewrite polled_app, <- app_assoc. done.
      * cbn. by rewrite Hlen.
      * intros p [->|Hp]%elem_of_cons; cbn [fst snd]; [split; [done|lia]|].
        destruct (Hin p Hp) as [? ?]. split; [done|lia].
      * done.
      * cbn [fmap list_fmap snd]. constructor; [done|].
        apply Forall_forall. intros x (p & -> & Hp)%list_elem_of_fmap.
        destruct (Hin p Hp) as [_ ?]. lia.
Qed.

(** X23.  While connected, the loop asks for the events after the
    greatest event id it has seen: the id it ends with is the maximum of
    the id the registration returned and the ids of all events received,
    of whatever type; the polls all name the registered queue, and their
    ids never decrease, starting from the id of the registration. *)
Theorem connection_cursor reg batches st :
  let r := connected handle reg batches st in
  last_event_id reg ≤ r.1
  ∧ (∀ events ev, events ∈ batches → ev ∈ events → ev_id ev ≤ r.1)
  ∧ (r.1 = last_event_id reg
     ∨ ∃ events ev, events ∈ batches ∧ ev ∈ events ∧ ev_id ev = r.1)
  ∧ ∃ ps, polled (trace r.2) = polled (trace st) ++ ps
          ∧ length ps = length batches
          ∧ (∀ p, p ∈ ps → p.1 = queue_id reg ∧ last_event_id reg ≤ p.2 ≤ r.1)
          ∧ head ps.*2 = (if batches is [] then None else Some (last_event_id reg))
          ∧ StronglySorted Z.le ps.*2.
Proof.
  unfold connected. cbv zeta.
  pose proof (pollBatches_cursor (queue_id reg) batches (last_event_id reg)
    {| backoffMs := INITIAL_BACKOFF_MS; loopWorld := loopWorld st;
       trace := trace st ++ [StatusConnected] |})
    as (H1 & H2 & H3 & ps & Hps & Hlen & Hin & Hhd & Hs).
  split_and!; [done..|]. exists ps. split_and!; [|done..].
  rewrite Hps. cbn [trace]. rewrite polled_app. cbn. by rewrite app_nil_r.
Qed.
End LoopRuns.

(** ** The send queue, continued *)

Section QueueRuns.
Variable recipientsJson : string → string.
Variable account : ResolvedZulipAccount.
Variable to : string.
Variable convertMarkdownTables : string → string.
Variable chunkMarkdownTextWithMode : string → list string.

Local Abbreviation start := (startNext recipientsJson account to).
Local Abbreviation step :=
  (queueStep recipientsJson account to convertMarkdownTables chunkMarkdownTextWithMode).
Local Abbreviation run :=
  (runFrom recipientsJson account to convertMarkdownTables chunkMarkdownTextWithMode).
Local Abbreviation chunks := (chunksOf convertMarkdownTables chunkMarkdownTextWithMode).
Local Abbreviation payloadsOf := (payloadsFrom convertMarkdownTables chunkMarkdownTextWithMode).
Local Abbreviation reaches := (reachesTransport recipientsJson account to).
Local Abbreviation runQ :=
  (runQueue recipientsJson account to convertMarkdownTables chunkMarkdownTextWithMode).
Local Abbreviation producedBy :=
  (produced convertMarkdownTables chunkMarkdownTextWithMode).

Implicit Types (q : SendQueue) (lg ext : list QueueEvent) (c : Chunk).
Implicit Types (ws : list (nat * list Chunk)) (cur : option (Chunk * list Chunk)).

Lemma settledPayloads_app lg ext :
  settledPayloads (lg ++ ext) = settledPayloads lg ++ settledPayloads ext.
Proof. apply omap_app. Qed.

Lemma labelled_cons n cs ws :
  labelled ((n, cs) :: ws) ↔ (∀ c, c ∈ cs → payload c = n) ∧ labelled ws.
Proof.
  unfold labelled. split.
  - intros H. split.
    + intros c Hc. apply (H n cs c); [by left|done].
    + intros n' cs' c Hin Hc. apply (H n' cs' c); [by right|done].
  - intros [H1 H2] n' cs' c [[= -> ->]|Hin]%elem_of_cons Hc; [by apply H1|by eapply H2].
Qed.

Lemma labelled_app ws1 ws2 : labelled (ws1 ++ ws2) ↔ labelled ws1 ∧ labelled ws2.
Proof.
  unfold labelled. split.
  - intros H. split; intros n cs c Hin Hc; apply (H n cs c); try done;
      apply elem_of_app; [by left|by right].
  - intros [H1 H2] n cs c [Hin|Hin]%elem_of_app Hc; [by eapply H1|by eapply H2].
Qed.

(** Starting the chain settles the callbacks it runs through, in their
    order, and stops at the first that gets a request out. *)
Lemma startNext_settles ws :
  labelled ws →
  settledPayloads (start ws []).2 ++ runningPayload (start ws []).1.1 ++ (start ws []).1.2.*1
  = ws.*1
  ∧ labelled (start ws []).1.2
  ∧ ∀ c rest, (start ws []).1.1 = Some (c, rest) → ∀ c', c' ∈ rest → payload c' = payload c.
Proof.
  induction ws as [|[n [|c rest]] ws IH]; intros Hl; cbn [startNext].
  - cbn. split_and!; [done..|]. by intros.
  - apply labelled_cons in Hl as [_ Hl]. destruct (IH Hl) as (I1 & I2 & I3).
    rewrite start_eq. cbn [fst snd app]. split_and!; [|done..].
    cbn [fmap list_fmap fst]. rewrite <- I1. done.
  - apply labelled_cons in Hl as [Hc Hl]. destruct (reachesTransport _ _ _ c).
    + cbn [fst snd settledPayloads omap list_omap runningPayload app fmap list_fmap].
      split_and!; [|done|].
      * rewrite (Hc c); [done|by left].
      * intros c0 rest0 [= <- <-] c' Hc'. rewrite (Hc c), (Hc c'); [done|by right|by left].
    + destruct (IH Hl) as (I1 & I2 & I3).
      rewrite start_eq. cbn [fst snd app]. split_and!; [|done..].
      cbn [fmap list_fmap fst]. rewrite <- I1. done.
Qed.

Lemma step_inOrder q i : inOrder q → inOrder (step q i).
Proof.
  destruct q as [n cur ws lg]. unfold inOrder. cbn [log current waiting delivered].
  intros (H1 & H2 & H3).
  assert (Hnew : ∀ text, labelled (ws ++ [(n, chunks n text)])).
  { intros text. apply labelled_app. split; [done|]. apply labelled_cons. split.
    - intros c. apply chunksOf_payload.
    - by intros ? ? ? []%elem_of_nil. }
  destruct i as [text|ok]; cbn [queueStep current waiting].
  - destruct cur as [[c rest]|]; cbn [log current waiting delivered].
    + split_and!; [|done..]. rewrite seq_S, <- H1, fmap_app, <- !app_assoc. reflexivity.
    + rewrite start_eq. cbn [log current waiting delivered].
      destruct (startNext_settles _ (Hnew text)) as (I1 & I2 & I3).
      split_and!; [|done..].
      rewrite settledPayloads_app, <- app_assoc, I1, seq_S, <- H1, fmap_app.
      cbn [runningPayload app]. by rewrite <- app_assoc.
  - destruct cur as [[c rest]|]; [|done].
    destruct ok; rewrite start_eq; cbn [log current waiting delivered].
    + destruct (startNext_settles ((payload c, rest) :: ws)) as (I1 & I2 & I3).
      { apply labelled_cons. split; [|done]. intros c' Hc'. by eapply H3. }
      split_and!; [|done..].
      rewrite !settledPayloads_app, <- !app_assoc, I1, <- H1. reflexivity.
    + destruct (startNext_settles ws H2) as (I1 & I2 & I3).
      split_and!; [|done..].
      rewrite !settledPayloads_app, <- !app_assoc, I1, <- H1. reflexivity.
Qed.

Lemma run_inOrder inputs q : inOrder q → inOrder (run q inputs).
Proof.
  revert q. induction inputs as [|i inputs IH]; intros q Hq; [done|].
  unfold runFrom in *. cbn [foldl]. by apply IH, step_inOrder.
Qed.

(** X24.  The promises returned by [deliver] settle in the order of the
    calls, each once: at any moment the settled payloads, the running one
    and the waiting ones are the payloads delivered so far, in that
    order.  Once the chain is idle every call of [deliver] has settled. *)
Theorem deliveries_settle_in_order inputs :
  let q := runQ inputs in
  settledPayloads (log q) ++ runningPayload (current q) ++ (waiting q).*1
  = seq 0 (delivered q)
  ∧ delivered q = length (payloadsOf 0 inputs)
  ∧ (current q = None → settledPayloads (log q) = seq 0 (delivered q)).
Proof.
  intros q. subst q. unfold runQueue.
  destruct (run_inOrder inputs emptyQueue) as (H1 & _).
  { split_and!; [done| |done]. by intros ? ? ? []%elem_of_nil. }
  split_and!; [done|by rewrite run_delivered|].
  intros Hcur. rewrite <- H1, Hcur.
  rewrite (run_idle _ _ _ _ _ inputs emptyQueue); [|done|done].
  cbn. by rewrite app_nil_r.
Qed.

(** When nothing is refused, starting the chain loses no chunk. *)
Lemma startNext_complete ws :
  (∀ c, c ∈ chunksIn ws → reaches c = true) →
  submitted (start ws []).2 ++ restOf (start ws []).1.1 ++ chunksIn (start ws []).1.2
  = chunksIn ws
  ∧ ∀ n, DeliverSettled n false ∉ (start ws []).2.
Proof.
  induction ws as [|[n [|c rest]] ws IH]; intros Hr; cbn [startNext].
  - cbn. split; [done|]. intros n. apply not_elem_of_nil.
  - destruct IH as [I1 I2]; [done|]. rewrite start_eq. cbn [fst snd app]. split; [done|].
    intros k [[=]|?]%elem_of_cons. by eapply I2.
  - rewrite (Hr c); [|rewrite chunksIn_cons; apply elem_of_app; left; by left].
    cbn [fst snd]. split; [done|].
    intros k [[=]|[]%elem_of_nil]%elem_of_cons.
Qed.

Lemma step_complete q i :
  (∀ c, c ∈ pendingChunks q ++ newChunks convertMarkdownTables chunkMarkdownTextWithMode q i →
        reaches c = true) →
  i ≠ Settle false →
  ∃ ext, log (step q i) = log q ++ ext
         ∧ submitted ext ++ pendingChunks (step q i)
           = pendingChunks q ++ newChunks convertMarkdownTables chunkMarkdownTextWithMode q i
         ∧ ∀ n, DeliverSettled n false ∉ ext.
Proof.
  unfold pendingChunks. destruct q as [n cur ws lg].
  destruct i as [text|[]]; cbn [queueStep current waiting delivered log newChunks];
    intros Hr Hi; [| |done].
  - destruct cur as [[c rest]|].
    + exists []. cbn [current waiting log]. rewrite app_nil_r. split_and!; [done| |].
      * change (submitted []) with (@nil Chunk). cbn [app restOf].
        rewrite chunksIn_app, <- app_assoc. unfold chunksIn at 2. cbn. by rewrite app_nil_r.
      * intros k. apply not_elem_of_nil.
    + rewrite start_eq. cbn [current waiting log]. eexists. split; [done|].
      destruct (startNext_complete (ws ++ [(n, chunks n text)])) as [I1 I2].
      { intros c Hc. apply Hr. cbn [restOf app]. rewrite chunksIn_app in Hc.
        unfold chunksIn at 2 in Hc. cbn in Hc. by rewrite app_nil_r in Hc. }
      split; [|done]. rewrite I1, chunksIn_app. cbn [restOf app].
      unfold chunksIn at 2. cbn. by rewrite app_nil_r.
  - destruct cur as [[c rest]|].
    + rewrite start_eq. cbn [current waiting log].
      exists ([Completed c true] ++ (start ((payload c, rest) :: ws) []).2).
      rewrite app_assoc. split; [done|].
      destruct (startNext_complete ((payload c, rest) :: ws)) as [I1 I2].
      { intros c' Hc'. apply Hr. by rewrite app_nil_r. }
      split.
      * cbn [app]. rewrite submitted_cons, I1, app_nil_r. done.
      * intros k [[=]|?]%elem_of_cons. by eapply I2.
    + exists []. cbn [current waiting log]. rewrite !app_nil_r. split_and!; [done..|].
      intros k. apply not_elem_of_nil.
Qed.

Lemma run_complete inputs q :
  (∀ c, c ∈ pendingChunks q ++ chunksIn (payloadsOf (delivered q) inputs) →
        reaches c = true) →
  Settle false ∉ inputs →
  ∃ ext, log (run q inputs) = log q ++ ext
         ∧ submitted ext ++ pendingChunks (run q inputs)
           = pendingChunks q ++ chunksIn (payloadsOf (delivered q) inputs)
         ∧ ∀ n, DeliverSettled n false ∉ ext.
Proof.
  revert q. induction inputs as [|i inputs IH]; intros q Hr Hi.
  - exists []. cbn. rewrite !app_nil_r. split_and!; [done..|].
    intros n. apply not_elem_of_nil.
  - apply not_elem_of_cons in Hi as [Hi Hin].
    unfold runFrom in *. cbn [foldl].
    assert (Hsplit : pendingChunks q ++ chunksIn (payloadsOf (delivered q) (i :: inputs))
                     = (pendingChunks q
                        ++ newChunks convertMarkdownTables chunkMarkdownTextWithMode q i)
                       ++ chunksIn (payloadsOf (delivered (step q i)) inputs)).
    { rewrite step_delivered. destruct i as [text|ok]; cbn [payloadsFrom newChunks].
      - by rewrite chunksIn_cons, app_assoc.
      - by rewrite app_nil_r. }
    rewrite Hsplit in Hr |- *.
    destruct (step_complete q i) as (e1 & Hl1 & Hs1 & Hn1); [|done|].
    { intros c Hc. apply Hr, elem_of_app. by left. }
    destruct (IH (step q i)) as (e2 & Hl2 & Hs2 & Hn2); [|done|].
    { intros c Hc. apply Hr. rewrite <- Hs1, <- app_assoc.
      apply elem_of_app. by right. }
    exists (e1 ++ e2). split_and!.
    + by rewrite Hl2, Hl1, app_assoc.
    + by rewrite submitted_app, <- app_assoc, Hs2, app_assoc, Hs1.
    + intros n [?|?]%elem_of_app; [by eapply Hn1|by eapply Hn2].
Qed.

(** X25.  When no request fails and [sendZulipMessage] accepts every
    chunk, nothing is lost: the chunks submitted so far followed by the
    chunks still to be sent are the chunks produced, in the order of
    production, no [deliver] promise is rejected, and once the chain is
    idle every chunk produced has been submitted. *)
Theorem no_failure_all_submitted inputs :
  (∀ c, c ∈ producedBy inputs → reaches c = true) →
  Settle false ∉ inputs →
  let q := runQ inputs in
  submitted (log q) ++ pendingChunks q = producedBy inputs
  ∧ (∀ n, DeliverSettled n false ∉ log q)
  ∧ (current q = None → submitted (log q) = producedBy inputs).
Proof.
  intros Hr Hi q. subst q. unfold runQueue.
  destruct (run_complete inputs emptyQueue) as (ext & Hl & Hs & Hn); [done..|].
  cbn [log emptyQueue app] in Hl. rewrite Hl.
  split_and!; [done|done|].
  intros Hcur. etrans; [|exact Hs]. unfold pendingChunks. rewrite Hcur.
  rewrite (run_idle _ _ _ _ _ inputs emptyQueue); [|done|done].
  cbn. by rewrite app_nil_r.
Qed.
End QueueRuns.

Lemma no_failure_all_submitted_witness :
  let chunker := λ _ : string, ["a"; "b"] in
  let inputs := [Deliver "ab"; Settle true; Settle true] in
  let q := runQueue sampleRecipientsJson (sampleAccount DmOpen [] []) "dm:42"
             (λ s, s) chunker inputs in
  current q = None ∧ submitted (log q) = produced (λ s, s) chunker inputs.
Proof.
  intros chunker inputs q. split; [reflexivity|].
  apply (no_failure_all_submitted sampleRecipientsJson (sampleAccount DmOpen [] []) "dm:42"
           (λ s, s) chunker inputs).
  - intros c Hc. vm_compute in Hc.
    apply elem_of_cons in Hc as [->|Hc]; [vm_compute; reflexivity|].
    apply elem_of_cons in Hc as [->|Hc]; [vm_compute; reflexivity|].
    by apply elem_of_nil in Hc.
  - intros Hin. apply elem_of_cons in Hin as [[=]|Hin].
    apply elem_of_cons in Hin as [[=]|Hin].
    apply elem_of_cons in Hin as [[=]|Hin].
    by apply elem_of_nil in Hin.
  - reflexivity.
Defined.

(** ** The handler, continued *)

Section HandlerEffects.
Context `{Runtime Store}.
Implicit Types (account : ResolvedZulipAccount) (profile : ZulipProfile).
Implicit Types (msg : ZulipMessage) (w : World Store).

(** X26.  What the handler does besides deciding, by outcome.  A message
    dropped for any reason but one leaves no trace outside the map of
    recent identifiers: no call, and the pairing store as it was.  The
    exception is the direct message of a sender who is not allowed, which
    occurs under the policy [pairing] only and begins with the pairing
    request for that sender.  A message that is dispatched records the
    activity first, leaves the pairing store as it was and makes no call of
    [sendZulipMessage] (the replies go through the dispatcher); the last
    route is updated for a direct message and for no other, with the
    reply target of the context. *)
Theorem handler_effects_by_outcome account profile now msg w :
  let h := handleMessage account profile now msg w in
  let p := senderOf msg in
  match outcome h with
  | Dropped DmSenderNotAllowed =>
      msg_type msg = TypePrivate
      ∧ dmPolicyOf account = DmPairing
      ∧ head (effects h)
        = Some (CallUpsertPairingRequest (senderId p) (senderName p) (senderEmail p))
      ∧ (length (effects h) ≤ 2)%nat
  | Dropped _ => effects h = [] ∧ store (world h) = store w
  | Dispatched ctx =>
      store (world h) = store w
      ∧ sendCalls (effects h) = []
      ∧ head (effects h) = Some (CallActivityRecord (accountId account))
      ∧ (msg_type msg = TypePrivate
         ↔ ∃ session a, CallUpdateLastRoute session (To ctx) a ∈ effects h)
  end.
Proof.
  unfold handleMessage, dmPolicyOf. cbv zeta.
  case_bool_decide; [done|].
  destruct (dedupeCheck _ _ _) as [[] ids]; [done|]. cbn [store].
  case_drop NotMentioned; [done|].
  case_drop StreamSenderNotAllowed; [done|].
  case_drop DmDisabledByPolicy; [done|].
  case_pairing.
  { match goal with Hp : (_ && negb (bool_decide (_ = DmOpen)) && _) = true |- _ =>
      apply andb_true_iff in Hp as [[Hdm Hopen]%andb_true_iff _] end.
    match goal with Hd : (_ && bool_decide (_ = DmDisabled)) = false |- _ =>
      rewrite Hdm in Hd; cbn [andb] in Hd; apply bool_decide_eq_false in Hd end.
    apply negb_true_iff, bool_decide_eq_false in Hopen.
    apply bool_decide_eq_true in Hdm.
    destruct (default DmPairing _); try done.
    destruct (upsertPairingRequest _ _ _ _) as [req st]. cbn [effects outcome world].
    split_and!; [done..|]. destruct (created req); cbn; lia. }
  destruct (truthy _); [|done]. cbn [negb].
  destruct (buildContext _ _ _ _) as [ctx route]. cbn [effects outcome world store].
  split_and!; [done| |done|].
  - by case_bool_decide.
  - case_bool_decide as Hdm.
    + split; [|done]. intros _. exists (mainSessionKey route), (routeAccountId route).
      cbn [app]. apply elem_of_cons. right. apply elem_of_cons. right. by left.
    + split; [done|]. intros (s & a & Hin). cbn [app] in Hin.
      apply elem_of_cons in Hin as [[=]|Hin].
      apply elem_of_cons in Hin as [[=]|Hin]. by apply elem_of_nil in Hin.
Qed.
End HandlerEffects.

(** ** Mentions, continued *)

Lemma toLowerCase_append (a b : string) :
  toLowerCase (a +:+ b) = toLowerCase a +:+ toLowerCase b.
Proof.
  induction a as [|x a IH]; [done|].
  rewrite append_cons. cbn [toLowerCase]. by rewrite append_cons, IH.
Qed.

Lemma toLowerCase_nil s : toLowerCase s = "" → s = "".
Proof. by destruct s. Qed.

Lemma matchPrefixCI_lower_pat pat s :
  matchPrefixCI (toLowerCase pat) s = matchPrefixCI pat s.
Proof.
  revert s. induction pat as [|p pat IH]; intros s; [done|].
  cbn [toLowerCase matchPrefixCI]. destruct s as [|c s]; [done|].
  rewrite lowerChar_idemp. destruct (Ascii.eqb _ _); [apply IH|done].
Qed.

Lemma testCI_lower_pat pat s : testCI (toLowerCase pat) s = testCI pat s.
Proof.
  induction s as [|c s IH]; cbn [testCI]; rewrite matchPrefixCI_lower_pat; [done|].
  by rewrite IH.
Qed.

Lemma testCI_toLowerCase pat s : testCI pat (toLowerCase s) = testCI pat s.
Proof.
  induction s as [|c s IH].
  - done.
  - transitivity (match matchPrefixCI pat (toLowerCase (String c s)) with
                  | Some _ => true
                  | None => testCI pat (toLowerCase s)
                  end); [reflexivity|].
    rewrite matchPrefixCI_toLowerCase, IH. cbn [testCI].
    by destruct (matchPrefixCI pat (String c s)).
Qed.

(** A match at the start of [s]: [s] begins with a text equal to the
    pattern up to the case of its letters. *)
Lemma matchPrefixCI_Some pat s r :
  matchPrefixCI pat s = Some r
  ↔ ∃ m, s = m +:+ r ∧ toLowerCase m = toLowerCase pat.
Proof.
  revert s. induction pat as [|p pat IH]; intros s.
  - cbn [matchPrefixCI toLowerCase]. split.
    + intros [= ->]. by exists "".
    + intros (m & -> & ->%toLowerCase_nil). done.
  - cbn [matchPrefixCI toLowerCase]. destruct s as [|c s].
    + split; [done|]. intros ([|x m] & Hs & Hm); [done|]. by rewrite append_cons in Hs.
    + destruct (Ascii.eqb (lowerChar p) (lowerChar c)) eqn:E.
      * apply Ascii.eqb_eq in E. rewrite IH. split.
        -- intros (m & -> & Hm). exists (String c m). rewrite append_cons.
           split; [done|]. cbn [toLowerCase]. by rewrite Hm, E.
        -- intros ([|x m] & Hs & Hm); [done|]. rewrite append_cons in Hs.
           injection Hs as -> ->. cbn [toLowerCase] in Hm. injection Hm as _ Hm.
           by exists m.
      * apply Ascii.eqb_neq in E. split; [done|].
        intros ([|x m] & Hs & Hm); [done|]. rewrite append_cons in Hs.
        injection Hs as -> ->. cbn [toLowerCase] in Hm. injection Hm as Hc _.
        by rewrite Hc in E.
Qed.

(** An unanchored match: the pattern occurs somewhere in [s], up to the
    case of its letters. *)
Lemma testCI_true pat s :
  testCI pat s = true
  ↔ ∃ before m after, s = before +:+ m +:+ after ∧ toLowerCase m = toLowerCase pat.
Proof.
  induction s as [|c s IH].
  - cbn [testCI]. destruct (matchPrefixCI pat "") as [r|] eqn:E.
    + apply matchPrefixCI_Some in E as (m & Hs & Hm). split; [|done]. intros _.
      by exists "", m, r.
    + split; [done|]. intros (b & m & a & Hs & Hm). destruct b as [|x b]; [|done].
      assert (matchPrefixCI pat "" = Some a) as E'; [|by rewrite E' in E].
      apply matchPrefixCI_Some. by exists m.
  - cbn [testCI]. destruct (matchPrefixCI pat (String c s)) as [r|] eqn:E.
    + apply matchPrefixCI_Some in E as (m & Hs & Hm). split; [|done]. intros _.
      by exists "", m, r.
    + rewrite IH. split.
      * intros (b & m & a & -> & Hm). exists (String c b), m, a.
        by rewrite append_cons.
      * intros ([|x b] & m & a & Hs & Hm).
        -- assert (matchPrefixCI pat (String c s) = Some a) as E'; [|by rewrite E' in E].
           apply matchPrefixCI_Some. by exists m.
        -- rewrite append_cons in Hs. injection Hs as -> ->. by exists b, m, a.
Qed.

Lemma matchPrefixCI_length pat s r :
  matchPrefixCI pat s = Some r → String.length s = (String.length pat + String.length r)%nat.
Proof.
  revert s. induction pat as [|p pat IH]; intros s; cbn [matchPrefixCI].
  - by intros [= ->].
  - destruct s as [|c s]; [done|]. destruct (Ascii.eqb _ _); [|done].
    intros Hm%IH. cbn [String.length]. lia.
Qed.

Lemma replaceGo_length pat skip s :
  (String.length (replaceGo pat skip s) + Nat.min skip (String.length s)
   ≤ String.length s)%nat.
Proof.
  revert skip. induction s as [|c s IH]; intros skip; cbn [replaceGo String.length].
  - lia.
  - destruct skip as [|k].
    + destruct (matchPrefixCI pat (String c s)).
      * specialize (IH (String.length pat - 1)%nat). cbn [String.length]. lia.
      * specialize (IH 0%nat). cbn [String.length]. lia.
    + specialize (IH k). lia.
Qed.

Lemma replaceAllCI_shorter pat s :
  (2 ≤ String.length pat)%nat →
  testCI pat s = true →
  (String.length (replaceAllCI pat s) < String.length s)%nat.
Proof.
  intros Hpat. unfold replaceAllCI. induction s as [|c s IH]; cbn [testCI replaceGo].
  - destruct (matchPrefixCI pat "") eqn:E; [|done].
    apply matchPrefixCI_length in E. cbn [String.length] in E. lia.
  - destruct (matchPrefixCI pat (String c s)) eqn:E.
    + intros _. apply matchPrefixCI_length in E. cbn [String.length] in E |- *.
      pose proof (replaceGo_length pat (String.length pat - 1) s). lia.
    + intros Ht%IH. cbn [String.length]. lia.
Qed.

Lemma mentionPattern_lower botName :
  mentionPattern (toLowerCase botName) = toLowerCase (mentionPattern botName).
Proof. unfold mentionPattern. by rewrite !toLowerCase_append. Qed.

Lemma length_append (a b : string) :
  String.length (a +:+ b) = (String.length a + String.length b)%nat.
Proof.
  induction a as [|x a IH]; [done|]. rewrite append_cons. cbn [String.length]. by rewrite IH.
Qed.

(** X27.  For a text and a bot name in the ASCII range, the bot is
    mentioned exactly when the text holds [@**name**] somewhere,
    whatever the case of the letters in the text and in the name.  For a
    bot with a name the mention is detected exactly when removing the
    mentions changes the text. *)
Theorem mention_detection text botName :
  (isAscii text = true → isAscii botName = true →
   (wasBotMentioned text botName = true
    ↔ botName ≠ ""
      ∧ ∃ before m after,
          text = before +:+ m +:+ after
          ∧ toLowerCase m = toLowerCase ("@**" +:+ botName +:+ "**"))
   ∧ wasBotMentioned (toLowerCase text) botName = wasBotMentioned text botName
   ∧ wasBotMentioned text (toLowerCase botName) = wasBotMentioned text botName)
  ∧ (botName ≠ "" →
     (wasBotMentioned text botName = false
      ↔ replaceAllCI (mentionPattern botName) text = text)).
Proof.
  unfold wasBotMentioned. split; [intros _ _; split_and!|].
  - destruct (truthy botName) eqn:Hn.
    + apply truthy_true in Hn. rewrite testCI_true. unfold mentionPattern. naive_solver.
    + apply truthy_false in Hn. naive_solver.
  - destruct (truthy botName); [apply testCI_toLowerCase|done].
  - rewrite truthy_toLowerCase. destruct (truthy botName); [|done].
    by rewrite mentionPattern_lower, testCI_lower_pat.
  - intros Hn%truthy_true. rewrite Hn. split; [apply replaceAllCI_none|].
    intros Heq. apply not_true_is_false. intros Ht.
    apply replaceAllCI_shorter in Ht; [rewrite Heq in Ht; lia|].
    unfold mentionPattern. rewrite !length_append. cbn [String.length]. lia.
Qed.

(** A mention in capitals of the bot named [Bot]. *)
Lemma mention_detection_witness :
  isAscii "hi @**BOT** there" = true
  ∧ isAscii "Bot" = true
  ∧ wasBotMentioned "hi @**BOT** there" "Bot" = true.
Proof.
  split; [reflexivity|]. split; [reflexivity|].
  destruct (mention_detection "hi @**BOT** there" "Bot") as [H _].
  destruct (H eq_refl eq_refl) as (Hm & _). apply Hm. split; [discriminate|].
  exists "hi ", "@**BOT**", " there". split; reflexivity.
Defined.
